(** * backend/llm.py: the streaming completion adapter

    A shallow embedding of [src/backend/llm.py].  Python objects live in a
    store of mutable lists and dicts addressed by location, so that aliasing
    ([messages += ...], [copy.deepcopy], [dict(message)]) is visible.  Calls to
    a provider and to the caller's callback are recorded in a trace. *)

From Stdlib Require Import ZArith QArith String List Lia.
From stdpp Require Import base option list strings gmap fin_maps pretty.

Open Scope string_scope.
Open Scope list_scope.
Open Scope nat_scope.

(** ** Exceptions and results *)

Inductive exn :=
  | ValueError
  | IndexError
  | KeyError (key : string)
  | TypeError
  | AttributeError
  | ImageError
  | TransportError
  | OutOfFuel
  | Dangling
  | Exception (msg : string).

Inductive result (A : Type) :=
  | Ok (a : A)
  | Raise (e : exn).
Arguments Ok {A} a.
Arguments Raise {A} e.

Definition is_ok {A} (r : result A) : bool :=
  match r with Ok _ => true | Raise _ => false end.

(** ** Python values and the store

    Strings, numbers, booleans and [None] are immutable and carried by value.
    Lists and dicts are mutable: a value refers to them by location, and the
    store maps locations to their current contents.  A dict is a finite map
    on string keys (the messages are JSON-shaped). *)

Abbreviation loc := nat.

Inductive val :=
  | VNone
  | VBool (b : bool)
  | VInt (z : Z)
  | VStr (s : string)
  | VRef (l : loc).

Inductive obj :=
  | OList (items : list val)
  | ODict (entries : gmap string val).

#[global] Instance val_eq_dec : EqDecision val.
Proof. solve_decision. Defined.

(** ** What a provider receives and answers *)

(** The keyword arguments of [client.messages.stream(...)], with the store
    as it is when the call is made: the messages are serialised then. *)
Record request := Request {
  rq_api_key : string;
  rq_model : string;
  rq_max_tokens : Z;
  rq_temperature : Q;
  rq_system : val;
  rq_messages : val;
  rq_extra_headers : list (string * string);
  rq_store : list obj
}.

(** The final message of a stream: the text of its content blocks, and the
    usage counters. *)
Record Message := {
  content : list string;
  input_tokens : nat;
  output_tokens : nat
}.

(** One Claude stream: the text increments of [stream.text_stream], then
    either the final message or a failure of the transport. *)
Inductive outcome :=
  | Completed (texts : list string) (final : Message)
  | Failed (texts : list string).

(** The values of the keyword dictionary [params] of the OpenAI client. *)
Inductive param :=
  | PStr (s : string)
  | PBool (b : bool)
  | PInt (z : Z)
  | PFloat (q : Q)
  | PMessages (v : val).

Record ChoiceDelta := { delta_content : option string }.
Record Choice := { delta : option ChoiceDelta }.
Record ChatCompletionChunk := { choices : list Choice }.

(** One chat-completion stream: the chunks received, and whether the stream
    then ends normally ([true]) or with a failure of the transport. *)
Record chunk_stream := { chunks : list ChatCompletionChunk; ends_ok : bool }.

(** ** Observable events, in the order they happen *)

Inductive event :=
  | EOpenAICreate (api_key : string) (base_url : option string)
      (params : gmap string param)
  | EClaudeStream (rq : request)
  | EFinalMessage (m : Message)
  | ECallback (text : string)
  | EClose
  | EDebugWrite (file : string) (text : string).

(** ** The monad of the embedding: a store, a trace, and exceptions *)

Record state := State { store : list obj; trace : list event }.

Definition M (A : Type) : Type := state -> state * result A.

Definition ret {A} (a : A) : M A := fun s => (s, Ok a).

Definition raise {A} (e : exn) : M A := fun s => (s, Raise e).

Definition bind {A B} (m : M A) (k : A -> M B) : M B :=
  fun s =>
    match m s with
    | (s', Ok a) => k a s'
    | (s', Raise e) => (s', Raise e)
    end.

Notation "x <- m ; k" := (bind m (fun x => k))
  (at level 20, m at level 100, k at level 200, only parsing).
Notation "' pat <- m ; k" := (bind m (fun x => match x with pat => k end))
  (at level 20, pat pattern, m at level 100, k at level 200, only parsing).

Fixpoint for_each {A} (f : A -> M unit) (xs : list A) : M unit :=
  match xs with
  | [] => ret tt
  | x :: xs' => _ <- f x ; for_each f xs'
  end.

Fixpoint map_each {A B} (f : A -> M B) (xs : list A) : M (list B) :=
  match xs with
  | [] => ret []
  | x :: xs' =>
      y <- f x ;
      ys <- map_each f xs' ;
      ret (y :: ys)
  end.

Fixpoint fold_each {A S} (f : S -> A -> M S) (xs : list A) (acc : S) : M S :=
  match xs with
  | [] => ret acc
  | x :: xs' => acc' <- f acc x ; fold_each f xs' acc'
  end.

Definition emit (e : event) : M unit :=
  fun s => (State (store s) (trace s ++ [e]), Ok tt).

Definition get_state : M state := fun s => (s, Ok s).

Module Py.

(** Allocation: a new object gets the next location. *)
Definition alloc (o : obj) : M loc :=
  fun s => (State (store s ++ [o]) (trace s), Ok (length (store s))).

(** Reading an object.  [Dangling] is not a Python exception: it marks a
    reference to a location the store does not have, which no Python program
    can hold.  [OutOfFuel] is not one either: it marks a recursion bound of
    the embedding that ran out. *)
Definition load (l : loc) : M obj :=
  fun s =>
    match store s !! l with
    | Some o => (s, Ok o)
    | None => (s, Raise Dangling)
    end.

Definition write (l : loc) (o : obj) : M unit :=
  fun s => (State (<[l := o]> (store s)) (trace s), Ok tt).

(** The object behind a value; subscripting or calling a method of a number,
    a boolean or [None] is a [TypeError] or [AttributeError], chosen by the
    caller. *)
Definition deref (e : exn) (v : val) : M (loc * obj) :=
  match v with
  | VRef l => o <- load l ; ret (l, o)
  | _ => raise e
  end.

(** [v] used as a list (iteration, [+], [+=], slicing). *)
Definition as_list (v : val) : M (loc * list val) :=
  '(l, o) <- deref TypeError v ;
  match o with
  | OList items => ret (l, items)
  | ODict _ => raise TypeError
  end.

(** [isinstance(v, list)] *)
Definition isinstance_list (v : val) : M (option (list val)) :=
  match v with
  | VRef l =>
      o <- load l ;
      match o with
      | OList items => ret (Some items)
      | ODict _ => ret None
      end
  | _ => ret None
  end.

(** [d[key]] with a string key: [KeyError] on a dict without the key,
    [TypeError] on anything that is not a dict. *)
Definition getitem (d : val) (key : string) : M val :=
  '(_, o) <- deref TypeError d ;
  match o with
  | ODict entries =>
      match entries !! key with
      | Some v => ret v
      | None => raise (KeyError key)
      end
  | OList _ => raise TypeError
  end.

(** [d[key] = v] *)
Definition setitem (d : val) (key : string) (v : val) : M unit :=
  '(l, o) <- deref TypeError d ;
  match o with
  | ODict entries => write l (ODict (<[key := v]> entries))
  | OList _ => raise TypeError
  end.

(** [del d[key]] *)
Definition delitem (d : val) (key : string) : M unit :=
  '(l, o) <- deref TypeError d ;
  match o with
  | ODict entries =>
      match entries !! key with
      | Some _ => write l (ODict (delete key entries))
      | None => raise (KeyError key)
      end
  | OList _ => raise TypeError
  end.

(** [d.get(key)]: only a dict has the method. *)
Definition dict_get (d : val) (key : string) : M val :=
  '(_, o) <- deref AttributeError d ;
  match o with
  | ODict entries => ret (default VNone (entries !! key))
  | OList _ => raise AttributeError
  end.

(** [dict(d)] for a dict [d]: a new dict with the same entries.  The
    messages are typed as dicts, and the embedding covers [dict] on a dict
    only: on another value it raises [TypeError], where Python's [dict]
    goes by the value (it accepts an iterable of pairs).  What is proved of
    the copies is stated for messages that are dicts. *)
Definition dict_copy (d : val) : M val :=
  '(_, o) <- deref TypeError d ;
  match o with
  | ODict entries => l <- alloc (ODict entries) ; ret (VRef l)
  | OList _ => raise TypeError
  end.

(** A dict or list display [{...}], [[...]]. *)
Definition new_dict (entries : gmap string val) : M val :=
  l <- alloc (ODict entries) ; ret (VRef l).

Definition new_list (items : list val) : M val :=
  l <- alloc (OList items) ; ret (VRef l).

(** [xs += ys] on a list: the list object itself is extended. *)
Definition list_iadd (xs : val) (ys : list val) : M unit :=
  '(l, items) <- as_list xs ;
  write l (OList (items ++ ys)).

(** [xs + ys]: a new list. *)
Definition list_add (xs : val) (ys : list val) : M val :=
  '(_, items) <- as_list xs ;
  new_list (items ++ ys).

(** *** [copy.deepcopy]

    The standard library's algorithm: immutable values are returned as they
    are; a list or dict already copied is looked up in the memo; otherwise an
    empty copy is created and entered in the memo before its elements are
    copied, which keeps shared and cyclic structure.  [fuel] bounds the depth
    of the recursion; the interpreter's own recursion limit is not modelled. *)

Fixpoint copy_all (cp : val -> gmap loc loc -> M (val * gmap loc loc))
    (xs : list val) (memo : gmap loc loc) : M (list val * gmap loc loc) :=
  match xs with
  | [] => ret ([], memo)
  | x :: xs' =>
      '(y, memo1) <- cp x memo ;
      '(ys, memo2) <- copy_all cp xs' memo1 ;
      ret (y :: ys, memo2)
  end.

Fixpoint deepcopy_rec (fuel : nat) (x : val) (memo : gmap loc loc)
    : M (val * gmap loc loc) :=
  match x with
  | VRef l =>
      match memo !! l with
      | Some y => ret (VRef y, memo)
      | None =>
          match fuel with
          | 0 => raise OutOfFuel
          | S fuel' =>
              o <- load l ;
              match o with
              | OList items =>
                  y <- alloc (OList []) ;
                  '(items', memo') <- copy_all (deepcopy_rec fuel') items (<[l := y]> memo) ;
                  _ <- write y (OList items') ;
                  ret (VRef y, memo')
              | ODict entries =>
                  y <- alloc (ODict ∅) ;
                  let kvs := map_to_list entries in
                  '(vals', memo') <- copy_all (deepcopy_rec fuel') (kvs.*2) (<[l := y]> memo) ;
                  _ <- write y (ODict (list_to_map (zip (kvs.*1) vals'))) ;
                  ret (VRef y, memo')
              end
          end
      end
  | _ => ret (x, memo)
  end.

(** A fresh memo per call.  Every descent records one more object of the
    store in the memo, so this fuel is enough (lemma [deepcopy_returns]). *)
Definition deepcopy_memo (x : val) : M (val * gmap loc loc) :=
  s <- get_state ;
  deepcopy_rec (S (length (store s))) x ∅.

Definition deepcopy (x : val) : M val :=
  '(y, _) <- deepcopy_memo x ; ret y.

End Py.

(** ** The model registry: [class Llm(Enum)] and [convert_frontend_str_to_llm] *)

Module Registry.

Inductive Llm :=
  | GPT_4_VISION
  | GPT_4_TURBO_2024_04_09
  | GPT_4O_2024_05_13
  | GPT_4O_2024_08_06
  | GPT_4O_2024_11_20
  | CLAUDE_3_SONNET
  | CLAUDE_3_OPUS
  | CLAUDE_3_HAIKU
  | CLAUDE_3_5_SONNET_2024_06_20
  | CLAUDE_3_5_SONNET_2024_10_22
  | GEMINI_2_0_FLASH_EXP
  | O1_2024_12_17.

#[global] Instance Llm_eq_dec : EqDecision Llm.
Proof. solve_decision. Defined.

(** [model.value] *)
Definition value (m : Llm) : string :=
  match m with
  | GPT_4_VISION => "gpt-4-vision-preview"
  | GPT_4_TURBO_2024_04_09 => "gpt-4-turbo-2024-04-09"
  | GPT_4O_2024_05_13 => "gpt-4o-2024-05-13"
  | GPT_4O_2024_08_06 => "gpt-4o-2024-08-06"
  | GPT_4O_2024_11_20 => "gpt-4o-2024-11-20"
  | CLAUDE_3_SONNET => "claude-3-sonnet-20240229"
  | CLAUDE_3_OPUS => "claude-3-opus-20240229"
  | CLAUDE_3_HAIKU => "claude-3-haiku-20240307"
  | CLAUDE_3_5_SONNET_2024_06_20 => "claude-3-5-sonnet-20240620"
  | CLAUDE_3_5_SONNET_2024_10_22 => "claude-3-5-sonnet-20241022"
  | GEMINI_2_0_FLASH_EXP => "gemini-2.0-flash-exp"
  | O1_2024_12_17 => "o1-2024-12-17"
  end.

(** The members of the enumeration, in definition order. *)
Definition members : list Llm :=
  [ GPT_4_VISION; GPT_4_TURBO_2024_04_09; GPT_4O_2024_05_13; GPT_4O_2024_08_06;
    GPT_4O_2024_11_20; CLAUDE_3_SONNET; CLAUDE_3_OPUS; CLAUDE_3_HAIKU;
    CLAUDE_3_5_SONNET_2024_06_20; CLAUDE_3_5_SONNET_2024_10_22;
    GEMINI_2_0_FLASH_EXP; O1_2024_12_17 ].

(** [Llm(s)]: lookup of a member by value; [ValueError] when no member has
    that value. *)
Definition Llm_call (s : string) : result Llm :=
  match List.find (fun m => String.eqb (value m) s) members with
  | Some m => Ok m
  | None => Raise ValueError
  end.

Definition convert_frontend_str_to_llm (frontend_str : string) : result Llm :=
  if String.eqb frontend_str "gpt_4_vision" then Ok GPT_4_VISION
  else if String.eqb frontend_str "claude_3_sonnet" then Ok CLAUDE_3_SONNET
  else Llm_call frontend_str.

(** The legacy short names and the member each stands for. *)
Definition aliases : list (string * Llm) :=
  [ ("gpt_4_vision", GPT_4_VISION); ("claude_3_sonnet", CLAUDE_3_SONNET) ].

End Registry.

(** ** [stream_openai_response] *)

Module OpenAI.
Import Registry.

Section stream.

(** [client.chat.completions.create] on the keyword dictionary [params]:
    the stream the provider answers with, which may depend on everything
    that happened before. *)
Variable create : state -> string -> option string -> gmap string param -> chunk_stream.

Definition build_params (messages : val) (model : Llm) : gmap string param :=
  let params : gmap string param :=
    {[ "model" := PStr (value model);
       "messages" := PMessages messages;
       "stream" := PBool true;
       "timeout" := PInt 600;
       "temperature" := PFloat 0 ]} in
  let params :=
    if bool_decide (model = GPT_4_VISION
                    \/ model = GPT_4_TURBO_2024_04_09
                    \/ model = GPT_4O_2024_05_13)
    then <["max_tokens" := PInt 4096]> params
    else params in
  let params :=
    if bool_decide (model = GPT_4O_2024_11_20)
    then <["max_tokens" := PInt 16384]> params
    else params in
  params.

(** The body of [async for chunk in stream]: the test is Python truthiness,
    so an empty [choices], a missing [delta], a missing [content] and an
    empty [content] all skip the chunk. *)
Definition chunk_body (full_response : string) (chunk : ChatCompletionChunk)
    : M string :=
  match choices chunk with
  | [] => ret full_response
  | choice0 :: _ =>
      match delta choice0 with
      | None => ret full_response
      | Some d =>
          match delta_content d with
          | None => ret full_response
          | Some "" => ret full_response
          | Some content =>
              let full_response := full_response +:+ content in
              _ <- emit (ECallback content) ;
              ret full_response
          end
      end
  end.

Definition stream_openai_response (messages : val) (api_key : string)
    (base_url : option string) (model : Llm) : M string :=
  let params := build_params messages model in
  s <- get_state ;
  _ <- emit (EOpenAICreate api_key base_url params) ;
  let stream := create s api_key base_url params in
  full_response <- fold_each chunk_body (chunks stream) "" ;
  if ends_ok stream then
    _ <- emit EClose ;
    ret full_response
  else raise TransportError.

End stream.

End OpenAI.

(** ** [stream_claude_response] *)

Module Claude.
Import Registry Py.

Section stream.

(** [image_processing.utils.process_image]: from the data URL to the media
    type and the base64 data, or the exception it raises, which leaves the
    call as it is (line 123 is under no [try]). *)
Variable process_image : val -> result (string * string).

(** [client.messages.stream(...)] *)
Variable messages_stream : state -> request -> outcome.

Definition max_tokens : Z := 8192.
Definition temperature : Q := 0.

Definition call_process_image (image_data_url : val) : M (string * string) :=
  match process_image image_data_url with
  | Ok r => ret r
  | Raise e => raise e
  end.

(** The body of [for content in message["content"]] *)
Definition rewrite_content (content : val) : M unit :=
  ty <- getitem content "type" ;
  if bool_decide (ty = VStr "image_url") then
    _ <- setitem content "type" (VStr "image") ;
    image_url <- getitem content "image_url" ;
    image_data_url <- getitem image_url "url" ;
    '(media_type, base64_data) <- call_process_image image_data_url ;
    _ <- delitem content "image_url" ;
    source <- new_dict {[ "type" := VStr "base64";
                          "media_type" := VStr media_type;
                          "data" := VStr base64_data ]} ;
    setitem content "source" source
  else ret tt.

(** The body of [for message in claude_messages] *)
Definition rewrite_message (message : val) : M unit :=
  c <- getitem message "content" ;
  parts <- isinstance_list c ;
  match parts with
  | None => ret tt
  | Some items => for_each rewrite_content items
  end.

(** Lines 105-132: from the caller's messages to the system prompt and the
    list of Claude messages.  The slice [cloned_messages[1:]] is a temporary
    that nothing keeps, and is not allocated.  [messages] is typed as a
    list, and the embedding covers the subscript and the slice on a list
    only: on another value it raises [TypeError], where Python goes by the
    value.  What is proved of the result is stated for a list. *)
Definition translate (messages : val) : M (val * val) :=
  cloned_messages <- deepcopy messages ;
  '(_, cloned) <- as_list cloned_messages ;
  match cloned with
  | [] => raise IndexError
  | first :: rest =>
      system_prompt <- dict_get first "content" ;
      copies <- map_each dict_copy rest ;
      claude_messages <- new_list copies ;
      _ <- for_each rewrite_message copies ;
      ret (system_prompt, claude_messages)
  end.

(** [await callback(text)], with a callback that returns. *)
Definition callback (text : string) : M unit := emit (ECallback text).

(** [response.content[0].text] *)
Definition first_text (response : Message) : M string :=
  match content response with
  | [] => raise IndexError
  | text :: _ => ret text
  end.

Definition stream_claude_response (messages : val) (api_key : string)
    (model : Llm) : M string :=
  '(system_prompt, claude_messages) <- translate messages ;
  s <- get_state ;
  let rq := {| rq_api_key := api_key;
               rq_model := value model;
               rq_max_tokens := max_tokens;
               rq_temperature := temperature;
               rq_system := system_prompt;
               rq_messages := claude_messages;
               rq_extra_headers :=
                 [("anthropic-beta", "max-tokens-3-5-sonnet-2024-07-15")];
               rq_store := store s |} in
  _ <- emit (EClaudeStream rq) ;
  match messages_stream s rq with
  | Completed texts response =>
      _ <- for_each callback texts ;
      _ <- emit (EFinalMessage response) ;
      _ <- emit EClose ;
      first_text response
  | Failed texts =>
      _ <- for_each callback texts ;
      raise TransportError
  end.

End stream.

End Claude.

(** ** [stream_claude_response_native] *)

Module Native.
Import Registry Py.

(** [response_text.split(sep)[0]]: the text before the first [sep]. *)
Fixpoint split_head (sep s : string) : string :=
  match s with
  | "" => ""
  | String c s' =>
      if String.prefix sep s then "" else String c (split_head sep s')
  end.

Record loop_vars := {
  current_pass_num : nat;
  response : option Message;
  full_stream : string
}.

Definition max_tokens : Z := 4096.
Definition temperature : Q := 0.
Definition max_passes : nat := 2.
Definition prefix : string := "<thinking>".

Definition improve_instruction : string :=
  "You've done a good job with a first draft. Improve this further based on the original instructions so that the app is fully functional and looks like the original video of the app we're trying to replicate.".

Section stream.

(** [config.IS_DEBUG_ENABLED] and [DebugFileWriter.extract_html_content] *)
Variable IS_DEBUG_ENABLED : bool.
Variable extract_html_content : string -> string.

(** [client.messages.stream(...)] *)
Variable messages_stream : state -> request -> outcome.

Variable system_prompt : string.
Variable messages : val.
Variable api_key : string.
Variable include_thinking : bool.
Variable model : Llm.

(** [full_stream += text; await callback(text)], with a callback that
    returns; [Sink] has the loop with a callback that may raise. *)
Definition text_body (full_stream : string) (text : string) : M string :=
  let full_stream := full_stream +:+ text in
  _ <- emit (ECallback text) ;
  ret full_stream.

Definition write_to_file (file text : string) : M unit :=
  emit (EDebugWrite file text).

(** The body of the [while] loop.  Console output ([print],
    [pprint_prompt]) is not recorded; the one-element and two-element list
    displays are temporaries and are not allocated. *)
Definition pass_body (vars : loop_vars) : M loop_vars :=
  let current_pass_num := current_pass_num vars + 1 in
  messages_to_send <-
    (if include_thinking then
       turn <- new_dict {[ "role" := VStr "assistant";
                           "content" := VStr prefix ]} ;
       list_add messages [turn]
     else ret messages) ;
  s <- get_state ;
  let rq := {| rq_api_key := api_key;
               rq_model := value model;
               rq_max_tokens := max_tokens;
               rq_temperature := temperature;
               rq_system := VStr system_prompt;
               rq_messages := messages_to_send;
               rq_extra_headers := [];
               rq_store := store s |} in
  _ <- emit (EClaudeStream rq) ;
  match messages_stream s rq with
  | Completed texts response =>
      full_stream <- fold_each text_body texts (full_stream vars) ;
      _ <- emit (EFinalMessage response) ;
      response_text <- Claude.first_text response ;
      _ <- (if IS_DEBUG_ENABLED then
              _ <- write_to_file
                     ("pass_" +:+ pretty (current_pass_num - 1) +:+ ".html")
                     (extract_html_content response_text) ;
              write_to_file
                ("thinking_pass_" +:+ pretty (current_pass_num - 1) +:+ ".txt")
                (split_head "</thinking>" response_text)
            else ret tt) ;
      assistant_turn <- new_dict {[ "role" := VStr "assistant";
                                    "content" := VStr (prefix +:+ response_text) ]} ;
      user_turn <- new_dict {[ "role" := VStr "user";
                               "content" := VStr improve_instruction ]} ;
      _ <- list_iadd messages [assistant_turn; user_turn] ;
      ret {| current_pass_num := current_pass_num;
             response := Some response;
             full_stream := full_stream |}
  | Failed texts =>
      _ <- fold_each text_body texts (full_stream vars) ;
      raise TransportError
  end.

(** [while current_pass_num <= max_passes] *)
Fixpoint while_passes (fuel : nat) (vars : loop_vars) : M loop_vars :=
  if current_pass_num vars <=? max_passes then
    match fuel with
    | 0 => raise OutOfFuel
    | S fuel' => vars' <- pass_body vars ; while_passes fuel' vars'
    end
  else ret vars.

Definition stream_claude_response_native : M string :=
  vars <- while_passes max_passes
            {| current_pass_num := 1; response := None; full_stream := "" |} ;
  _ <- emit EClose ;
  _ <- (if IS_DEBUG_ENABLED
        then write_to_file "full_stream.txt" (full_stream vars)
        else ret tt) ;
  match response vars with
  | None => raise (Exception "No HTML response found in AI response")
  | Some response => Claude.first_text response
  end.

End stream.

End Native.

(** ** [stream_claude_response_native] with a callback that may raise

    In [Native] the caller's callback is taken to return.  Here it is a
    collaborator that returns or raises, and what it raises leaves the
    call: line 203 is under no [try].  Everything else is as in [Native]. *)

Module Sink.
Import Registry Py.

Section stream.

Variable IS_DEBUG_ENABLED : bool.
Variable extract_html_content : string -> string.
Variable messages_stream : state -> request -> outcome.

(** [await callback(text)], given all that happened before. *)
Variable callback : state -> string -> result unit.

Variable system_prompt : string.
Variable messages : val.
Variable api_key : string.
Variable include_thinking : bool.
Variable model : Llm.

(** [full_stream += text; await callback(text)] *)
Definition text_body (full_stream : string) (text : string) : M string :=
  let full_stream := full_stream +:+ text in
  s <- get_state ;
  _ <- emit (ECallback text) ;
  match callback s text with
  | Ok _ => ret full_stream
  | Raise e => raise e
  end.

Definition pass_body (vars : Native.loop_vars) : M Native.loop_vars :=
  let current_pass_num := Native.current_pass_num vars + 1 in
  messages_to_send <-
    (if include_thinking then
       turn <- new_dict {[ "role" := VStr "assistant";
                           "content" := VStr Native.prefix ]} ;
       list_add messages [turn]
     else ret messages) ;
  s <- get_state ;
  let rq := {| rq_api_key := api_key;
               rq_model := value model;
               rq_max_tokens := Native.max_tokens;
               rq_temperature := Native.temperature;
               rq_system := VStr system_prompt;
               rq_messages := messages_to_send;
               rq_extra_headers := [];
               rq_store := store s |} in
  _ <- emit (EClaudeStream rq) ;
  match messages_stream s rq with
  | Completed texts response =>
      full_stream <- fold_each text_body texts (Native.full_stream vars) ;
      _ <- emit (EFinalMessage response) ;
      response_text <- Claude.first_text response ;
      _ <- (if IS_DEBUG_ENABLED then
              _ <- Native.write_to_file
                     ("pass_" +:+ pretty (current_pass_num - 1) +:+ ".html")
                     (extract_html_content response_text) ;
              Native.write_to_file
                ("thinking_pass_" +:+ pretty (current_pass_num - 1) +:+ ".txt")
                (Native.split_head "</thinking>" response_text)
            else ret tt) ;
      assistant_turn <- new_dict {[ "role" := VStr "assistant";
                                    "content" :=
                                      VStr (Native.prefix +:+ response_text) ]} ;
      user_turn <- new_dict {[ "role" := VStr "user";
                               "content" := VStr Native.improve_instruction ]} ;
      _ <- list_iadd messages [assistant_turn; user_turn] ;
      ret {| Native.current_pass_num := current_pass_num;
             Native.response := Some response;
             Native.full_stream := full_stream |}
  | Failed texts =>
      _ <- fold_each text_body texts (Native.full_stream vars) ;
      raise TransportError
  end.

Fixpoint while_passes (fuel : nat) (vars : Native.loop_vars)
    : M Native.loop_vars :=
  if Native.current_pass_num vars <=? Native.max_passes then
    match fuel with
    | 0 => raise OutOfFuel
    | S fuel' => vars' <- pass_body vars ; while_passes fuel' vars'
    end
  else ret vars.

Definition stream_claude_response_native : M string :=
  vars <- while_passes Native.max_passes
            {| Native.current_pass_num := 1;
               Native.response := None;
               Native.full_stream := "" |} ;
  _ <- emit EClose ;
  _ <- (if IS_DEBUG_ENABLED
        then Native.write_to_file "full_stream.txt" (Native.full_stream vars)
        else ret tt) ;
  match Native.response vars with
  | None => raise (Exception "No HTML response found in AI response")
  | Some response => Claude.first_text response
  end.

End stream.

End Sink.

(** ** Observations on a trace *)

(** The texts handed to the caller's callback, in order. *)
Definition callbacks (t : list event) : list string :=
  omap (fun e => match e with ECallback text => Some text | _ => None end) t.

(** The requests made to the Claude provider, in order. *)
Definition requests (t : list event) : list request :=
  omap (fun e => match e with EClaudeStream rq => Some rq | _ => None end) t.

(** The final messages obtained from the Claude provider, in order. *)
Definition final_messages (t : list event) : list Message :=
  omap (fun e => match e with EFinalMessage m => Some m | _ => None end) t.

(** ** Specification-level definitions for the OpenAI-compatible strategy *)

(** Following the spec: the non-empty delta text field of a chunk, when the
    chunk has one. *)
Definition spec_delta_text (chunk : ChatCompletionChunk) : option string :=
  match choices chunk with
  | [] => None
  | c :: _ =>
      match delta c with
      | None => None
      | Some d =>
          match delta_content d with
          | None => None
          | Some t => if bool_decide (t = "") then None else Some t
          end
      end
  end.

(** Concatenation of text fragments, in order. *)
Definition concat_texts (texts : list string) : string :=
  foldr String.append "" texts.

(** ** Specification-level definitions for the refinement loop *)

(** The dict displays of [stream_claude_response_native]. *)
Definition prefix_turn : gmap string val :=
  {[ "role" := VStr "assistant"; "content" := VStr Native.prefix ]}.

Definition assistant_turn (response_text : string) : gmap string val :=
  {[ "role" := VStr "assistant";
     "content" := VStr (Native.prefix +:+ response_text) ]}.

Definition user_turn : gmap string val :=
  {[ "role" := VStr "user"; "content" := VStr Native.improve_instruction ]}.

(** The conversation a request carries: the items of its list of messages
    when the request was made. *)
Definition sent_conversation (rq : request) : option (list val) :=
  match rq_messages rq with
  | VRef l =>
      match rq_store rq !! l with
      | Some (OList items) => Some items
      | _ => None
      end
  | _ => None
  end.

(** The dict a value refers to in a store. *)
Definition dict_at (st : list obj) (v : val) : option (gmap string val) :=
  match v with
  | VRef l =>
      match st !! l with
      | Some (ODict entries) => Some entries
      | _ => None
      end
  | _ => None
  end.

(** The state in which a pass calls the provider, the value it sends as
    [messages], and the request, when the caller's list holds [items]. *)
Definition pass_pre_state (include_thinking : bool) (items : list val)
    (s : state) : state :=
  if include_thinking then
    State (store s ++ [ODict prefix_turn;
                       OList (items ++ [VRef (length (store s))])])
          (trace s)
  else s.

Definition pass_messages_to_send (include_thinking : bool) (messages : val)
    (s : state) : val :=
  if include_thinking then VRef (S (length (store s))) else messages.

Definition pass_request (system_prompt : string) (messages : val)
    (api_key : string) (include_thinking : bool) (model : Registry.Llm)
    (items : list val) (s : state) : request :=
  {| rq_api_key := api_key;
     rq_model := Registry.value model;
     rq_max_tokens := Native.max_tokens;
     rq_temperature := Native.temperature;
     rq_system := VStr system_prompt;
     rq_messages := pass_messages_to_send include_thinking messages s;
     rq_extra_headers := [];
     rq_store := store (pass_pre_state include_thinking items s) |}.

(** The debug files a pass writes. *)
Definition pass_debug_events (IS_DEBUG_ENABLED : bool)
    (extract_html_content : string -> string) (pass_num : nat)
    (response_text : string) : list event :=
  if IS_DEBUG_ENABLED then
    [ EDebugWrite ("pass_" +:+ pretty pass_num +:+ ".html")
        (extract_html_content response_text);
      EDebugWrite ("thinking_pass_" +:+ pretty pass_num +:+ ".txt")
        (Native.split_head "</thinking>" response_text) ]
  else [].

(** The state a completed pass leaves, from the state [s1] in which the
    provider was called: the two new turns are allocated and the caller's
    list at [l] is extended with them. *)
Definition pass_post_state (IS_DEBUG_ENABLED : bool)
    (extract_html_content : string -> string) (l : loc) (items : list val)
    (pass_num : nat) (s1 : state) (rq : request) (texts : list string)
    (final : Message) (response_text : string) : state :=
  let n := length (store s1) in
  State (<[l := OList (items ++ [VRef n; VRef (S n)])]>
           (store s1 ++ [ODict (assistant_turn response_text); ODict user_turn]))
        (trace s1 ++ [EClaudeStream rq] ++ (ECallback <$> texts)
           ++ [EFinalMessage final]
           ++ pass_debug_events IS_DEBUG_ENABLED extract_html_content
                pass_num response_text).

(** What is done after the loop: the client is closed and the whole stream
    is written out when debugging. *)
Definition closing_events (IS_DEBUG_ENABLED : bool) (full_stream : string)
    : list event :=
  EClose :: (if IS_DEBUG_ENABLED
             then [EDebugWrite "full_stream.txt" full_stream] else []).

(** The exception of the check after the loop. *)
Definition no_response_error : exn :=
  Exception "No HTML response found in AI response".

(** The two passes of a run that starts in [s] with the caller's list at [l]
    holding [items]: the state and request of each call to the provider, and
    the state each pass leaves, given the provider's answers. *)
Section two_passes.

Variable IS_DEBUG_ENABLED : bool.
Variable extract_html_content : string -> string.
Variable system_prompt : string.
Variable messages : val.
Variable api_key : string.
Variable include_thinking : bool.
Variable model : Registry.Llm.
Variable l : loc.
Variable items : list val.
Variable s : state.

Definition call1_state : state := pass_pre_state include_thinking items s.

Definition call1_request : request :=
  pass_request system_prompt messages api_key include_thinking model items s.

(** The two turns pass 1 appends to the caller's list. *)
Definition pass1_turns : list val :=
  [VRef (length (store call1_state)); VRef (S (length (store call1_state)))].

Definition pass1_state (texts1 : list string) (final1 : Message)
    (text1 : string) : state :=
  pass_post_state IS_DEBUG_ENABLED extract_html_content l items 1
    call1_state call1_request texts1 final1 text1.

Definition call2_state (texts1 : list string) (final1 : Message)
    (text1 : string) : state :=
  pass_pre_state include_thinking (items ++ pass1_turns)
    (pass1_state texts1 final1 text1).

Definition call2_request (texts1 : list string) (final1 : Message)
    (text1 : string) : request :=
  pass_request system_prompt messages api_key include_thinking model
    (items ++ pass1_turns) (pass1_state texts1 final1 text1).

(** The two turns pass 2 appends to the caller's list. *)
Definition pass2_turns (texts1 : list string) (final1 : Message)
    (text1 : string) : list val :=
  let n := length (store (call2_state texts1 final1 text1)) in
  [VRef n; VRef (S n)].

Definition pass2_state (texts1 : list string) (final1 : Message)
    (text1 : string) (texts2 : list string) (final2 : Message)
    (text2 : string) : state :=
  pass_post_state IS_DEBUG_ENABLED extract_html_content l
    (items ++ pass1_turns) 2
    (call2_state texts1 final1 text1) (call2_request texts1 final1 text1)
    texts2 final2 text2.

Definition final_state (texts1 : list string) (final1 : Message)
    (text1 : string) (texts2 : list string) (final2 : Message)
    (text2 : string) : state :=
  let s4 := pass2_state texts1 final1 text1 texts2 final2 text2 in
  State (store s4)
        (trace s4 ++ closing_events IS_DEBUG_ENABLED
           (("" +:+ concat_texts texts1) +:+ concat_texts texts2)).

End two_passes.

(** [m] raises only exceptions that satisfy [P]. *)
Definition raises_only {A} (P : exn -> Prop) (m : M A) : Prop :=
  forall s s' e, m s = (s', Raise e) -> P e.

(** ** Example inputs *)

(** A conversation of one user message, held by the caller at location 0. *)
Definition example_store : list obj :=
  [ OList [VRef 1];
    ODict {[ "role" := VStr "user"; "content" := VStr "Make a button" ]} ].

Definition example_state : state := State example_store [].

Definition text_message (text : string) : Message :=
  {| content := [text]; input_tokens := 10; output_tokens := 5 |}.

(** A provider that answers the first request with a draft and every later
    one with a final text. *)
Definition drafting_provider (s : state) (rq : request) : outcome :=
  match requests (trace s) with
  | [] => Completed ["dr"; "aft"] (text_message "draft")
  | _ => Completed ["final"] (text_message "final")
  end.

(** A provider whose every stream fails before any text arrives. *)
Definition failing_provider (s : state) (rq : request) : outcome := Failed [].

(** A provider that answers the first request and fails on the second. *)
Definition failing_second_provider (s : state) (rq : request) : outcome :=
  match requests (trace s) with
  | [] => Completed ["draft"] (text_message "draft")
  | _ => Failed []
  end.

(** ** Specification-level definitions for the store *)

(** A value that refers, if at all, to a location at or after [n]. *)
Definition fresh_val (n : nat) (v : val) : Prop :=
  match v with
  | VRef l => n <= l
  | _ => True
  end.

Definition fresh_obj (n : nat) (o : obj) : Prop :=
  match o with
  | OList items => Forall (fresh_val n) items
  | ODict entries => map_Forall (fun _ v => fresh_val n v) entries
  end.

Definition fresh_memo (n : nat) (memo : gmap loc loc) : Prop :=
  map_Forall (fun _ y => n <= y) memo.

(** The store is the original store [h0] followed by new objects, the new
    objects refer to new objects only, and the trace satisfies [T]. *)
Definition extends_store (T : list event -> Prop) (h0 : list obj) (s : state)
    : Prop :=
  T (trace s)
  /\ exists ext, store s = h0 ++ ext /\ Forall (fresh_obj (length h0)) ext.

(** [m] keeps the invariant [I], also when it raises, and its results
    satisfy [Q]. *)
Definition preserves {A} (I : state -> Prop) (m : M A) (Q : A -> Prop) : Prop :=
  forall s, I s -> I (m s).1 /\ forall a, (m s).2 = Ok a -> Q a.

(** The value a reference stands for, read off the store as a tree; [None]
    when the structure is deeper than [fuel] or refers outside the store. *)
Inductive tree :=
  | TNone
  | TBool (b : bool)
  | TInt (z : Z)
  | TStr (s : string)
  | TList (items : list tree)
  | TDict (entries : list (string * tree)).

Fixpoint snapshot (fuel : nat) (st : list obj) (v : val) : option tree :=
  match v with
  | VNone => Some TNone
  | VBool b => Some (TBool b)
  | VInt z => Some (TInt z)
  | VStr s => Some (TStr s)
  | VRef l =>
      match fuel with
      | 0 => None
      | S fuel' =>
          match st !! l with
          | None => None
          | Some (OList items) =>
              TList <$> mapM (snapshot fuel' st) items
          | Some (ODict entries) =>
              let kvs := map_to_list entries in
              (fun ts => TDict (zip (kvs.*1) ts))
                <$> mapM (snapshot fuel' st) (kvs.*2)
          end
      end
  end.

(** ** Specification-level definitions for [copy.deepcopy] *)

(** A value refers, if at all, to a location before [n]; a store is closed
    when every reference in it is to one of its own objects. *)
Definition val_closed (n : nat) (v : val) : Prop :=
  match v with
  | VRef l => l < n
  | _ => True
  end.

Definition obj_closed (n : nat) (o : obj) : Prop :=
  match o with
  | OList items => Forall (val_closed n) items
  | ODict entries => map_Forall (fun _ v => val_closed n v) entries
  end.

Definition closed_store (st : list obj) : Prop :=
  Forall (obj_closed (length st)) st.

(** The copy of a value under a memo: references are replaced by the
    locations of the copies, everything else is kept. *)
Definition rename_val (memo : gmap loc loc) (v : val) : val :=
  match v with
  | VRef l =>
      match memo !! l with
      | Some y => VRef y
      | None => v
      end
  | _ => v
  end.

Definition rename_obj (memo : gmap loc loc) (o : obj) : obj :=
  match o with
  | OList items => OList (rename_val memo <$> items)
  | ODict entries => ODict (rename_val memo <$> entries)
  end.

(** The references of a value or object are all in the memo. *)
Definition val_in (memo : gmap loc loc) (v : val) : Prop :=
  match v with
  | VRef l => is_Some (memo !! l)
  | _ => True
  end.

Definition obj_in (memo : gmap loc loc) (o : obj) : Prop :=
  match o with
  | OList items => Forall (val_in memo) items
  | ODict entries => map_Forall (fun _ v => val_in memo v) entries
  end.

(** The object at [l] in the original store [h0] has been copied: the memo
    gives the location of the copy, which holds the original object with
    its references replaced by the copies' locations. *)
Definition copied (h0 : list obj) (memo : gmap loc loc) (st : list obj)
    (l : loc) : Prop :=
  exists o y,
    h0 !! l = Some o /\ memo !! l = Some y /\ obj_in memo o
    /\ length h0 <= y /\ st !! y = Some (rename_obj memo o).

(** Every copy the memo records lies in the store, after the original. *)
Definition memo_ok (h0 : list obj) (memo : gmap loc loc) (st : list obj)
    : Prop :=
  map_Forall (fun _ y => length h0 <= y < length st) memo.

(** What a run of the copier from memo [memo] and state [s] to [memo'] and
    [s'] guarantees: the store and the memo only grow, the trace is kept,
    and every object entered in the memo by the run has been copied, to a
    location the run allocated. *)
Definition copy_post (h0 : list obj) (memo : gmap loc loc) (s : state)
    (memo' : gmap loc loc) (s' : state) : Prop :=
  store s `prefix_of` store s'
  /\ trace s' = trace s
  /\ memo ⊆ memo'
  /\ memo_ok h0 memo' (store s')
  /\ (forall l y, memo !! l = None -> memo' !! l = Some y ->
        length (store s) <= y /\ copied h0 memo' (store s') l).

(** The number of locations of a store of [n] objects that the memo has not
    recorded yet: what the copier can still descend into. *)
Definition unvisited (n : nat) (memo : gmap loc loc) : nat :=
  length (filter (fun l => memo !! l = None) (seq 0 n)).

(** ** Specification-level definitions for the image rewriting *)

(** The dict display of line 128, and an image part after lines 115-132:
    its type is [image], its [image_url] entry is gone, and its [source]
    entry refers to the new dict. *)
Definition source_dict (media_type base64_data : string) : gmap string val :=
  {[ "type" := VStr "base64";
     "media_type" := VStr media_type;
     "data" := VStr base64_data ]}.

Definition image_part (e : gmap string val) (source : loc) : gmap string val :=
  <["source" := VRef source]> (delete "image_url" (<["type" := VStr "image"]> e)).

(** A content part in the OpenAI image form. *)
Definition is_image_url (e : gmap string val) : Prop :=
  e !! "type" = Some (VStr "image_url").

(** [content["image_url"]["url"]] *)
Definition data_url (st : list obj) (e : gmap string val) : option val :=
  match e !! "image_url" with
  | Some (VRef li) =>
      match st !! li with
      | Some (ODict eu) => eu !! "url"
      | _ => None
      end
  | _ => None
  end.

(** The object at [l] was an image part in the store [st1] and is, in [st],
    that part rewritten for Claude from its data URL. *)
Definition rewritten (process_image : val -> result (string * string))
    (st1 st : list obj) (l : loc) : Prop :=
  exists e url media_type base64_data source,
    st1 !! l = Some (ODict e)
    /\ is_image_url e
    /\ data_url st1 e = Some url
    /\ process_image url = Ok (media_type, base64_data)
    /\ st !! l = Some (ODict (image_part e source))
    /\ length st1 <= source
    /\ st !! source = Some (ODict (source_dict media_type base64_data)).

(** The invariant of the rewriting loops, from the store [st1] they start
    in: every object of [st1] is as it was or is a rewritten image part,
    and every new object is a source dict. *)
Definition rewrite_inv (process_image : val -> result (string * string))
    (st1 st : list obj) : Prop :=
  length st1 <= length st
  /\ (forall l, l < length st1 ->
        st !! l = st1 !! l \/ rewritten process_image st1 st l)
  /\ (forall l, length st1 <= l -> l < length st ->
        exists media_type base64_data,
          st !! l = Some (ODict (source_dict media_type base64_data))).

(** The value is a dict that is not in the OpenAI image form. *)
Definition settled (st : list obj) (v : val) : Prop :=
  exists l e, v = VRef l /\ st !! l = Some (ODict e) /\ ~ is_image_url e.

(** Objects that are not image parts are the same in [st'] as in [st]. *)
Definition keeps_others (st st' : list obj) : Prop :=
  forall l o, st !! l = Some o ->
    (forall e, o = ODict e -> ~ is_image_url e) -> st' !! l = Some o.

(** The list a value refers to in a store. *)
Definition list_at (st : list obj) (v : val) : option (list val) :=
  match v with
  | VRef l =>
      match st !! l with
      | Some (OList items) => Some items
      | _ => None
      end
  | _ => None
  end.

(** The [j]-th content part of the [i]-th message of a list of messages,
    when the message is a dict whose content is a list and the part is a
    dict. *)
Definition content_part (st : list obj) (msgs : list val) (i j : nat)
    : option (gmap string val) :=
  match msgs !! i with
  | Some m =>
      match dict_at st m with
      | Some em =>
          match em !! "content" with
          | Some c =>
              match list_at st c with
              | Some parts =>
                  match parts !! j with
                  | Some p => dict_at st p
                  | None => None
                  end
              | None => None
              end
          | None => None
          end
      | None => None
      end
  | None => None
  end.

(** The exceptions of the store operations. *)
Definition store_error (e : exn) : Prop :=
  match e with
  | TypeError | AttributeError | KeyError _ | Dangling | OutOfFuel => True
  | _ => False
  end.

(** The exceptions the translation can raise once it has the first message:
    those of the store operations, and whatever [process_image] raises. *)
Definition translation_error (process_image : val -> result (string * string))
    (e : exn) : Prop :=
  store_error e \/ exists url, process_image url = Raise e.

(** A conversation whose first message has the role [user], followed by a
    user message with a text part and an image part; the caller holds it at
    location 0. *)
Definition image_store : list obj :=
  [ OList [VRef 1; VRef 2];
    ODict {[ "role" := VStr "user"; "content" := VStr "You write HTML." ]};
    ODict {[ "role" := VStr "user"; "content" := VRef 3 ]};
    OList [VRef 4; VRef 5];
    ODict {[ "type" := VStr "text"; "text" := VStr "Make a button" ]};
    ODict {[ "type" := VStr "image_url"; "image_url" := VRef 6 ]};
    ODict {[ "url" := VStr "data:image/png;base64,AAAA" ]} ].

Definition image_state : state := State image_store [].

(** A stand-in for the image collaborator: a string is taken as PNG data,
    anything else is refused. *)
Definition example_process_image (v : val) : result (string * string) :=
  match v with
  | VStr url => Ok ("image/png", url)
  | _ => Raise ImageError
  end.

(** The role of the first message of the conversation at location 0. *)
Definition content_role_of_first (st : list obj) : option val :=
  match list_at st (VRef 0) with
  | Some (first :: _) =>
      match dict_at st first with
      | Some e => e !! "role"
      | None => None
      end
  | _ => None
  end.

(** ** [stream_gemini_response] and the two implementations behind it *)

Module Gemini.
Import Registry.

Section stream.

(** [client.chat.completions.create] of the OpenAI client, as in
    [stream_openai_response]. *)
Variable create :
  state -> string -> option string -> gmap string param -> chunk_stream.

Definition API_TYPE : string := "openai_compatible".

Definition base_url : string :=
  "https://generativelanguage.googleapis.com/v1beta/openai/".

(** The dict display of lines 341-350: every entry is fixed but the model
    and the messages. *)
Definition build_params (messages : val) (model : Llm) : gmap string param :=
  {[ "model" := PStr (value model);
     "messages" := PMessages messages;
     "stream" := PBool true;
     "timeout" := PInt 600;
     "temperature" := PFloat 0;
     "top_p" := PFloat (95 # 100);
     "max_tokens" := PInt 8192 ]}.

(** Lines 352-368; the loop over the chunks is, line for line, that of
    [stream_openai_response]. *)
Definition generate_gemini_response_openai_compatible (messages : val)
    (api_key : string) (model : Llm) : M string :=
  let params := build_params messages model in
  s <- get_state ;
  _ <- emit (EOpenAICreate api_key (Some base_url) params) ;
  let stream := create s api_key (Some base_url) params in
  full_response <- fold_each OpenAI.chunk_body (chunks stream) "" ;
  if ends_ok stream then
    _ <- emit EClose ;
    ret full_response
  else raise TransportError.

(** Disabled in the source: the body is [return ""]. *)
Definition generate_gemini_response_google_generativeai (messages : val)
    (api_key : string) (model : Llm) : M string :=
  ret "".

Definition stream_gemini_response (messages : val) (api_key : string)
    (model : Llm) : M string :=
  if String.eqb API_TYPE "openai_compatible" then
    generate_gemini_response_openai_compatible messages api_key model
  else if String.eqb API_TYPE "google_generativeai" then
    generate_gemini_response_google_generativeai messages api_key model
  else raise (Exception ("Invalid API type: " +:+ API_TYPE)).

End stream.

End Gemini.

(** ** Further observations on a trace *)

(** The calls of [client.chat.completions.create], in order: the key, the
    base URL and the keyword dictionary of each. *)
Definition creates (t : list event)
    : list (string * option string * gmap string param) :=
  omap (fun e => match e with
                 | EOpenAICreate k b p => Some (k, b, p)
                 | _ => None
                 end) t.

(** How many times a client was closed. *)
Definition closes (t : list event) : nat :=
  length (omap (fun e => match e with EClose => Some tt | _ => None end) t).

(** The debug files written, in order: the name and the text of each. *)
Definition debug_writes (t : list event) : list (string * string) :=
  omap (fun e => match e with
                 | EDebugWrite file text => Some (file, text)
                 | _ => None
                 end) t.

(** A chunk cut down to its first choice. *)
Definition first_choice_only (chunk : ChatCompletionChunk)
    : ChatCompletionChunk :=
  {| choices := take 1 (choices chunk) |}.

(** The request [stream_claude_response] makes once the translation has
    given the system prompt and the Claude messages, on the store [st]. *)
Definition claude_request (api_key : string) (model : Registry.Llm)
    (system_prompt claude_messages : val) (st : list obj) : request :=
  {| rq_api_key := api_key;
     rq_model := Registry.value model;
     rq_max_tokens := 8192;
     rq_temperature := 0;
     rq_system := system_prompt;
     rq_messages := claude_messages;
     rq_extra_headers :=
       [("anthropic-beta", "max-tokens-3-5-sonnet-2024-07-15")];
     rq_store := st |}.

(** The parameters every request of [stream_claude_response_native]
    carries. *)
Definition native_parameters (system_prompt api_key : string)
    (model : Registry.Llm) (rq : request) : Prop :=
  rq_api_key rq = api_key
  /\ rq_model rq = Registry.value model
  /\ rq_max_tokens rq = 4096%Z
  /\ rq_temperature rq = 0%Q
  /\ rq_system rq = VStr system_prompt
  /\ rq_extra_headers rq = [].

(** [m] adds to the trace only, and what it adds holds at most [k] requests
    to the Claude provider, each of which satisfies [P]. *)
Definition adds_requests {A} (P : request -> Prop) (k : nat) (m : M A) : Prop :=
  forall s, exists new,
    trace (m s).1 = trace s ++ new
    /\ length (requests new) <= k
    /\ Forall P (requests new).
(** [m] keeps [I], also when it raises, and raises only exceptions that
    satisfy [P], from a state in which [I] holds. *)
Definition guarded {A} (I : state -> Prop) (P : exn -> Prop) (m : M A) : Prop :=
  forall s, I s -> I (m s).1 /\ forall e, (m s).2 = Raise e -> P e.

(** The exceptions of the refinement loop: [messages] is not a list, a
    final message has no content block, or the stream broke; and, with a
    callback that may raise, what the callback raised. *)
Definition loop_error (e : exn) : Prop :=
  e = TypeError \/ e = IndexError \/ e = TransportError.

Definition sink_error (callback : state -> string -> result unit) (e : exn)
    : Prop :=
  loop_error e \/ exists s text, callback s text = Raise e.

(** A callback that fails at every call. *)
Definition closed_sink (s : state) (text : string) : result unit :=
  Raise (Exception "sink closed").

(** A string without its first [n] characters. *)
Fixpoint string_drop (n : nat) (s : string) : string :=
  match n, s with
  | 0, _ => s
  | S n', String _ s' => string_drop n' s'
  | S _, "" => ""
  end.
(** A content part that is a dict with a [type] other than [image_url], and
    a message that is a dict with a [content] that is not a list or is a
    list of such parts: a message without images. *)
Definition plain_part (st : list obj) (p : val) : Prop :=
  exists e t,
    dict_at st p = Some e /\ e !! "type" = Some t /\ t <> VStr "image_url".

Definition plain_message (st : list obj) (m : val) : Prop :=
  exists e c,
    dict_at st m = Some e
    /\ e !! "content" = Some c
    /\ match list_at st c with
       | Some parts => Forall (plain_part st) parts
       | None => True
       end.
(** ** Further example inputs *)

(** A provider whose stream breaks after one text, and one whose final
    message has no content block. *)
Definition breaking_provider (s : state) (rq : request) : outcome :=
  Failed ["<p>Hel"].

Definition empty_content_provider (s : state) (rq : request) : outcome :=
  Completed ["text"] {| content := []; input_tokens := 10; output_tokens := 0 |}.

(** A conversation without images: a system message and a user message
    with one text part; the caller holds it at location 0. *)
Definition text_store : list obj :=
  [ OList [VRef 1; VRef 2];
    ODict {[ "role" := VStr "system"; "content" := VStr "You write HTML." ]};
    ODict {[ "role" := VStr "user"; "content" := VRef 3 ]};
    OList [VRef 4];
    ODict {[ "type" := VStr "text"; "text" := VStr "Make a button" ]} ].

Definition text_state : state := State text_store [].

(** Following the spec: an [image_url]-shaped field in what a value
    reaches, that is a dict with an [image_url] entry or of the type
    [image_url]; [fuel] bounds the depth of the search. *)
Fixpoint has_image_url (fuel : nat) (st : list obj) (v : val) : bool :=
  match v, fuel with
  | VRef l, S fuel' =>
      match st !! l with
      | Some (OList items) => existsb (has_image_url fuel' st) items
      | Some (ODict entries) =>
          bool_decide (is_Some (entries !! "image_url"))
          || bool_decide (entries !! "type" = Some (VStr "image_url"))
          || existsb (has_image_url fuel' st) (map_to_list entries).*2
      | None => false
      end
  | _, _ => false
  end.

(** A conversation whose first message has an image part for its content,
    followed by a user message with a text part that carries an
    [image_url] entry; the caller holds it at location 0. *)
Definition system_image_store : list obj :=
  [ OList [VRef 1; VRef 2];
    ODict {[ "role" := VStr "system"; "content" := VRef 3 ]};
    ODict {[ "role" := VStr "user"; "content" := VRef 6 ]};
    OList [VRef 4];
    ODict {[ "type" := VStr "image_url"; "image_url" := VRef 5 ]};
    ODict {[ "url" := VStr "data:image/png;base64,AAAA" ]};
    OList [VRef 7];
    ODict {[ "type" := VStr "text"; "text" := VStr "Make a button";
             "image_url" := VRef 5 ]} ].

Definition system_image_state : state := State system_image_store [].

(** * Properties *)

(** ** Running a computation *)

Lemma bind_run {A B} (m : M A) (k : A -> M B) (s : state) :
  bind m k s =
    match m s with
    | (s', Ok a) => k a s'
    | (s', Raise e) => (s', Raise e)
    end.
Proof. reflexivity. Qed.

Lemma bind_ok_inv {A B} (m : M A) (k : A -> M B) (s s' : state) (b : B) :
  bind m k s = (s', Ok b) ->
  exists a s1, m s = (s1, Ok a) /\ k a s1 = (s', Ok b).
Proof.
  rewrite bind_run. destruct (m s) as [s1 [a|e]]; [eauto | discriminate].
Qed.

Lemma new_dict_run (entries : gmap string val) (s : state) :
  Py.new_dict entries s =
    (State (store s ++ [ODict entries]) (trace s), Ok (VRef (length (store s)))).
Proof. reflexivity. Qed.

Lemma new_list_run (items : list val) (s : state) :
  Py.new_list items s =
    (State (store s ++ [OList items]) (trace s), Ok (VRef (length (store s)))).
Proof. reflexivity. Qed.

Lemma load_run (l : loc) (o : obj) (s : state) :
  store s !! l = Some o -> Py.load l s = (s, Ok o).
Proof. intros H. unfold Py.load. by rewrite H. Qed.

Lemma as_list_run (l : loc) (items : list val) (s : state) :
  store s !! l = Some (OList items) ->
  Py.as_list (VRef l) s = (s, Ok (l, items)).
Proof.
  intros H. unfold Py.as_list, Py.deref.
  rewrite !bind_run, (load_run _ _ _ H). reflexivity.
Qed.

Lemma list_add_run (l : loc) (items ys : list val) (s : state) :
  store s !! l = Some (OList items) ->
  Py.list_add (VRef l) ys s =
    (State (store s ++ [OList (items ++ ys)]) (trace s),
     Ok (VRef (length (store s)))).
Proof.
  intros H. unfold Py.list_add. rewrite bind_run, (as_list_run _ _ _ H).
  reflexivity.
Qed.

Lemma list_iadd_run (l : loc) (items ys : list val) (s : state) :
  store s !! l = Some (OList items) ->
  Py.list_iadd (VRef l) ys s =
    (State (<[l := OList (items ++ ys)]> (store s)) (trace s), Ok tt).
Proof.
  intros H. unfold Py.list_iadd. rewrite bind_run, (as_list_run _ _ _ H).
  reflexivity.
Qed.

Lemma string_app_cons (ch : Ascii.ascii) (a b : string) :
  String ch a +:+ b = String ch (a +:+ b).
Proof. reflexivity. Qed.

Lemma string_app_assoc (a b c : string) :
  (a +:+ b) +:+ c = a +:+ (b +:+ c).
Proof.
  induction a as [|ch a IH]; [reflexivity|].
  rewrite !string_app_cons. by f_equal.
Qed.

Lemma string_app_nil_r (a : string) : a +:+ "" = a.
Proof.
  induction a as [|ch a IH]; [reflexivity|].
  rewrite string_app_cons. by f_equal.
Qed.

Lemma callbacks_app (t1 t2 : list event) :
  callbacks (t1 ++ t2) = callbacks t1 ++ callbacks t2.
Proof. apply omap_app. Qed.

Lemma requests_app (t1 t2 : list event) :
  requests (t1 ++ t2) = requests t1 ++ requests t2.
Proof. apply omap_app. Qed.

Lemma final_messages_app (t1 t2 : list event) :
  final_messages (t1 ++ t2) = final_messages t1 ++ final_messages t2.
Proof. apply omap_app. Qed.

Lemma callbacks_of_callbacks (texts : list string) :
  callbacks (ECallback <$> texts) = texts.
Proof. induction texts as [|t ts IH]; simpl; [reflexivity | f_equal; exact IH]. Qed.

Lemma requests_of_callbacks (texts : list string) :
  requests (ECallback <$> texts) = [].
Proof. induction texts as [|t ts IH]; simpl; [reflexivity | exact IH]. Qed.

Lemma final_messages_of_callbacks (texts : list string) :
  final_messages (ECallback <$> texts) = [].
Proof. induction texts as [|t ts IH]; simpl; [reflexivity | exact IH]. Qed.

(** ** The model registry *)

Section registry_facts.
Import Registry.

Lemma value_inj (m1 m2 : Llm) : value m1 = value m2 -> m1 = m2.
Proof. destruct m1, m2; simpl; intros H; try reflexivity; discriminate H. Qed.

Lemma Llm_call_value (m : Llm) : Llm_call (value m) = Ok m.
Proof. destruct m; reflexivity. Qed.

Lemma Llm_call_ok (s : string) (m : Llm) : Llm_call s = Ok m -> value m = s.
Proof.
  unfold Llm_call. destruct (find _ members) as [m'|] eqn:E; [|discriminate].
  intros [= <-]. apply find_some in E as [_ E].
  by apply String.eqb_eq in E.
Qed.

Lemma Llm_call_cases (s : string) :
  (exists m, Llm_call s = Ok m) \/ Llm_call s = Raise ValueError.
Proof. unfold Llm_call. destruct (find _ members); eauto. Qed.

Lemma elem_of_aliases (s : string) (m : Llm) :
  (s, m) ∈ aliases <->
  (s = "gpt_4_vision" /\ m = GPT_4_VISION)
  \/ (s = "claude_3_sonnet" /\ m = CLAUDE_3_SONNET).
Proof.
  unfold aliases. rewrite !elem_of_cons, elem_of_nil.
  split.
  - intros [[= -> ->]|[[= -> ->]|[]]]; auto.
  - intros [[-> ->]|[-> ->]]; auto.
Qed.

Lemma convert_ok_iff (s : string) (m : Llm) :
  convert_frontend_str_to_llm s = Ok m <-> value m = s \/ (s, m) ∈ aliases.
Proof.
  rewrite elem_of_aliases. unfold convert_frontend_str_to_llm.
  destruct (String.eqb_spec s "gpt_4_vision") as [->|Hv].
  { split.
    - intros [= <-]. auto.
    - intros [H|[[_ ->]|[[=] _]]]; [|reflexivity]. by destruct m. }
  destruct (String.eqb_spec s "claude_3_sonnet") as [->|Hs].
  { split.
    - intros [= <-]. auto.
    - intros [H|[[[=] _]|[_ ->]]]; [|reflexivity]. by destruct m. }
  split.
  - intros H. left. by apply Llm_call_ok.
  - intros [<-|[[-> _]|[-> _]]]; [apply Llm_call_value | done | done].
Qed.

Lemma convert_cases (s : string) :
  (exists m, convert_frontend_str_to_llm s = Ok m)
  \/ convert_frontend_str_to_llm s = Raise ValueError.
Proof.
  unfold convert_frontend_str_to_llm.
  destruct (String.eqb s "gpt_4_vision"); [eauto|].
  destruct (String.eqb s "claude_3_sonnet"); [eauto|].
  apply Llm_call_cases.
Qed.

(** C5.  For every string, [convert_frontend_str_to_llm] returns the model
    whose canonical identifier is the string, or the model a legacy short
    name stands for, and raises [ValueError] (the unknown-model error) for
    every other string.  Canonical identifiers name one model each, each
    short name stands for one model, and no short name is also a canonical
    identifier, so the model returned is determined by the string.  The
    function is pure: it neither reads nor changes the store or the trace,
    and reaches no provider. *)
Theorem convert_frontend_str_to_llm_resolves (s : string) :
  (forall m, convert_frontend_str_to_llm s = Ok m
             <-> value m = s \/ (s, m) ∈ aliases)
  /\ (convert_frontend_str_to_llm s = Raise ValueError
      <-> ~ exists m, value m = s \/ (s, m) ∈ aliases)
  /\ (forall m1 m2, value m1 = value m2 -> m1 = m2)
  /\ (forall a m1 m2, (a, m1) ∈ aliases -> (a, m2) ∈ aliases -> m1 = m2)
  /\ (forall a m m', (a, m) ∈ aliases -> value m' <> a).
Proof.
  split; [apply convert_ok_iff|].
  split.
  { split.
    - intros H [m Hm]. apply convert_ok_iff in Hm. congruence.
    - intros H. destruct (convert_cases s) as [[m Hm]|Hr]; [|done].
      exfalso. apply H. exists m. by apply convert_ok_iff. }
  split; [apply value_inj|].
  split.
  - intros a m1 m2. rewrite !elem_of_aliases.
    intros [[-> ->]|[-> ->]] [[? ->]|[? ->]]; done.
  - intros a m m'. rewrite elem_of_aliases.
    intros [[-> _]|[-> _]]; by destruct m'.
Qed.

End registry_facts.

(** ** The OpenAI-compatible strategy *)

Section openai_facts.
Import Registry OpenAI.

Variable create :
  state -> string -> option string -> gmap string param -> chunk_stream.

Lemma chunk_body_run (acc : string) (chunk : ChatCompletionChunk) (s : state) :
  chunk_body acc chunk s =
    match spec_delta_text chunk with
    | Some text =>
        (State (store s) (trace s ++ [ECallback text]), Ok (acc +:+ text))
    | None => (s, Ok acc)
    end.
Proof.
  unfold chunk_body, spec_delta_text.
  destruct (choices chunk) as [|c0 ?]; [done|].
  destruct (delta c0) as [d|]; [|done].
  destruct (delta_content d) as [[|ch t]|]; done.
Qed.

Lemma fold_chunk_body (cs : list ChatCompletionChunk) (acc : string) (s : state) :
  fold_each chunk_body cs acc s =
    (State (store s) (trace s ++ (ECallback <$> omap spec_delta_text cs)),
     Ok (acc +:+ concat_texts (omap spec_delta_text cs))).
Proof.
  revert acc s. induction cs as [|chunk cs IH]; intros acc s.
  - simpl. rewrite app_nil_r, string_app_nil_r. by destruct s.
  - cbn [fold_each omap list_omap]. rewrite bind_run, chunk_body_run.
    destruct (spec_delta_text chunk) as [text|]; rewrite IH; [|done].
    cbn. rewrite <- app_assoc. cbn.
    by rewrite string_app_assoc.
Qed.

(** The whole call in closed form. *)
Lemma stream_openai_response_run (messages : val) (api_key : string)
    (base_url : option string) (model : Llm) (s : state) :
  let params := build_params messages model in
  let stream := create s api_key base_url params in
  let fragments := omap spec_delta_text (chunks stream) in
  stream_openai_response create messages api_key base_url model s =
    (State (store s)
       (trace s ++ [EOpenAICreate api_key base_url params]
          ++ (ECallback <$> fragments)
          ++ (if ends_ok stream then [EClose] else [])),
     if ends_ok stream then Ok (concat_texts fragments)
     else Raise TransportError).
Proof.
  intros params stream fragments.
  unfold stream_openai_response. fold params.
  cbn [bind get_state emit store trace]. fold stream.
  rewrite bind_run, fold_chunk_body. cbn [store trace]. fold fragments.
  destruct (ends_ok stream); cbn.
  - by rewrite <- !app_assoc.
  - by rewrite <- !app_assoc, app_nil_r.
Qed.

(** C8.  For every sequence of incoming chunks, the callback receives
    exactly the non-empty delta texts of the chunks, one call per such
    chunk and in arrival order; when the stream ends normally the string
    returned is the concatenation of those texts in that order.  A chunk
    without a non-empty delta text adds nothing to either. *)
Theorem stream_openai_response_delivers (messages : val) (api_key : string)
    (base_url : option string) (model : Llm) (s : state) :
  let stream := create s api_key base_url (build_params messages model) in
  let fragments := omap spec_delta_text (chunks stream) in
  let run := stream_openai_response create messages api_key base_url model s in
  callbacks (trace run.1) = callbacks (trace s) ++ fragments
  /\ run.2 = (if ends_ok stream then Ok (concat_texts fragments)
              else Raise TransportError)
  /\ Forall (fun text => text <> "") fragments
  /\ (forall chunk, chunk ∈ chunks stream -> spec_delta_text chunk = None ->
        forall acc s0, chunk_body acc chunk s0 = (s0, Ok acc)).
Proof.
  intros stream fragments run. subst run.
  rewrite stream_openai_response_run. fold stream. fold fragments.
  cbn [fst snd trace].
  split; [|split; [reflexivity|split]].
  - rewrite !callbacks_app, callbacks_of_callbacks. cbn.
    destruct (ends_ok stream); cbn; by rewrite ?app_nil_r.
  - subst fragments. apply Forall_forall. intros text Hin.
    apply list_elem_of_omap in Hin as (chunk & _ & Hc).
    unfold spec_delta_text in Hc.
    destruct (choices chunk) as [|c0 ?]; [done|].
    destruct (delta c0) as [d|]; [|done].
    destruct (delta_content d) as [t|]; [|done].
    case_bool_decide; [done|]. by injection Hc as <-.
  - intros chunk _ Hnone acc s0. unfold chunk_body, spec_delta_text in *.
    destruct (choices chunk) as [|c0 ?]; [done|].
    destruct (delta c0) as [d|]; [|done].
    destruct (delta_content d) as [[|ch t]|]; done.
Qed.

(** C9.  The keyword dictionary sent to the provider carries [max_tokens]
    4096 exactly for GPT-4 Vision, GPT-4 Turbo 2024-04-09 and GPT-4o
    2024-05-13, 16384 exactly for GPT-4o 2024-11-20, and no [max_tokens]
    for any other model; [temperature] is 0.0 and [timeout] is 600 for
    every model. *)
Theorem stream_openai_response_params (messages : val) (api_key : string)
    (base_url : option string) (model : Llm) (s : state) :
  let params := build_params messages model in
  let run := stream_openai_response create messages api_key base_url model s in
  trace run.1 !! length (trace s) = Some (EOpenAICreate api_key base_url params)
  /\ (params !! "max_tokens" = Some (PInt 4096)
      <-> model = GPT_4_VISION \/ model = GPT_4_TURBO_2024_04_09
          \/ model = GPT_4O_2024_05_13)
  /\ (params !! "max_tokens" = Some (PInt 16384) <-> model = GPT_4O_2024_11_20)
  /\ (params !! "max_tokens" = None
      <-> model <> GPT_4_VISION /\ model <> GPT_4_TURBO_2024_04_09
          /\ model <> GPT_4O_2024_05_13 /\ model <> GPT_4O_2024_11_20)
  /\ params !! "temperature" = Some (PFloat 0)
  /\ params !! "timeout" = Some (PInt 600).
Proof.
  intros params run. subst run.
  split.
  { rewrite stream_openai_response_run. cbn [fst trace].
    rewrite lookup_app_r by lia. by rewrite Nat.sub_diag. }
  subst params.
  destruct model; vm_compute; intuition congruence.
Qed.

End openai_facts.

(** ** Which exceptions a computation can raise *)

Lemma raises_only_ret {A} (P : exn -> Prop) (a : A) : raises_only P (ret a).
Proof. intros s s' e H. discriminate H. Qed.

Lemma raises_only_raise {A} (P : exn -> Prop) (e : exn) :
  P e -> raises_only P (@raise A e).
Proof. intros He s s' e' H. by injection H as _ <-. Qed.

Lemma raises_only_bind {A B} (P : exn -> Prop) (m : M A) (k : A -> M B) :
  raises_only P m -> (forall a, raises_only P (k a)) ->
  raises_only P (bind m k).
Proof.
  intros Hm Hk s s' e. rewrite bind_run.
  destruct (m s) as [s1 [a|e1]] eqn:Em.
  - apply Hk.
  - intros [= <- <-]. by eapply Hm.
Qed.

Lemma raises_only_fold_each {A B} (P : exn -> Prop) (f : B -> A -> M B)
    (xs : list A) (acc : B) :
  (forall b a, raises_only P (f b a)) -> raises_only P (fold_each f xs acc).
Proof.
  intros Hf. revert acc. induction xs as [|x xs IH]; intros acc; cbn.
  - apply raises_only_ret.
  - apply raises_only_bind; [apply Hf | intros b; apply IH].
Qed.

Lemma raises_only_emit (P : exn -> Prop) (e : event) : raises_only P (emit e).
Proof. intros s s' e' H. discriminate H. Qed.

Lemma raises_only_get_state (P : exn -> Prop) : raises_only P get_state.
Proof. intros s s' e' H. discriminate H. Qed.

Lemma raises_only_new_dict (P : exn -> Prop) (entries : gmap string val) :
  raises_only P (Py.new_dict entries).
Proof. intros s s' e' H. discriminate H. Qed.

Lemma raises_only_as_list (P : exn -> Prop) (v : val) :
  P TypeError -> P Dangling -> raises_only P (Py.as_list v).
Proof.
  intros HT HD s s' e. unfold Py.as_list, Py.deref.
  destruct v as [| | | |l]; try (intros [= _ <-]; exact HT).
  rewrite !bind_run. unfold Py.load.
  destruct (store s !! l) as [[items|entries]|]; cbn;
    intros [= _ <-]; assumption.
Qed.

Lemma raises_only_list_add (P : exn -> Prop) (v : val) (ys : list val) :
  P TypeError -> P Dangling -> raises_only P (Py.list_add v ys).
Proof.
  intros HT HD. unfold Py.list_add.
  apply raises_only_bind; [by apply raises_only_as_list|].
  intros [l items] s s' e H. discriminate H.
Qed.

Lemma raises_only_list_iadd (P : exn -> Prop) (v : val) (ys : list val) :
  P TypeError -> P Dangling -> raises_only P (Py.list_iadd v ys).
Proof.
  intros HT HD. unfold Py.list_iadd.
  apply raises_only_bind; [by apply raises_only_as_list|].
  intros [l items] s s' e H. discriminate H.
Qed.

Lemma raises_only_first_text (P : exn -> Prop) (m : Message) :
  P IndexError -> raises_only P (Claude.first_text m).
Proof.
  intros HI s s' e. unfold Claude.first_text.
  destruct (content m); intros [= _ <-]; assumption.
Qed.

(** ** The stores around a pass *)

Lemma length_pre_state (b : bool) (items : list val) (s : state) :
  length (store (pass_pre_state b items s))
  = length (store s) + (if b then 2 else 0).
Proof.
  unfold pass_pre_state. destruct b; cbn [store]; rewrite ?length_app; cbn; lia.
Qed.

Lemma lookup_pre_state_old (b : bool) (items : list val) (s : state) (i : nat) :
  i < length (store s) ->
  store (pass_pre_state b items s) !! i = store s !! i.
Proof.
  intros Hi. unfold pass_pre_state. destruct b; cbn [store]; [|done].
  by rewrite lookup_app_l.
Qed.

Lemma trace_pre_state (b : bool) (items : list val) (s : state) :
  trace (pass_pre_state b items s) = trace s.
Proof. unfold pass_pre_state. by destruct b. Qed.

Section post_state_facts.

Variable dbg : bool.
Variable extract : string -> string.
Variable l : loc.
Variable items : list val.
Variable k : nat.
Variable s1 : state.
Variable rq : request.
Variable texts : list string.
Variable final : Message.
Variable text : string.

#[local] Abbreviation post :=
  (pass_post_state dbg extract l items k s1 rq texts final text).

Lemma length_post_state : length (store post) = length (store s1) + 2.
Proof.
  unfold pass_post_state. cbn [store].
  rewrite length_insert, length_app. reflexivity.
Qed.

Lemma lookup_post_state_old (i : nat) :
  i < length (store s1) -> i <> l -> store post !! i = store s1 !! i.
Proof.
  intros Hi Hne. unfold pass_post_state. cbn [store].
  rewrite list_lookup_insert_ne by done. by rewrite lookup_app_l.
Qed.

Lemma lookup_post_state_list :
  l < length (store s1) ->
  store post !! l
  = Some (OList (items ++ [VRef (length (store s1));
                           VRef (S (length (store s1)))])).
Proof.
  intros Hl. unfold pass_post_state. cbn [store].
  apply list_lookup_insert_eq. rewrite length_app. lia.
Qed.

Lemma lookup_post_state_assistant :
  l < length (store s1) ->
  store post !! length (store s1) = Some (ODict (assistant_turn text)).
Proof.
  intros Hl. unfold pass_post_state. cbn [store].
  rewrite list_lookup_insert_ne by lia.
  rewrite lookup_app_r by lia. by rewrite Nat.sub_diag.
Qed.

Lemma lookup_post_state_user :
  l < length (store s1) ->
  store post !! S (length (store s1)) = Some (ODict user_turn).
Proof.
  intros Hl. unfold pass_post_state. cbn [store].
  rewrite list_lookup_insert_ne by lia.
  rewrite lookup_app_r by lia.
  by replace (S (length (store s1)) - length (store s1)) with 1 by lia.
Qed.

Lemma requests_post_state :
  requests (trace post) = requests (trace s1) ++ [rq].
Proof.
  unfold pass_post_state, pass_debug_events. cbn [trace].
  rewrite !requests_app, requests_of_callbacks. cbn.
  destruct dbg; cbn; by rewrite ?app_nil_r.
Qed.

Lemma final_messages_post_state :
  final_messages (trace post) = final_messages (trace s1) ++ [final].
Proof.
  unfold pass_post_state, pass_debug_events. cbn [trace].
  rewrite !final_messages_app, final_messages_of_callbacks. cbn.
  destruct dbg; cbn; by rewrite ?app_nil_r.
Qed.

End post_state_facts.

(** ** The refinement loop *)

Section native_facts.
Import Registry Py Native.

Variable IS_DEBUG_ENABLED : bool.
Variable extract_html_content : string -> string.
Variable messages_stream : state -> request -> outcome.
Variable system_prompt : string.
Variable messages : val.
Variable api_key : string.
Variable include_thinking : bool.
Variable model : Llm.

#[local] Abbreviation pass_body :=
  (pass_body IS_DEBUG_ENABLED extract_html_content messages_stream
     system_prompt messages api_key include_thinking model).
#[local] Abbreviation while_passes :=
  (while_passes IS_DEBUG_ENABLED extract_html_content messages_stream
     system_prompt messages api_key include_thinking model).
#[local] Abbreviation native :=
  (stream_claude_response_native IS_DEBUG_ENABLED extract_html_content
     messages_stream system_prompt messages api_key include_thinking model).
#[local] Abbreviation pre_state := (pass_pre_state include_thinking).
#[local] Abbreviation request_of :=
  (pass_request system_prompt messages api_key include_thinking model).
#[local] Abbreviation post_state :=
  (pass_post_state IS_DEBUG_ENABLED extract_html_content).
#[local] Abbreviation debug_events :=
  (pass_debug_events IS_DEBUG_ENABLED extract_html_content).

Lemma fold_text_body (texts : list string) (acc : string) (s : state) :
  fold_each text_body texts acc s =
    (State (store s) (trace s ++ (ECallback <$> texts)),
     Ok (acc +:+ concat_texts texts)).
Proof.
  revert acc s. induction texts as [|text texts IH]; intros acc s.
  - simpl. rewrite app_nil_r, string_app_nil_r. by destruct s.
  - cbn [fold_each]. rewrite bind_run. cbn. rewrite IH. cbn.
    rewrite <- app_assoc. cbn. by rewrite string_app_assoc.
Qed.

(** What a pass does once the provider has answered [o]. *)
Lemma pass_after_call (vars : loop_vars) (s1 : state) (rq : request) (l : loc)
    (items : list val) (o : outcome) :
  store s1 !! l = Some (OList items) ->
  match o with
  | Completed texts response0 =>
      full_stream0 <- fold_each text_body texts (full_stream vars) ;
      _ <- emit (EFinalMessage response0) ;
      response_text <- Claude.first_text response0 ;
      _ <- (if IS_DEBUG_ENABLED then
              _ <- write_to_file
                     ("pass_" +:+ pretty (current_pass_num vars + 1 - 1) +:+ ".html")
                     (extract_html_content response_text) ;
              write_to_file
                ("thinking_pass_" +:+ pretty (current_pass_num vars + 1 - 1) +:+ ".txt")
                (split_head "</thinking>" response_text)
            else ret tt) ;
      assistant_turn0 <- new_dict {[ "role" := VStr "assistant";
                                     "content" := VStr (prefix +:+ response_text) ]} ;
      user_turn0 <- new_dict {[ "role" := VStr "user";
                                "content" := VStr improve_instruction ]} ;
      _ <- list_iadd (VRef l) [assistant_turn0; user_turn0] ;
      ret {| current_pass_num := current_pass_num vars + 1;
             response := Some response0;
             full_stream := full_stream0 |}
  | Failed texts =>
      _ <- fold_each text_body texts (full_stream vars) ;
      raise TransportError
  end (State (store s1) (trace s1 ++ [EClaudeStream rq])) =
  match o with
  | Completed texts final =>
      let t1 := trace s1 ++ [EClaudeStream rq] ++ (ECallback <$> texts)
                  ++ [EFinalMessage final] in
      match content final with
      | [] => (State (store s1) t1, Raise IndexError)
      | text :: _ =>
          (post_state l items (current_pass_num vars + 1 - 1) s1 rq
             texts final text,
           Ok {| current_pass_num := current_pass_num vars + 1;
                 response := Some final;
                 full_stream := full_stream vars +:+ concat_texts texts |})
      end
  | Failed texts =>
      (State (store s1)
             (trace s1 ++ [EClaudeStream rq] ++ (ECallback <$> texts)),
       Raise TransportError)
  end.
Proof.
  intros Hl.
  assert (Hlt : l < length (store s1)) by (by eapply lookup_lt_Some).
  destruct o as [texts final|texts]; rewrite bind_run, fold_text_body;
    cbn [store trace]; rewrite <- !app_assoc; [|reflexivity].
  cbn [bind emit store trace]. unfold Claude.first_text.
  destruct (content final) as [|text rest]; cbn [bind raise ret].
  { by rewrite <- !app_assoc. }
  rewrite bind_run.
  assert (Hdebug : forall s0 : state,
    (if IS_DEBUG_ENABLED then
       _ <- write_to_file
              ("pass_" +:+ pretty (current_pass_num vars + 1 - 1) +:+ ".html")
              (extract_html_content text) ;
       write_to_file
         ("thinking_pass_" +:+ pretty (current_pass_num vars + 1 - 1) +:+ ".txt")
         (split_head "</thinking>" text)
     else ret tt) s0 =
    (State (store s0)
       (trace s0 ++ debug_events (current_pass_num vars + 1 - 1) text), Ok tt)).
  { intros s0. unfold pass_debug_events.
    destruct IS_DEBUG_ENABLED; cbn.
    - unfold write_to_file, emit. cbn [store trace]. by rewrite <- app_assoc.
    - rewrite app_nil_r. by destruct s0. }
  rewrite Hdebug. cbn [store trace].
  rewrite bind_run, new_dict_run. cbn [store trace].
  rewrite bind_run, new_dict_run. cbn [store trace].
  rewrite bind_run.
  erewrite list_iadd_run
    by (cbn [store]; rewrite !lookup_app_l by (rewrite ?length_app; lia);
        exact Hl).
  cbn [store trace]. unfold ret, pass_post_state.
  rewrite length_app. cbn [length].
  rewrite (Nat.add_1_r (length (store s1))).
  rewrite <- !app_assoc. reflexivity.
Qed.

(** One pass in closed form, when the caller's [messages] is a list. *)
Lemma pass_body_run (vars : loop_vars) (s : state) (l : loc) (items : list val) :
  messages = VRef l ->
  store s !! l = Some (OList items) ->
  let s1 := pre_state items s in
  let rq := request_of items s in
  pass_body vars s =
    match messages_stream s1 rq with
    | Completed texts final =>
        let t1 := trace s1 ++ [EClaudeStream rq] ++ (ECallback <$> texts)
                    ++ [EFinalMessage final] in
        match content final with
        | [] => (State (store s1) t1, Raise IndexError)
        | text :: _ =>
            (post_state l items (current_pass_num vars + 1 - 1) s1 rq
               texts final text,
             Ok {| current_pass_num := current_pass_num vars + 1;
                   response := Some final;
                   full_stream := full_stream vars +:+ concat_texts texts |})
        end
    | Failed texts =>
        (State (store s1)
               (trace s1 ++ [EClaudeStream rq] ++ (ECallback <$> texts)),
         Raise TransportError)
    end.
Proof.
  intros Hm Hl s1 rq.
  assert (Hlt : l < length (store s)) by (by eapply lookup_lt_Some).
  assert (Hl1 : store s1 !! l = Some (OList items)).
  { subst s1. unfold pass_pre_state. destruct include_thinking; [|done].
    cbn [store]. by rewrite lookup_app_l. }
  rewrite <- (pass_after_call vars s1 rq l items _ Hl1).
  subst messages s1 rq.
  unfold Native.pass_body, pass_request, pass_pre_state, pass_messages_to_send.
  rewrite bind_run.
  destruct include_thinking.
  - rewrite bind_run, new_dict_run.
    erewrite list_add_run
      by (cbn [store]; rewrite lookup_app_l by done; exact Hl).
    cbn [store trace]. rewrite length_app. cbn [length].
    rewrite (Nat.add_1_r (length (store s))), <- app_assoc. cbn [app].
    cbn [bind get_state emit store trace]. reflexivity.
  - cbn [ret bind get_state emit store trace]. reflexivity.
Qed.

(** A pass that returns has counted itself and has a response. *)
Lemma pass_body_ok (vars vars' : loop_vars) (s s' : state) :
  pass_body vars s = (s', Ok vars') ->
  current_pass_num vars' = current_pass_num vars + 1
  /\ exists final, response vars' = Some final.
Proof.
  unfold Native.pass_body. intros H.
  apply bind_ok_inv in H as (mts & sa & _ & H).
  apply bind_ok_inv in H as (s0 & sb & _ & H).
  apply bind_ok_inv in H as (? & sc & _ & H).
  destruct (messages_stream s0 _) as [texts final|texts].
  - do 7 (apply bind_ok_inv in H as (? & ? & _ & H)).
    injection H as _ <-. cbn. eauto.
  - apply bind_ok_inv in H as (? & ? & _ & H). discriminate H.
Qed.

(** The loop runs the body twice. *)
Lemma while_passes_run (vars : loop_vars) (s : state) :
  current_pass_num vars = 1 ->
  while_passes max_passes vars s =
    match pass_body vars s with
    | (s1, Ok vars1) => pass_body vars1 s1
    | (s1, Raise e) => (s1, Raise e)
    end.
Proof.
  intros H1. unfold max_passes at 1. cbn [Native.while_passes]. rewrite H1.
  unfold max_passes. cbn [Nat.leb]. rewrite bind_run.
  destruct (pass_body vars s) as [s1 [vars1|e]] eqn:E1; [|done].
  apply pass_body_ok in E1 as [Hn1 _]. rewrite Hn1, H1. cbn [Nat.add Nat.leb].
  rewrite bind_run.
  destruct (pass_body vars1 s1) as [s2 [vars2|e]] eqn:E2; [|done].
  apply pass_body_ok in E2 as [Hn2 _]. rewrite Hn2, Hn1, H1. reflexivity.
Qed.

#[local] Abbreviation st1 := (call1_state include_thinking).
#[local] Abbreviation rq1 :=
  (call1_request system_prompt messages api_key include_thinking model).
#[local] Abbreviation turns1 := (pass1_turns include_thinking).
#[local] Abbreviation after1 :=
  (pass1_state IS_DEBUG_ENABLED extract_html_content system_prompt messages
     api_key include_thinking model).
#[local] Abbreviation st2 :=
  (call2_state IS_DEBUG_ENABLED extract_html_content system_prompt messages
     api_key include_thinking model).
#[local] Abbreviation rq2 :=
  (call2_request IS_DEBUG_ENABLED extract_html_content system_prompt messages
     api_key include_thinking model).
#[local] Abbreviation turns2 :=
  (pass2_turns IS_DEBUG_ENABLED extract_html_content system_prompt messages
     api_key include_thinking model).
#[local] Abbreviation final_st :=
  (final_state IS_DEBUG_ENABLED extract_html_content system_prompt messages
     api_key include_thinking model).

(** Every run on a list of messages, by the provider's answers. *)
Lemma native_outcomes (l : loc) (items : list val) (s : state) :
  messages = VRef l ->
  store s !! l = Some (OList items) ->
  match messages_stream (st1 items s) (rq1 items s) with
  | Failed texts1 =>
      native s =
        (State (store (st1 items s))
           (trace (st1 items s) ++ [EClaudeStream (rq1 items s)]
              ++ (ECallback <$> texts1)),
         Raise TransportError)
  | Completed texts1 final1 =>
      match content final1 with
      | [] =>
          native s =
            (State (store (st1 items s))
               (trace (st1 items s) ++ [EClaudeStream (rq1 items s)]
                  ++ (ECallback <$> texts1) ++ [EFinalMessage final1]),
             Raise IndexError)
      | text1 :: _ =>
          let c2 := st2 l items s texts1 final1 text1 in
          let r2 := rq2 l items s texts1 final1 text1 in
          match messages_stream c2 r2 with
          | Failed texts2 =>
              native s =
                (State (store c2)
                   (trace c2 ++ [EClaudeStream r2] ++ (ECallback <$> texts2)),
                 Raise TransportError)
          | Completed texts2 final2 =>
              match content final2 with
              | [] =>
                  native s =
                    (State (store c2)
                       (trace c2 ++ [EClaudeStream r2]
                          ++ (ECallback <$> texts2) ++ [EFinalMessage final2]),
                     Raise IndexError)
              | text2 :: _ =>
                  native s =
                    (final_st l items s texts1 final1 text1
                       texts2 final2 text2,
                     Ok text2)
              end
          end
      end
  end.
Proof.
  intros Hm Hl.
  assert (Hlt : l < length (store s)) by (by eapply lookup_lt_Some).
  assert (Hrun :
    native s =
      match pass_body
              {| current_pass_num := 1; response := None; full_stream := "" |} s
      with
      | (s1, Ok vars1) =>
          match pass_body vars1 s1 with
          | (s2, Ok vars2) =>
              (_ <- emit EClose ;
               _ <- (if IS_DEBUG_ENABLED
                     then write_to_file "full_stream.txt" (full_stream vars2)
                     else ret tt) ;
               match response vars2 with
               | None => raise no_response_error
               | Some response => Claude.first_text response
               end) s2
          | (s2, Raise e) => (s2, Raise e)
          end
      | (s1, Raise e) => (s1, Raise e)
      end).
  { unfold Native.stream_claude_response_native.
    rewrite bind_run, while_passes_run by reflexivity.
    destruct (pass_body _ s) as [s1 [vars1|e]]; [|done].
    by destruct (pass_body vars1 s1) as [s2 [vars2|e]]. }
  rewrite Hrun. clear Hrun.
  rewrite (pass_body_run _ s l items Hm Hl).
  unfold call1_state, call1_request.
  destruct (messages_stream _ _) as [texts1 final1|texts1]; [|reflexivity].
  destruct (content final1) as [|text1 rest1] eqn:Hc1; [reflexivity|].
  cbn [current_pass_num Nat.add Nat.sub].
  change (post_state l items 1 (pre_state items s) (request_of items s)
            texts1 final1 text1)
    with (after1 l items s texts1 final1 text1).
  set (s2 := after1 _ _ _ _ _ _) in *.
  assert (Hl2 : store s2 !! l = Some (OList (items ++ turns1 items s))).
  { subst s2. unfold pass1_state. apply lookup_post_state_list.
    unfold call1_state. rewrite length_pre_state. lia. }
  rewrite (pass_body_run _ s2 l _ Hm Hl2).
  unfold call2_state, call2_request. fold s2. cbn zeta.
  destruct (messages_stream _ _) as [texts2 final2|texts2]; [|reflexivity].
  destruct (content final2) as [|text2 rest2] eqn:Hc2; [reflexivity|].
  cbn [current_pass_num Nat.add Nat.sub full_stream response].
  unfold final_state, pass2_state, call2_state, call2_request. fold s2.
  set (s4 := post_state _ _ _ _ _ _ _ _).
  unfold closing_events.
  destruct IS_DEBUG_ENABLED; unfold write_to_file, emit, ret, Claude.first_text;
    cbn [bind store trace]; rewrite Hc2; cbn [store trace];
    rewrite <- ?app_assoc; reflexivity.
Qed.

(** The conversation pass 2 sends: the caller's original items, the two
    turns appended by pass 1, and the seeded prefix turn when thinking is
    included. *)
Lemma call2_conversation (l : loc) (items : list val) (s : state)
    (texts1 : list string) (final1 : Message) (text1 : string) :
  messages = VRef l ->
  store s !! l = Some (OList items) ->
  sent_conversation (rq2 l items s texts1 final1 text1)
  = Some (items ++ turns1 items s
            ++ (if include_thinking
                then [VRef (length (store (after1 l items s texts1 final1 text1)))]
                else [])).
Proof.
  intros Hm Hl.
  assert (Hlt : l < length (store s)) by (by eapply lookup_lt_Some).
  unfold sent_conversation, call2_request, pass_request.
  cbn [rq_messages rq_store]. unfold pass_messages_to_send, pass_pre_state.
  destruct include_thinking eqn:Hthink; cbn [store].
  - rewrite lookup_app_r by lia.
    rewrite Nat.sub_succ_l, Nat.sub_diag by lia.
    cbn. by rewrite <- app_assoc.
  - subst messages. unfold pass1_state.
    rewrite lookup_post_state_list
      by (unfold call1_state; rewrite length_pre_state; lia).
    by rewrite app_nil_r.
Qed.

(** In the store pass 2 sends, the first of those two turns is the
    assistant turn holding the prefix followed by the text of pass 1, and
    the second is the fixed instruction. *)
Lemma call2_turns (l : loc) (items : list val) (s : state)
    (texts1 : list string) (final1 : Message) (text1 : string) :
  store s !! l = Some (OList items) ->
  dict_at (rq_store (rq2 l items s texts1 final1 text1))
    (VRef (length (store (st1 items s))))
  = Some (assistant_turn text1)
  /\ dict_at (rq_store (rq2 l items s texts1 final1 text1))
       (VRef (S (length (store (st1 items s)))))
     = Some user_turn.
Proof.
  intros Hl.
  assert (Hlt : l < length (store s)) by (by eapply lookup_lt_Some).
  assert (Hl1 : l < length (store (st1 items s)))
    by (unfold call1_state; rewrite length_pre_state; lia).
  unfold call2_request, pass_request. cbn [rq_store].
  unfold dict_at.
  rewrite !lookup_pre_state_old
    by (unfold pass1_state; rewrite length_post_state; lia).
  unfold pass1_state.
  by rewrite lookup_post_state_assistant, lookup_post_state_user.
Qed.

(** A run in which both passes complete. *)
Lemma native_completed (l : loc) (items : list val) (s : state)
    (texts1 : list string) (final1 : Message) (text1 : string)
    (rest1 : list string) (texts2 : list string) (final2 : Message)
    (text2 : string) (rest2 : list string) :
  messages = VRef l ->
  store s !! l = Some (OList items) ->
  messages_stream (st1 items s) (rq1 items s) = Completed texts1 final1 ->
  content final1 = text1 :: rest1 ->
  messages_stream (st2 l items s texts1 final1 text1)
    (rq2 l items s texts1 final1 text1) = Completed texts2 final2 ->
  content final2 = text2 :: rest2 ->
  native s
  = (final_st l items s texts1 final1 text1 texts2 final2 text2, Ok text2).
Proof.
  intros Hm Hl H1 Hc1 H2 Hc2.
  pose proof (native_outcomes l items s Hm Hl) as Hrun.
  rewrite H1, Hc1 in Hrun. cbn zeta in Hrun. by rewrite H2, Hc2 in Hrun.
Qed.

Lemma requests_final_state (l : loc) (items : list val) (s : state)
    (texts1 : list string) (final1 : Message) (text1 : string)
    (texts2 : list string) (final2 : Message) (text2 : string) :
  requests (trace (final_st l items s texts1 final1 text1 texts2 final2 text2))
  = requests (trace s) ++ [rq1 items s; rq2 l items s texts1 final1 text1].
Proof.
  unfold final_state, pass2_state, closing_events. cbn [trace].
  rewrite requests_app, requests_post_state.
  unfold call2_state. rewrite trace_pre_state. unfold pass1_state.
  rewrite requests_post_state. unfold call1_state.
  rewrite trace_pre_state.
  destruct IS_DEBUG_ENABLED; cbn; by rewrite app_nil_r, <- app_assoc.
Qed.

Lemma final_messages_final_state (l : loc) (items : list val) (s : state)
    (texts1 : list string) (final1 : Message) (text1 : string)
    (texts2 : list string) (final2 : Message) (text2 : string) :
  final_messages
    (trace (final_st l items s texts1 final1 text1 texts2 final2 text2))
  = final_messages (trace s) ++ [final1; final2].
Proof.
  unfold final_state, pass2_state, closing_events. cbn [trace].
  rewrite final_messages_app, final_messages_post_state.
  unfold call2_state. rewrite trace_pre_state. unfold pass1_state.
  rewrite final_messages_post_state. unfold call1_state.
  rewrite trace_pre_state.
  destruct IS_DEBUG_ENABLED; cbn; by rewrite app_nil_r, <- app_assoc.
Qed.

(** C3.  On every input on which both passes complete, the loop makes
    exactly two requests to the provider and returns the text of the final
    message of pass 2; the text of pass 1 is not returned, it is kept as an
    assistant turn of the conversation that pass 2 sends.  The number of
    passes is the constant 2. *)
Theorem native_two_invocations (l : loc) (items : list val) (s : state)
    (texts1 : list string) (final1 : Message) (text1 : string)
    (rest1 : list string) (texts2 : list string) (final2 : Message)
    (text2 : string) (rest2 : list string) :
  messages = VRef l ->
  store s !! l = Some (OList items) ->
  messages_stream (st1 items s) (rq1 items s) = Completed texts1 final1 ->
  content final1 = text1 :: rest1 ->
  messages_stream (st2 l items s texts1 final1 text1)
    (rq2 l items s texts1 final1 text1) = Completed texts2 final2 ->
  content final2 = text2 :: rest2 ->
  let run := native s in
  run.2 = Ok text2
  /\ requests (trace run.1)
     = requests (trace s) ++ [rq1 items s; rq2 l items s texts1 final1 text1]
  /\ final_messages (trace run.1) = final_messages (trace s) ++ [final1; final2]
  /\ (exists a rest,
        sent_conversation (rq2 l items s texts1 final1 text1)
        = Some (items ++ a :: rest)
        /\ dict_at (rq_store (rq2 l items s texts1 final1 text1)) a
           = Some (assistant_turn text1))
  /\ max_passes = 2.
Proof.
  intros Hm Hl H1 Hc1 H2 Hc2 run. subst run.
  rewrite (native_completed l items s texts1 final1 text1 rest1
             texts2 final2 text2 rest2 Hm Hl H1 Hc1 H2 Hc2).
  cbn [fst snd].
  split; [reflexivity|]. split; [|split; [|split; [|reflexivity]]].
  - apply requests_final_state.
  - apply final_messages_final_state.
  - destruct (call2_turns l items s texts1 final1 text1 Hl) as [Ha _].
    eexists _, _. split; [|exact Ha].
    rewrite (call2_conversation l items s texts1 final1 text1 Hm Hl).
    unfold pass1_turns. reflexivity.
Qed.

(** C10.  The loop extends the caller's own list: after a call in which both
    passes complete, the list object the caller passed holds its original
    items followed by four new entries, an assistant turn and the fixed
    user instruction for each pass.  The pair appended after pass 2 did not
    exist when either request was made, so no provider receives it. *)
Theorem native_extends_callers_list (l : loc) (items : list val) (s : state)
    (texts1 : list string) (final1 : Message) (text1 : string)
    (rest1 : list string) (texts2 : list string) (final2 : Message)
    (text2 : string) (rest2 : list string) :
  messages = VRef l ->
  store s !! l = Some (OList items) ->
  messages_stream (st1 items s) (rq1 items s) = Completed texts1 final1 ->
  content final1 = text1 :: rest1 ->
  messages_stream (st2 l items s texts1 final1 text1)
    (rq2 l items s texts1 final1 text1) = Completed texts2 final2 ->
  content final2 = text2 :: rest2 ->
  let run := native s in
  let new1 := turns1 items s in
  let new2 := turns2 l items s texts1 final1 text1 in
  store run.1 !! l = Some (OList (items ++ new1 ++ new2))
  /\ dict_at (store run.1) <$> (new1 ++ new2)
     = [Some (assistant_turn text1); Some user_turn;
        Some (assistant_turn text2); Some user_turn]
  /\ requests (trace run.1)
     = requests (trace s) ++ [rq1 items s; rq2 l items s texts1 final1 text1]
  /\ Forall (fun rq => Forall (fun v => dict_at (rq_store rq) v = None) new2)
       [rq1 items s; rq2 l items s texts1 final1 text1].
Proof.
  intros Hm Hl H1 Hc1 H2 Hc2 run new1 new2. subst run new1 new2.
  assert (Hlt : l < length (store s)) by (by eapply lookup_lt_Some).
  rewrite (native_completed l items s texts1 final1 text1 rest1
             texts2 final2 text2 rest2 Hm Hl H1 Hc1 H2 Hc2).
  cbn [fst snd].
  assert (Hn1 : length (store (st1 items s))
                = length (store s) + (if include_thinking then 2 else 0))
    by apply length_pre_state.
  assert (Hm1 : length (store (after1 l items s texts1 final1 text1))
                = length (store (st1 items s)) + 2)
    by apply length_post_state.
  assert (Hn2 : length (store (st2 l items s texts1 final1 text1))
                = length (store (after1 l items s texts1 final1 text1))
                  + (if include_thinking then 2 else 0))
    by apply length_pre_state.
  assert (Hfinal : store (final_st l items s texts1 final1 text1
                            texts2 final2 text2)
                   = store (post_state l (items ++ turns1 items s) 2
                              (st2 l items s texts1 final1 text1)
                              (rq2 l items s texts1 final1 text1)
                              texts2 final2 text2)) by reflexivity.
  rewrite Hfinal.
  split; [|split; [|split]].
  - rewrite lookup_post_state_list by (destruct include_thinking; lia).
    unfold pass2_turns. by rewrite <- app_assoc.
  - unfold pass1_turns, pass2_turns, dict_at. cbn [app fmap list_fmap].
    rewrite !(lookup_post_state_old _ _ _ _ _ _ _ _ _ _
                (length (store (st1 items s))))
      by (destruct include_thinking; lia).
    rewrite !(lookup_post_state_old _ _ _ _ _ _ _ _ _ _
                (S (length (store (st1 items s)))))
      by (destruct include_thinking; lia).
    unfold call2_state at 1 2.
    rewrite !lookup_pre_state_old by lia.
    unfold pass1_state at 1 2.
    rewrite !lookup_post_state_assistant, !lookup_post_state_user
      by (destruct include_thinking; lia).
    reflexivity.
  - apply requests_final_state.
  - unfold pass2_turns, dict_at.
    repeat (apply Forall_cons; split); try done.
    all: unfold call1_request, call2_request, pass_request; cbn [rq_store].
    all: fold (st1 items s); fold (st2 l items s texts1 final1 text1).
    all: rewrite lookup_ge_None_2; [reflexivity|].
    all: destruct include_thinking; lia.
Qed.

(** A pass raises only errors of the store and of the provider. *)
Lemma pass_body_raises (vars : loop_vars) :
  raises_only (fun e => e <> no_response_error) (pass_body vars).
Proof.
  unfold Native.pass_body.
  apply raises_only_bind.
  { destruct include_thinking; [|apply raises_only_ret].
    apply raises_only_bind; [apply raises_only_new_dict|].
    intros turn. by apply raises_only_list_add. }
  intros mts. apply raises_only_bind; [apply raises_only_get_state|].
  intros s0. apply raises_only_bind; [apply raises_only_emit|]. intros _.
  destruct (messages_stream s0 _) as [texts final|texts].
  - apply raises_only_bind.
    { apply raises_only_fold_each. intros b a. unfold text_body.
      apply raises_only_bind; [apply raises_only_emit|].
      intros _. apply raises_only_ret. }
    intros fs. apply raises_only_bind; [apply raises_only_emit|]. intros _.
    apply raises_only_bind; [by apply raises_only_first_text|].
    intros text. apply raises_only_bind.
    { destruct IS_DEBUG_ENABLED; [|apply raises_only_ret].
      apply raises_only_bind; [apply raises_only_emit|].
      intros _. apply raises_only_emit. }
    intros _. apply raises_only_bind; [apply raises_only_new_dict|].
    intros a. apply raises_only_bind; [apply raises_only_new_dict|].
    intros u. apply raises_only_bind; [by apply raises_only_list_iadd|].
    intros _. apply raises_only_ret.
  - apply raises_only_bind.
    { apply raises_only_fold_each. intros b a. unfold text_body.
      apply raises_only_bind; [apply raises_only_emit|].
      intros _. apply raises_only_ret. }
    intros _. by apply raises_only_raise.
Qed.

(** The check after the loop never fires, whatever the input. *)
Lemma native_never_no_response (s : state) :
  (native s).2 <> Raise no_response_error.
Proof.
  unfold Native.stream_claude_response_native.
  rewrite bind_run, while_passes_run by reflexivity.
  destruct (pass_body _ s) as [s1 [vars1|e]] eqn:E1; cbn [snd].
  2:{ intros [= ->]. by eapply pass_body_raises. }
  destruct (pass_body vars1 s1) as [s2 [vars2|e]] eqn:E2; cbn [snd].
  2:{ intros [= ->]. by eapply pass_body_raises. }
  apply pass_body_ok in E2 as [_ [final Hfinal]].
  cbn [bind emit]. rewrite Hfinal.
  destruct IS_DEBUG_ENABLED; unfold write_to_file, emit, ret, Claude.first_text;
    cbn [bind]; by destruct (content final).
Qed.

(** C4, as the code has it.  The loop never fails with the no-response
    error: the check after the loop is reached only when both passes have
    produced a response.  A pass whose stream fails aborts the loop with the
    transport's error, on pass 1 (no response object at all) as on pass 2;
    the loop returns normally exactly when both passes yield a final message
    with a first content block. *)
Theorem native_no_response_unreachable (l : loc) (items : list val) (s : state) :
  messages = VRef l ->
  store s !! l = Some (OList items) ->
  let run := native s in
  run.2 <> Raise no_response_error
  /\ (forall texts1,
        messages_stream (st1 items s) (rq1 items s) = Failed texts1 ->
        run.2 = Raise TransportError
        /\ final_messages (trace run.1) = final_messages (trace s))
  /\ (forall texts1 final1 text1 rest1 texts2,
        messages_stream (st1 items s) (rq1 items s) = Completed texts1 final1 ->
        content final1 = text1 :: rest1 ->
        messages_stream (st2 l items s texts1 final1 text1)
          (rq2 l items s texts1 final1 text1) = Failed texts2 ->
        run.2 = Raise TransportError)
  /\ (is_ok run.2 = true <->
      exists texts1 final1 text1 rest1 texts2 final2 text2 rest2,
        messages_stream (st1 items s) (rq1 items s) = Completed texts1 final1
        /\ content final1 = text1 :: rest1
        /\ messages_stream (st2 l items s texts1 final1 text1)
             (rq2 l items s texts1 final1 text1) = Completed texts2 final2
        /\ content final2 = text2 :: rest2).
Proof.
  intros Hm Hl run. subst run.
  pose proof (native_outcomes l items s Hm Hl) as Hrun.
  split; [apply native_never_no_response|].
  split; [|split].
  - intros texts1 H1. rewrite H1 in Hrun. rewrite Hrun. cbn [fst snd trace].
    split; [reflexivity|].
    unfold call1_state. rewrite trace_pre_state.
    rewrite !final_messages_app, final_messages_of_callbacks. cbn.
    by rewrite app_nil_r.
  - intros texts1 final1 text1 rest1 texts2 H1 Hc1 H2.
    rewrite H1, Hc1 in Hrun. cbn zeta in Hrun. rewrite H2 in Hrun.
    by rewrite Hrun.
  - split.
    + intros Hok.
      destruct (messages_stream (st1 items s) (rq1 items s))
        as [texts1 final1|texts1] eqn:H1;
        [|by rewrite Hrun in Hok].
      destruct (content final1) as [|text1 rest1] eqn:Hc1;
        [by rewrite Hrun in Hok|].
      cbn zeta in Hrun.
      destruct (messages_stream (st2 l items s texts1 final1 text1)
                  (rq2 l items s texts1 final1 text1))
        as [texts2 final2|texts2] eqn:H2;
        [|by rewrite Hrun in Hok].
      destruct (content final2) as [|text2 rest2] eqn:Hc2;
        [by rewrite Hrun in Hok|].
      by exists texts1, final1, text1, rest1, texts2, final2, text2, rest2.
    + intros (texts1 & final1 & text1 & rest1 & texts2 & final2 & text2
              & rest2 & H1 & Hc1 & H2 & Hc2).
      by rewrite (native_completed l items s texts1 final1 text1 rest1
                    texts2 final2 text2 rest2 Hm Hl H1 Hc1 H2 Hc2).
Qed.

End native_facts.

(** ** The refinement loop on the example inputs *)

Lemma native_two_invocations_witness :
  let run :=
    Native.stream_claude_response_native false (fun html => html)
      drafting_provider "You write HTML." (VRef 0) "key" true
      Registry.CLAUDE_3_OPUS example_state in
  run.2 = Ok "final"
  /\ length (requests (trace run.1)) = 2
  /\ final_messages (trace run.1)
     = [text_message "draft"; text_message "final"].
Proof.
  pose proof (native_two_invocations false (fun html => html)
                drafting_provider "You write HTML." (VRef 0) "key" true
                Registry.CLAUDE_3_OPUS 0 [VRef 1] example_state
                ["dr"; "aft"] (text_message "draft") "draft" []
                ["final"] (text_message "final") "final" []) as H.
  cbn zeta in H.
  destruct H as (Hr & Hq & Hf & _); try (vm_compute; reflexivity).
  intros run. subst run. rewrite Hr, Hq, Hf. repeat split.
Defined.

Lemma native_extends_callers_list_witness :
  let run :=
    Native.stream_claude_response_native false (fun html => html)
      drafting_provider "You write HTML." (VRef 0) "key" false
      Registry.CLAUDE_3_OPUS example_state in
  store run.1 !! 0 = Some (OList [VRef 1; VRef 2; VRef 3; VRef 4; VRef 5])
  /\ dict_at (store run.1) <$> [VRef 2; VRef 3; VRef 4; VRef 5]
     = [Some (assistant_turn "draft"); Some user_turn;
        Some (assistant_turn "final"); Some user_turn]
  /\ length (requests (trace run.1)) = 2.
Proof.
  pose proof (native_extends_callers_list false (fun html => html)
                drafting_provider "You write HTML." (VRef 0) "key" false
                Registry.CLAUDE_3_OPUS 0 [VRef 1] example_state
                ["dr"; "aft"] (text_message "draft") "draft" []
                ["final"] (text_message "final") "final" []) as H.
  cbn zeta in H.
  destruct H as (Hl & Hd & Hq & _); try (vm_compute; reflexivity).
  intros run. subst run.
  split; [etrans; [exact Hl | vm_compute; reflexivity]|].
  split; [etrans; [exact Hd | vm_compute; reflexivity]|].
  rewrite Hq. reflexivity.
Defined.

Lemma native_no_response_unreachable_witness :
  let run :=
    Native.stream_claude_response_native false (fun html => html)
      failing_provider "You write HTML." (VRef 0) "key" false
      Registry.CLAUDE_3_OPUS example_state in
  run.2 <> Raise no_response_error
  /\ run.2 = Raise TransportError
  /\ final_messages (trace run.1) = [].
Proof.
  pose proof (native_no_response_unreachable false (fun html => html)
                failing_provider "You write HTML." (VRef 0) "key" false
                Registry.CLAUDE_3_OPUS 0 [VRef 1] example_state) as H.
  cbn zeta in H.
  destruct H as (Hn & Hf & _); try (vm_compute; reflexivity).
  destruct (Hf [] eq_refl) as [Hr Ht].
  intros run. subst run. repeat split; assumption.
Defined.

(** C4 as the spec states it fails.  With a provider whose streams fail, no
    response object is ever produced, and the loop fails with the
    transport's error, not with the no-response error; with a provider that
    answers pass 1 and fails on pass 2, one pass has yielded a final
    response object and the loop does not return normally. *)
Lemma native_no_response_claim_fails :
  let run1 :=
    Native.stream_claude_response_native false (fun html => html)
      failing_provider "You write HTML." (VRef 0) "key" false
      Registry.CLAUDE_3_OPUS example_state in
  let run2 :=
    Native.stream_claude_response_native false (fun html => html)
      failing_second_provider "You write HTML." (VRef 0) "key" false
      Registry.CLAUDE_3_OPUS example_state in
  ~ (run1.2 = Raise no_response_error <-> final_messages (trace run1.1) = [])
  /\ ~ (final_messages (trace run2.1) <> [] -> is_ok run2.2 = true).
Proof.
  split.
  - intros [_ H]. assert (H0 := H eq_refl). vm_compute in H0. discriminate H0.
  - intros H. assert (H0 := H ltac:(vm_compute; discriminate)).
    vm_compute in H0. discriminate H0.
Qed.

(** C2, evaluated where the code departs from it.  With [include_thinking]
    off, pass 1 sends the caller's conversation as it is, with no seeded
    prefix turn, and the provider answers "draft"; the conversation sent on
    pass 2 has the original length plus 2, but its assistant turn reads
    "<thinking>draft": the prefix is put before the text although it was not
    used for the pass. *)
Theorem native_prefix_without_thinking :
  let run :=
    Native.stream_claude_response_native false (fun html => html)
      drafting_provider "You write HTML." (VRef 0) "key" false
      Registry.CLAUDE_3_OPUS example_state in
  exists rq1 rq2,
    requests (trace run.1) = [rq1; rq2]
    /\ sent_conversation rq1 = Some [VRef 1]
    /\ final_messages (trace run.1) !! 0 = Some (text_message "draft")
    /\ sent_conversation rq2 = Some [VRef 1; VRef 2; VRef 3]
    /\ dict_at (rq_store rq2) (VRef 2)
       = Some {[ "role" := VStr "assistant";
                 "content" := VStr "<thinking>draft" ]}
    /\ dict_at (rq_store rq2) (VRef 3) = Some user_turn.
Proof.
  intros run. eexists _, _. split; [vm_compute; reflexivity|].
  repeat split; vm_compute; reflexivity.
Qed.

(** ** Computations that only add to the store *)

Section preserves_rules.

Variable I : state -> Prop.

Lemma preserves_ret {A} (a : A) (Q : A -> Prop) : Q a -> preserves I (ret a) Q.
Proof. intros HQ s HI. cbn. split; [done|]. by intros a' [= <-]. Qed.

Lemma preserves_raise {A} (e : exn) (Q : A -> Prop) : preserves I (raise e) Q.
Proof. intros s HI. cbn. split; [done|]. intros a' [=]. Qed.

Lemma preserves_bind {A B} (m : M A) (k : A -> M B) (Q : A -> Prop)
    (R : B -> Prop) :
  preserves I m Q -> (forall a, Q a -> preserves I (k a) R) ->
  preserves I (bind m k) R.
Proof.
  intros Hm Hk s HI. rewrite bind_run.
  destruct (Hm s HI) as [HI1 HQ].
  destruct (m s) as [s1 [a|e]]; cbn in *.
  - by apply Hk; [apply HQ|].
  - split; [done|]. intros b [=].
Qed.

Lemma preserves_weaken {A} (m : M A) (Q R : A -> Prop) :
  preserves I m Q -> (forall a, Q a -> R a) -> preserves I m R.
Proof.
  intros Hm HQR s HI. destruct (Hm s HI) as [HI1 HQ]. split; [done|].
  intros a Ha. by apply HQR, HQ.
Qed.

Lemma preserves_for_each {A} (f : A -> M unit) (xs : list A) (Q : A -> Prop) :
  (forall x, Q x -> preserves I (f x) (fun _ => True)) ->
  Forall Q xs -> preserves I (for_each f xs) (fun _ => True).
Proof.
  intros Hf. induction 1 as [|x xs Hx Hxs IH]; cbn.
  - by apply preserves_ret.
  - eapply preserves_bind; [by apply Hf|]. intros _ _. exact IH.
Qed.

Lemma preserves_map_each {A B} (f : A -> M B) (xs : list A) (Q : A -> Prop)
    (R : B -> Prop) :
  (forall x, Q x -> preserves I (f x) R) ->
  Forall Q xs -> preserves I (map_each f xs) (Forall R).
Proof.
  intros Hf. induction 1 as [|x xs Hx Hxs IH]; cbn.
  - by apply preserves_ret.
  - eapply preserves_bind; [by apply Hf|]. intros y Hy.
    eapply preserves_bind; [exact IH|]. intros ys Hys.
    apply preserves_ret. by constructor.
Qed.

Lemma preserves_emit (e : event) :
  (forall s, I s -> I (State (store s) (trace s ++ [e]))) ->
  preserves I (emit e) (fun _ => True).
Proof. intros H s HI. cbn. split; [by apply H|done]. Qed.

Lemma preserves_get_state : preserves I get_state (fun _ => True).
Proof. intros s HI. cbn. done. Qed.

End preserves_rules.

Section extends_store_rules.

Import Py.

Variable T : list event -> Prop.
Variable h0 : list obj.

#[local] Abbreviation n0 := (length h0).
#[local] Abbreviation Ext := (extends_store T h0).

Lemma extends_emit (e : event) :
  (forall t, T t -> T (t ++ [e])) -> preserves Ext (emit e) (fun _ => True).
Proof.
  intros HT. apply preserves_emit. intros s [Ht Hext]. split; [|done].
  by apply HT.
Qed.

Lemma extends_alloc (o : obj) :
  fresh_obj n0 o -> preserves Ext (alloc o) (fun l => n0 <= l).
Proof.
  intros Ho s [Ht [ext [Hs Hext]]]. unfold alloc. cbn [fst snd]. split.
  - split; [done|].
    exists (ext ++ [o]). cbn [store]. rewrite Hs, app_assoc. split; [done|].
    apply Forall_app. split; [done|]. by constructor.
  - intros l [= <-]. rewrite Hs, length_app. lia.
Qed.

Lemma extends_load (l : loc) :
  preserves Ext (load l) (fun o => n0 <= l -> fresh_obj n0 o).
Proof.
  intros s [Ht [ext [Hs Hext]]]. unfold load.
  destruct (store s !! l) as [o|] eqn:Hl; cbn [fst snd].
  - split; [split; [done|by exists ext]|]. intros o' [= <-] Hn.
    rewrite Hs, lookup_app_r in Hl by done.
    by eapply Forall_lookup_1 in Hl.
  - split; [split; [done|by exists ext]|]. intros o' [=].
Qed.

Lemma extends_write (l : loc) (o : obj) :
  n0 <= l -> fresh_obj n0 o -> preserves Ext (write l o) (fun _ => True).
Proof.
  intros Hn Ho s [Ht [ext [Hs Hext]]]. unfold write. cbn [fst snd].
  split; [|done]. split; [done|].
  exists (<[l - n0 := o]> ext). cbn [store]. split.
  - rewrite Hs. by apply insert_app_r_alt.
  - by apply Forall_insert.
Qed.

Lemma extends_deref (e : exn) (v : val) :
  fresh_val n0 v ->
  preserves Ext (deref e v) (fun lo => n0 <= lo.1 /\ fresh_obj n0 lo.2).
Proof.
  intros Hv. unfold deref.
  destruct v as [| | | |l]; try apply preserves_raise.
  eapply preserves_bind; [apply extends_load|].
  intros o Ho. apply preserves_ret. cbn. split; [done|]. by apply Ho.
Qed.

Lemma extends_as_list (v : val) :
  fresh_val n0 v ->
  preserves Ext (as_list v) (fun li => n0 <= li.1 /\ Forall (fresh_val n0) li.2).
Proof.
  intros Hv. unfold as_list.
  eapply preserves_bind; [by apply extends_deref|].
  intros [l [items|entries]] [Hl Ho]; [|apply preserves_raise].
  by apply preserves_ret.
Qed.

Lemma extends_isinstance_list (v : val) :
  fresh_val n0 v ->
  preserves Ext (isinstance_list v)
    (fun r => match r with
              | Some items => Forall (fresh_val n0) items
              | None => True
              end).
Proof.
  intros Hv. unfold isinstance_list.
  destruct v as [| | | |l]; try by apply preserves_ret.
  eapply preserves_bind; [apply extends_load|].
  intros [items|entries] Ho; apply preserves_ret; [by apply Ho|done].
Qed.

Lemma extends_getitem (d : val) (key : string) :
  fresh_val n0 d -> preserves Ext (getitem d key) (fresh_val n0).
Proof.
  intros Hd. unfold getitem.
  eapply preserves_bind; [by apply extends_deref|].
  intros [l [items|entries]] [Hl Ho]; [apply preserves_raise|].
  destruct (entries !! key) as [v|] eqn:Hk; [|apply preserves_raise].
  apply preserves_ret. by eapply (map_Forall_lookup_1 _ _ _ _ Ho).
Qed.

Lemma extends_setitem (d : val) (key : string) (v : val) :
  fresh_val n0 d -> fresh_val n0 v ->
  preserves Ext (setitem d key v) (fun _ => True).
Proof.
  intros Hd Hv. unfold setitem.
  eapply preserves_bind; [by apply extends_deref|].
  intros [l [items|entries]] [Hl Ho]; [apply preserves_raise|].
  apply extends_write; [done|]. by apply map_Forall_insert_2.
Qed.

Lemma extends_delitem (d : val) (key : string) :
  fresh_val n0 d -> preserves Ext (delitem d key) (fun _ => True).
Proof.
  intros Hd. unfold delitem.
  eapply preserves_bind; [by apply extends_deref|].
  intros [l [items|entries]] [Hl Ho]; [apply preserves_raise|].
  destruct (entries !! key); [|apply preserves_raise].
  apply extends_write; [done|]. by apply map_Forall_delete.
Qed.

Lemma extends_dict_get (d : val) (key : string) :
  fresh_val n0 d -> preserves Ext (dict_get d key) (fresh_val n0).
Proof.
  intros Hd. unfold dict_get.
  eapply preserves_bind; [by apply extends_deref|].
  intros [l [items|entries]] [Hl Ho]; [apply preserves_raise|].
  apply preserves_ret.
  destruct (entries !! key) as [v|] eqn:Hk; [|done].
  by eapply (map_Forall_lookup_1 _ _ _ _ Ho).
Qed.

Lemma extends_dict_copy (d : val) :
  fresh_val n0 d -> preserves Ext (dict_copy d) (fresh_val n0).
Proof.
  intros Hd. unfold dict_copy.
  eapply preserves_bind; [by apply extends_deref|].
  intros [l [items|entries]] [Hl Ho]; [apply preserves_raise|].
  eapply preserves_bind; [by apply extends_alloc|].
  intros l' Hl'. by apply preserves_ret.
Qed.

Lemma extends_new_dict (entries : gmap string val) :
  map_Forall (fun _ v => fresh_val n0 v) entries ->
  preserves Ext (new_dict entries) (fresh_val n0).
Proof.
  intros He. unfold new_dict.
  eapply preserves_bind; [by apply extends_alloc|].
  intros l' Hl'. by apply preserves_ret.
Qed.

Lemma extends_new_list (items : list val) :
  Forall (fresh_val n0) items ->
  preserves Ext (new_list items) (fresh_val n0).
Proof.
  intros He. unfold new_list.
  eapply preserves_bind; [by apply extends_alloc|].
  intros l' Hl'. by apply preserves_ret.
Qed.

Lemma fresh_list_to_map (ks : list string) (vs : list val) :
  Forall (fresh_val n0) vs ->
  map_Forall (fun _ v => fresh_val n0 v)
    (list_to_map (zip ks vs) : gmap string val).
Proof.
  intros Hvs k v Hkv. apply elem_of_list_to_map_2 in Hkv.
  apply elem_of_zip_r in Hkv. by eapply Forall_forall in Hvs.
Qed.

Lemma extends_copy_all (cp : val -> gmap loc loc -> M (val * gmap loc loc))
    (xs : list val) (memo : gmap loc loc) :
  (forall x memo, fresh_memo n0 memo ->
     preserves Ext (cp x memo)
       (fun r => fresh_val n0 r.1 /\ fresh_memo n0 r.2)) ->
  fresh_memo n0 memo ->
  preserves Ext (copy_all cp xs memo)
    (fun r => Forall (fresh_val n0) r.1 /\ fresh_memo n0 r.2).
Proof.
  intros Hcp. revert memo. induction xs as [|x xs IH]; intros memo Hmemo; cbn.
  - by apply preserves_ret.
  - eapply preserves_bind; [by apply Hcp|].
    intros [y memo1] [Hy Hmemo1].
    eapply preserves_bind; [by apply IH|].
    intros [ys memo2] [Hys Hmemo2].
    apply preserves_ret. split; [by constructor|done].
Qed.

(** [deepcopy] only adds objects, and what it returns refers to the copy. *)
Lemma extends_deepcopy_rec (fuel : nat) (x : val) (memo : gmap loc loc) :
  fresh_memo n0 memo ->
  preserves Ext (deepcopy_rec fuel x memo)
    (fun r => fresh_val n0 r.1 /\ fresh_memo n0 r.2).
Proof.
  revert x memo. induction fuel as [|fuel IH]; intros x memo Hmemo;
    destruct x as [| | | |l]; cbn [deepcopy_rec];
    try (by apply preserves_ret).
  - destruct (memo !! l) as [y|] eqn:Hl; [|apply preserves_raise].
    apply preserves_ret. split; [|done]. by apply (Hmemo l y).
  - destruct (memo !! l) as [y|] eqn:Hl.
    { apply preserves_ret. split; [|done]. by apply (Hmemo l y). }
    eapply preserves_bind; [apply extends_load|].
    intros [items|entries] _.
    + eapply preserves_bind; [by apply extends_alloc; constructor|].
      intros y Hy.
      eapply preserves_bind.
      { apply extends_copy_all; [exact IH|]. by apply map_Forall_insert_2. }
      intros [items' memo'] [Hitems Hmemo'].
      eapply preserves_bind; [by apply extends_write|].
      intros _ _. by apply preserves_ret.
    + eapply preserves_bind; [by apply extends_alloc, map_Forall_empty|].
      intros y Hy.
      eapply preserves_bind.
      { apply extends_copy_all; [exact IH|]. by apply map_Forall_insert_2. }
      intros [vals' memo'] [Hvals Hmemo'].
      eapply preserves_bind.
      { apply extends_write; [done|]. by apply fresh_list_to_map. }
      intros _ _. by apply preserves_ret.
Qed.

Lemma extends_deepcopy (x : val) :
  preserves Ext (deepcopy x) (fresh_val n0).
Proof.
  unfold deepcopy, deepcopy_memo.
  eapply preserves_bind.
  { eapply preserves_bind; [apply preserves_get_state|].
    intros s _. apply extends_deepcopy_rec. apply map_Forall_empty. }
  intros [y memo] [Hy _]. by apply preserves_ret.
Qed.

End extends_store_rules.

(** ** The Claude-native strategy only adds to the store *)

Section claude_frame.

Import Registry Py Claude.

Variable process_image : val -> result (string * string).
Variable messages_stream : state -> request -> outcome.
Variable T : list event -> Prop.
Variable h0 : list obj.
Hypothesis T_app : forall t e, T t -> T (t ++ [e]).

#[local] Abbreviation n0 := (length h0).
#[local] Abbreviation Ext := (extends_store T h0).

Lemma extends_call_process_image (url : val) :
  preserves Ext (call_process_image process_image url) (fun _ => True).
Proof.
  unfold call_process_image.
  destruct (process_image url); [by apply preserves_ret | apply preserves_raise].
Qed.

Lemma extends_rewrite_content (c : val) :
  fresh_val n0 c ->
  preserves Ext (rewrite_content process_image c) (fun _ => True).
Proof.
  intros Hc. unfold rewrite_content.
  eapply preserves_bind; [by apply extends_getitem|].
  intros ty _. case_bool_decide; [|by apply preserves_ret].
  eapply preserves_bind; [by apply extends_setitem|]. intros _ _.
  eapply preserves_bind; [by apply extends_getitem|]. intros iu Hiu.
  eapply preserves_bind; [by apply extends_getitem|]. intros url _.
  eapply preserves_bind; [apply extends_call_process_image|].
  intros [media_type base64_data] _.
  eapply preserves_bind; [by apply extends_delitem|]. intros _ _.
  eapply preserves_bind.
  { apply extends_new_dict. intros k v Hkv.
    apply lookup_insert_Some in Hkv as [[_ <-]|[_ Hkv]]; [done|].
    apply lookup_insert_Some in Hkv as [[_ <-]|[_ Hkv]]; [done|].
    by apply lookup_singleton_Some in Hkv as [_ <-]. }
  intros source Hsource. by apply extends_setitem.
Qed.

Lemma extends_rewrite_message (m : val) :
  fresh_val n0 m ->
  preserves Ext (rewrite_message process_image m) (fun _ => True).
Proof.
  intros Hm. unfold rewrite_message.
  eapply preserves_bind; [by apply extends_getitem|]. intros c Hc.
  eapply preserves_bind; [by apply extends_isinstance_list|].
  intros [items|] Hitems; [|by apply preserves_ret].
  eapply preserves_for_each; [|exact Hitems].
  intros x Hx. by apply extends_rewrite_content.
Qed.

Lemma extends_translate (messages : val) :
  preserves Ext (translate process_image messages) (fun _ => True).
Proof.
  unfold translate.
  eapply preserves_bind; [apply extends_deepcopy|]. intros cloned Hcloned.
  eapply preserves_bind; [by apply extends_as_list|].
  intros [l [|first rest]] [Hl Hitems]; [apply preserves_raise|].
  apply Forall_cons in Hitems as [Hfirst Hrest].
  eapply preserves_bind; [by apply extends_dict_get|]. intros sp _.
  eapply preserves_bind.
  { eapply preserves_map_each; [|exact Hrest].
    intros x Hx. by apply extends_dict_copy. }
  intros copies Hcopies.
  eapply preserves_bind; [by apply extends_new_list|]. intros cm _.
  eapply preserves_bind.
  { eapply preserves_for_each; [|exact Hcopies].
    intros x Hx. by apply extends_rewrite_message. }
  intros _ _. by apply preserves_ret.
Qed.

Lemma extends_stream_claude_response (messages : val) (api_key : string)
    (model : Llm) :
  preserves Ext
    (stream_claude_response process_image messages_stream messages api_key model)
    (fun _ => True).
Proof.
  unfold stream_claude_response.
  eapply preserves_bind; [apply extends_translate|].
  intros [system_prompt claude_messages] _.
  eapply preserves_bind; [apply preserves_get_state|]. intros s _.
  eapply preserves_bind; [apply extends_emit; intros; by apply T_app|]. intros _ _.
  destruct (messages_stream s _) as [texts final|texts].
  - eapply preserves_bind.
    { eapply (preserves_for_each _ _ _ (fun _ => True)).
      - intros x _. apply extends_emit; intros; by apply T_app.
      - by apply Forall_forall. }
    intros _ _.
    eapply preserves_bind; [apply extends_emit; intros; by apply T_app|]. intros _ _.
    eapply preserves_bind; [apply extends_emit; intros; by apply T_app|]. intros _ _.
    unfold first_text. destruct (content final);
      [apply preserves_raise | by apply preserves_ret].
  - eapply preserves_bind.
    { eapply (preserves_for_each _ _ _ (fun _ => True)).
      - intros x _. apply extends_emit; intros; by apply T_app.
      - by apply Forall_forall. }
    intros _ _. apply preserves_raise.
Qed.

End claude_frame.

(** ** The caller's conversation is left as it was *)

Lemma snapshot_mono (fuel : nat) (st st' : list obj) (v : val) (t : tree) :
  (forall l o, st !! l = Some o -> st' !! l = Some o) ->
  snapshot fuel st v = Some t -> snapshot fuel st' v = Some t.
Proof.
  intros Hst. revert v t.
  induction fuel as [|fuel IH]; intros v t; destruct v as [| | | |l];
    cbn [snapshot]; try done.
  destruct (st !! l) as [o|] eqn:Hl; [|done].
  rewrite (Hst l o Hl).
  assert (Hmap : forall xs ts,
            mapM (snapshot fuel st) xs = Some ts ->
            mapM (snapshot fuel st') xs = Some ts).
  { intros xs ts. rewrite !mapM_Some. intros H.
    eapply Forall2_impl; [exact H | exact IH]. }
  destruct o as [items|entries]; intros Ht;
    apply fmap_Some in Ht as (ts & Hts & ->);
    by rewrite (Hmap _ _ Hts).
Qed.

Section claude_keeps_messages.

Import Registry Claude.

Variable process_image : val -> result (string * string).
Variable messages_stream : state -> request -> outcome.

(** C6.  Whatever the conversation, and whether the call returns or raises,
    [stream_claude_response] leaves every object of the caller's store as
    it was: the translation and the rewriting of images work on the deep
    copy.  So the value of the caller's conversation, read off the store
    after the call, is the value it had before. *)
Theorem stream_claude_response_keeps_messages (messages : val)
    (api_key : string) (model : Llm) (s : state) :
  let run :=
    stream_claude_response process_image messages_stream messages api_key
      model s in
  (forall l o, store s !! l = Some o -> store run.1 !! l = Some o)
  /\ (forall fuel t,
        snapshot fuel (store s) messages = Some t ->
        snapshot fuel (store run.1) messages = Some t).
Proof.
  intros run.
  assert (Hframe : forall l o,
            store s !! l = Some o -> store run.1 !! l = Some o).
  { destruct (extends_stream_claude_response process_image messages_stream
                (fun _ => True) (store s) ltac:(done) messages api_key model s)
      as [[_ [ext [Hext _]]] _].
    { split; [done|]. exists []. by rewrite app_nil_r. }
    intros l o Hl. subst run. rewrite Hext. by apply lookup_app_l_Some. }
  split; [exact Hframe|].
  intros fuel t. by apply snapshot_mono.
Qed.

End claude_keeps_messages.

(** ** [copy.deepcopy] builds a copy of what the value reaches *)

Lemma rename_val_mono (memo memo' : gmap loc loc) (v : val) :
  memo ⊆ memo' -> val_in memo v -> rename_val memo' v = rename_val memo v.
Proof.
  intros Hsub Hv. destruct v as [| | | |l]; try done. cbn in *.
  destruct Hv as [y Hy]. rewrite Hy.
  by rewrite (lookup_weaken _ _ _ _ Hy Hsub).
Qed.

Lemma val_in_mono (memo memo' : gmap loc loc) (v : val) :
  memo ⊆ memo' -> val_in memo v -> val_in memo' v.
Proof.
  intros Hsub Hv. destruct v as [| | | |l]; try done. cbn in *.
  destruct Hv as [y Hy]. exists y. by eapply lookup_weaken.
Qed.

Lemma obj_in_mono (memo memo' : gmap loc loc) (o : obj) :
  memo ⊆ memo' -> obj_in memo o -> obj_in memo' o.
Proof.
  intros Hsub. destruct o as [items|entries]; cbn; intros Ho.
  - eapply Forall_impl; [exact Ho|]. intros v. by apply val_in_mono.
  - eapply map_Forall_impl; [exact Ho|]. intros k v. by apply val_in_mono.
Qed.

Lemma rename_obj_mono (memo memo' : gmap loc loc) (o : obj) :
  memo ⊆ memo' -> obj_in memo o -> rename_obj memo' o = rename_obj memo o.
Proof.
  intros Hsub. destruct o as [items|entries]; cbn; intros Ho; f_equal.
  - apply Forall_fmap_ext. eapply Forall_impl; [exact Ho|].
    intros v. by apply rename_val_mono.
  - apply map_eq. intros k. rewrite !lookup_fmap.
    destruct (entries !! k) as [v|] eqn:Hk; [|done]. cbn. f_equal.
    apply rename_val_mono; [done|]. by apply (Ho k v).
Qed.

Lemma copied_mono (h0 : list obj) (memo memo' : gmap loc loc)
    (st st' : list obj) (l : loc) :
  memo ⊆ memo' -> st `prefix_of` st' ->
  copied h0 memo st l -> copied h0 memo' st' l.
Proof.
  intros Hsub Hpre (o & y & Ho & Hy & Hin & Hge & Hst).
  exists o, y. split; [done|]. split; [by eapply lookup_weaken|].
  split; [by eapply obj_in_mono|]. split; [done|].
  rewrite (rename_obj_mono memo memo') by done.
  by eapply prefix_lookup_Some.
Qed.

Lemma memo_ok_mono (h0 : list obj) (memo : gmap loc loc) (st st' : list obj) :
  st `prefix_of` st' -> memo_ok h0 memo st -> memo_ok h0 memo st'.
Proof.
  intros Hpre Hok. eapply map_Forall_impl; [exact Hok|].
  intros k y [H1 H2]. split; [done|].
  apply prefix_length in Hpre. lia.
Qed.

Lemma zip_fst_fmap_snd {A B C} (f : B -> C) (l : list (A * B)) :
  zip (l.*1) (f <$> l.*2) = prod_map id f <$> l.
Proof. induction l as [|[a b] l IH]; cbn; [done|]. by f_equal. Qed.

Lemma list_to_map_copy (f : val -> val) (entries : gmap string val) :
  (list_to_map (zip ((map_to_list entries).*1) (f <$> (map_to_list entries).*2))
     : gmap string val)
  = f <$> entries.
Proof.
  rewrite zip_fst_fmap_snd, list_to_map_fmap. by rewrite list_to_map_to_list.
Qed.

Section deepcopy_spec.

Import Py.

Variable h0 : list obj.
Hypothesis h0_closed : closed_store h0.

Lemma copy_post_refl (memo : gmap loc loc) (s : state) :
  memo_ok h0 memo (store s) -> copy_post h0 memo s memo s.
Proof.
  intros Hok. split; [done|]. split; [done|]. split; [done|]. split; [done|].
  intros l y Hn Hs. congruence.
Qed.

Lemma copy_post_trans (memo memo1 memo2 : gmap loc loc) (s s1 s2 : state) :
  copy_post h0 memo s memo1 s1 -> copy_post h0 memo1 s1 memo2 s2 ->
  copy_post h0 memo s memo2 s2.
Proof.
  intros (Hp1 & Ht1 & Hs1 & Hok1 & Hn1) (Hp2 & Ht2 & Hs2 & Hok2 & Hn2).
  split; [by etrans|]. split; [congruence|]. split; [by etrans|].
  split; [done|].
  intros l y Hnone Hsome.
  destruct (memo1 !! l) as [y1|] eqn:H1.
  - assert (y1 = y) as ->
      by (pose proof (lookup_weaken _ _ _ _ H1 Hs2); congruence).
    destruct (Hn1 l y Hnone H1) as [Hge Hc]. split; [done|].
    by eapply copied_mono.
  - destruct (Hn2 l y H1 Hsome) as [Hge Hc]. split; [|done].
    apply prefix_length in Hp1. lia.
Qed.

(** Closing a node: once the elements are copied, writing the renamed
    object at the location reserved for the copy completes the copy. *)
Lemma copy_post_node (memo memo2 : gmap loc loc) (s s2 : state) (l : loc)
    (o ph : obj) :
  h0 `prefix_of` store s ->
  memo !! l = None ->
  h0 !! l = Some o ->
  obj_in memo2 o ->
  copy_post h0 (<[l := length (store s)]> memo)
    (State (store s ++ [ph]) (trace s)) memo2 s2 ->
  copy_post h0 memo s memo2
    (State (<[length (store s) := rename_obj memo2 o]> (store s2)) (trace s2))
  /\ memo2 !! l = Some (length (store s)).
Proof.
  intros Hpre Hnone Ho Hin (Hp & Ht & Hs & Hok & Hn).
  cbn [store trace] in *.
  set (y := length (store s)) in *.
  assert (Hly : memo2 !! l = Some y).
  { eapply lookup_weaken; [|exact Hs]. apply lookup_insert_eq. }
  assert (Hylt : y < length (store s2)).
  { apply prefix_length in Hp. rewrite length_app in Hp. cbn in Hp. lia. }
  assert (Hy0 : length h0 <= y) by (by apply prefix_length).
  split; [|done].
  split; [|split; [done|split; [|split]]].
  - destruct Hp as [e He]. rewrite He, <- app_assoc.
    rewrite insert_app_r_alt by done. subst y. rewrite Nat.sub_diag.
    by eexists.
  - etrans; [|exact Hs]. by apply insert_subseteq.
  - eapply map_Forall_impl; [exact Hok|]. intros k z. cbn.
    by rewrite length_insert.
  - intros l' y' Hnone' Hsome'.
    destruct (decide (l' = l)) as [->|Hne].
    + assert (y' = y) as -> by congruence. split; [done|].
      exists o, y. repeat split; try done.
      by apply list_lookup_insert_eq.
    + destruct (Hn l' y') as [Hge (o' & y'' & Ho' & Hy'' & Hin' & Hge' & Hst)];
        [by rewrite lookup_insert_ne|done|].
      assert (y'' = y') as -> by congruence.
      rewrite length_app in Hge. cbn in Hge.
      split; [lia|].
      exists o', y'. repeat split; try done.
      cbn [store]. rewrite list_lookup_insert_ne by (subst y; lia). done.
Qed.

Lemma copy_all_spec (cp : val -> gmap loc loc -> M (val * gmap loc loc))
    (xs : list val) :
  (forall x memo s s' y memo',
     h0 `prefix_of` store s -> memo_ok h0 memo (store s) ->
     val_closed (length h0) x ->
     cp x memo s = (s', Ok (y, memo')) ->
     copy_post h0 memo s memo' s' /\ y = rename_val memo' x /\ val_in memo' x) ->
  forall memo s s' ys memo',
    h0 `prefix_of` store s -> memo_ok h0 memo (store s) ->
    Forall (val_closed (length h0)) xs ->
    copy_all cp xs memo s = (s', Ok (ys, memo')) ->
    copy_post h0 memo s memo' s'
    /\ ys = rename_val memo' <$> xs
    /\ Forall (val_in memo') xs.
Proof.
  intros Hcp. induction xs as [|x xs IH]; intros memo s s' ys memo' Hpre Hok Hxs H.
  - cbn in H. injection H as <- <- <-. split; [by apply copy_post_refl|done].
  - apply Forall_cons in Hxs as [Hx Hxs]. cbn [copy_all] in H.
    apply bind_ok_inv in H as ([y1 memo1] & s1 & H1 & H).
    apply bind_ok_inv in H as ([ys2 memo2] & s2 & H2 & H).
    injection H as <- <- <-.
    destruct (Hcp _ _ _ _ _ _ Hpre Hok Hx H1) as (Hpost1 & -> & Hin1).
    assert (Hpre1 : h0 `prefix_of` store s1).
    { etrans; [exact Hpre|]. apply Hpost1. }
    destruct (IH _ _ _ _ _ Hpre1 (proj1 (proj2 (proj2 (proj2 Hpost1)))) Hxs H2)
      as (Hpost2 & -> & Hin2).
    split; [by eapply copy_post_trans|].
    assert (Hsub : memo1 ⊆ memo2) by apply Hpost2.
    split.
    + cbn. f_equal. symmetry. by apply rename_val_mono.
    + constructor; [by eapply val_in_mono|done].
Qed.

Lemma deepcopy_rec_spec (fuel : nat) :
  forall x memo s s' y memo',
    h0 `prefix_of` store s -> memo_ok h0 memo (store s) ->
    val_closed (length h0) x ->
    deepcopy_rec fuel x memo s = (s', Ok (y, memo')) ->
    copy_post h0 memo s memo' s' /\ y = rename_val memo' x /\ val_in memo' x.
Proof.
  induction fuel as [|fuel IH]; intros x memo s s' y memo' Hpre Hok Hx H;
    destruct x as [| | | |l]; cbn [deepcopy_rec] in H;
    try (injection H as <- <- <-; split; [by apply copy_post_refl|done]).
  - destruct (memo !! l) as [y0|] eqn:Hl; [|discriminate H].
    injection H as <- <- <-. split; [by apply copy_post_refl|].
    cbn. rewrite Hl. eauto.
  - destruct (memo !! l) as [y0|] eqn:Hl.
    { injection H as <- <- <-. split; [by apply copy_post_refl|].
      cbn. rewrite Hl. eauto. }
    apply bind_ok_inv in H as (o & sa & Hload & H).
    unfold load in Hload.
    destruct (store s !! l) as [o'|] eqn:Hsl; [|discriminate Hload].
    injection Hload as Hsa Hoo. subst sa o'.
    assert (Ho : h0 !! l = Some o).
    { cbn in Hx. destruct (lookup_lt_is_Some_2 h0 l Hx) as [o0 Ho0].
      pose proof (prefix_lookup_Some _ _ _ _ Ho0 Hpre). congruence. }
    assert (Hoc : obj_closed (length h0) o).
    { eapply Forall_lookup_1 in Ho; [exact Ho | exact h0_closed]. }
    destruct o as [items|entries].
    + apply bind_ok_inv in H as (y1 & s1 & Halloc & H).
      injection Halloc as <- <-.
      apply bind_ok_inv in H as ([items' memo2] & s2 & Hcopy & H).
      apply bind_ok_inv in H as ([] & s3 & Hwrite & H).
      injection Hwrite as <-. injection H as <- <- <-.
      eapply (copy_all_spec _ _ IH) in Hcopy as (Hpost & -> & Hin);
        [| by apply prefix_app_r
         | apply map_Forall_insert_2;
           [ cbn; rewrite length_app; cbn; apply prefix_length in Hpre; lia
           | eapply memo_ok_mono; [|exact Hok]; by apply prefix_app_r ]
         | exact Hoc ].
      destruct (copy_post_node memo memo2 s s2 l (OList items) (OList [])
                  Hpre Hl Ho Hin Hpost) as [Hnode Hly].
      split; [exact Hnode|]. cbn. rewrite Hly. eauto.
    + apply bind_ok_inv in H as (y1 & s1 & Halloc & H).
      injection Halloc as <- <-.
      apply bind_ok_inv in H as ([vals' memo2] & s2 & Hcopy & H).
      apply bind_ok_inv in H as ([] & s3 & Hwrite & H).
      injection Hwrite as <-. injection H as <- <- <-.
      eapply (copy_all_spec _ _ IH) in Hcopy as (Hpost & -> & Hin);
        [| by apply prefix_app_r
         | apply map_Forall_insert_2;
           [ cbn; rewrite length_app; cbn; apply prefix_length in Hpre; lia
           | eapply memo_ok_mono; [|exact Hok]; by apply prefix_app_r ]
         | ].
      2:{ apply Forall_fmap, Forall_forall. intros [k v] Hkv.
          apply elem_of_map_to_list in Hkv. by apply (Hoc k v). }
      assert (Hin' : obj_in memo2 (ODict entries)).
      { intros k v Hkv. apply elem_of_map_to_list in Hkv.
        rewrite Forall_fmap, Forall_forall in Hin.
        exact (Hin (k, v) Hkv). }
      destruct (copy_post_node memo memo2 s s2 l (ODict entries) (ODict ∅)
                  Hpre Hl Ho Hin' Hpost) as [Hnode Hly].
      rewrite list_to_map_copy.
      split; [exact Hnode|]. cbn. rewrite Hly. eauto.
Qed.

End deepcopy_spec.

(** ** [copy.deepcopy] returns *)

Lemma length_filter_le_impl {A} (P Q : A -> Prop) `{!forall x, Decision (P x)}
    `{!forall x, Decision (Q x)} (l : list A) :
  (forall x, P x -> Q x) -> length (filter P l) <= length (filter Q l).
Proof.
  intros HPQ. induction l as [|x l IH]; [done|].
  rewrite !filter_cons.
  destruct (decide (P x)) as [HP|HP]; destruct (decide (Q x)) as [HQ|HQ];
    cbn; try lia.
  by destruct HQ; apply HPQ.
Qed.

Lemma length_filter_lt_impl {A} (P Q : A -> Prop) `{!forall x, Decision (P x)}
    `{!forall x, Decision (Q x)} (l : list A) (x0 : A) :
  (forall x, P x -> Q x) -> x0 ∈ l -> Q x0 -> ~ P x0 ->
  length (filter P l) < length (filter Q l).
Proof.
  intros HPQ Hin HQ0 HP0.
  induction l as [|x l IH]; [by apply elem_of_nil in Hin|].
  rewrite !filter_cons.
  pose proof (length_filter_le_impl P Q l HPQ) as Hle.
  apply elem_of_cons in Hin as [<-|Hin].
  - rewrite decide_False, decide_True by done. cbn. lia.
  - specialize (IH Hin).
    destruct (decide (P x)) as [HP|HP]; destruct (decide (Q x)) as [HQ|HQ];
      cbn; try lia.
    by destruct HQ; apply HPQ.
Qed.

Lemma unvisited_empty (n : nat) : unvisited n ∅ = n.
Proof.
  unfold unvisited.
  assert (H : forall ls : list loc,
            filter (fun l => (∅ : gmap loc loc) !! l = None) ls = ls).
  { induction ls as [|l ls IH]; [done|].
    rewrite filter_cons, decide_True by apply lookup_empty. by f_equal. }
  by rewrite H, length_seq.
Qed.

Lemma unvisited_mono (n : nat) (memo memo' : gmap loc loc) :
  memo ⊆ memo' -> unvisited n memo' <= unvisited n memo.
Proof.
  intros Hsub. apply length_filter_le_impl. intros l Hl.
  destruct (memo !! l) as [y|] eqn:Hy; [|done].
  pose proof (lookup_weaken _ _ _ _ Hy Hsub). congruence.
Qed.

Lemma unvisited_insert (n : nat) (memo : gmap loc loc) (l y : loc) :
  l < n -> memo !! l = None ->
  unvisited n (<[l := y]> memo) < unvisited n memo.
Proof.
  intros Hl Hnone. apply (length_filter_lt_impl _ _ _ l).
  - intros l' Hl'. destruct (decide (l' = l)) as [->|Hne]; [done|].
    by rewrite lookup_insert_ne in Hl'.
  - apply elem_of_seq. lia.
  - done.
  - by rewrite lookup_insert_eq.
Qed.

Section deepcopy_returns.

Import Py.

Variable h0 : list obj.
Hypothesis h0_closed : closed_store h0.

#[local] Abbreviation n0 := (length h0).

(** The elements are all copied when the copier of one element returns as
    long as the memo leaves fewer than [k] locations unrecorded. *)
Lemma copy_all_returns (cp : val -> gmap loc loc -> M (val * gmap loc loc))
    (k : nat) (xs : list val) :
  (forall x memo s,
     h0 `prefix_of` store s -> memo_ok h0 memo (store s) ->
     val_closed n0 x -> unvisited n0 memo < k ->
     exists s' y memo',
       cp x memo s = (s', Ok (y, memo'))
       /\ copy_post h0 memo s memo' s') ->
  forall memo s,
    h0 `prefix_of` store s -> memo_ok h0 memo (store s) ->
    Forall (val_closed n0) xs -> unvisited n0 memo < k ->
    exists s' ys memo',
      copy_all cp xs memo s = (s', Ok (ys, memo'))
      /\ copy_post h0 memo s memo' s'.
Proof.
  intros Hcp. induction xs as [|x xs IH]; intros memo s Hpre Hok Hxs Hk.
  - exists s, [], memo. split; [done|]. by apply copy_post_refl.
  - apply Forall_cons in Hxs as [Hx Hxs].
    destruct (Hcp x memo s Hpre Hok Hx Hk) as (s1 & y & memo1 & H1 & Hpost1).
    destruct Hpost1 as (Hp1 & Ht1 & Hs1 & Hok1 & Hn1).
    destruct (IH memo1 s1) as (s2 & ys & memo2 & H2 & Hpost2);
      [by etrans|done|done|pose proof (unvisited_mono n0 _ _ Hs1); lia|].
    exists s2, (y :: ys), memo2. split.
    + cbn [copy_all]. rewrite bind_run, H1, bind_run, H2. done.
    + by apply (copy_post_trans h0 memo memo1 memo2 s s1 s2).
Qed.

(** With more fuel than there are locations the memo has not recorded, the
    copier returns: every descent records one more location of the
    original store. *)
Lemma deepcopy_rec_returns (fuel : nat) :
  forall x memo s,
    h0 `prefix_of` store s -> memo_ok h0 memo (store s) ->
    val_closed n0 x -> unvisited n0 memo < fuel ->
    exists s' y memo',
      deepcopy_rec fuel x memo s = (s', Ok (y, memo'))
      /\ copy_post h0 memo s memo' s'.
Proof.
  induction fuel as [|fuel IH]; intros x memo s Hpre Hok Hx Hfuel; [lia|].
  destruct x as [| | | |l]; cbn [deepcopy_rec];
    try (eexists _, _, _; split; [reflexivity|by apply copy_post_refl]).
  destruct (memo !! l) as [y0|] eqn:Hl.
  { eexists _, _, _; split; [reflexivity|by apply copy_post_refl]. }
  cbn in Hx.
  destruct (lookup_lt_is_Some_2 h0 l Hx) as [o Ho].
  pose proof (prefix_lookup_Some _ _ _ _ Ho Hpre) as Hsl.
  assert (Hoc : obj_closed n0 o).
  { eapply Forall_lookup_1 in Ho; [exact Ho | exact h0_closed]. }
  rewrite bind_run, (load_run _ _ _ Hsl).
  set (s1 := State (store s ++ [match o with OList _ => OList [] | ODict _ => ODict ∅ end]) (trace s)).
  assert (Hpre1 : h0 `prefix_of` store s1) by (by apply prefix_app_r).
  assert (Hok1 : memo_ok h0 (<[l := length (store s)]> memo) (store s1)).
  { apply map_Forall_insert_2.
    - cbn. rewrite length_app. cbn. apply prefix_length in Hpre. lia.
    - eapply memo_ok_mono; [|exact Hok]. by apply prefix_app_r. }
  assert (Hk1 : unvisited n0 (<[l := length (store s)]> memo) < fuel).
  { pose proof (unvisited_insert n0 memo l (length (store s)) Hx Hl). lia. }
  destruct o as [items|entries].
  - destruct (copy_all_returns (deepcopy_rec fuel) fuel items IH
                (<[l := length (store s)]> memo) s1 Hpre1 Hok1 Hoc Hk1)
      as (s2 & items' & memo2 & Hcopy & Hpost).
    rewrite bind_run. cbn [alloc]. fold s1. rewrite bind_run, Hcopy.
    eexists _, _, _. split; [reflexivity|].
    destruct (deepcopy_rec_spec h0 h0_closed (S fuel) (VRef l) memo s) with
      (s' := State (<[length (store s) := OList items']> (store s2)) (trace s2))
      (y := VRef (length (store s))) (memo' := memo2) as [Hspec _];
      try done.
    cbn [deepcopy_rec]. rewrite Hl, bind_run, (load_run _ _ _ Hsl).
    rewrite bind_run. cbn [alloc]. fold s1. rewrite bind_run, Hcopy. done.
  - assert (Hvals : Forall (val_closed n0) (map_to_list entries).*2).
    { apply Forall_fmap, Forall_forall. intros [k v] Hkv.
      apply elem_of_map_to_list in Hkv. by apply (Hoc k v). }
    destruct (copy_all_returns (deepcopy_rec fuel) fuel _ IH
                (<[l := length (store s)]> memo) s1 Hpre1 Hok1 Hvals Hk1)
      as (s2 & vals' & memo2 & Hcopy & Hpost).
    rewrite bind_run. cbn [alloc]. fold s1. cbn zeta. rewrite bind_run, Hcopy.
    eexists _, _, _. split; [reflexivity|].
    destruct (deepcopy_rec_spec h0 h0_closed (S fuel) (VRef l) memo s) with
      (s' := State (<[length (store s) :=
                       ODict (list_to_map (zip (map_to_list entries).*1 vals'))]>
                      (store s2)) (trace s2))
      (y := VRef (length (store s))) (memo' := memo2) as [Hspec _];
      try done.
    cbn [deepcopy_rec]. rewrite Hl, bind_run, (load_run _ _ _ Hsl).
    rewrite bind_run. cbn [alloc]. fold s1. cbn zeta. rewrite bind_run, Hcopy.
    done.
Qed.

End deepcopy_returns.

(** On a store whose references all lie in it, [copy.deepcopy] returns a
    value: the fuel of [deepcopy_memo] is not used up and no reference is
    followed outside the store. *)
Lemma deepcopy_returns (x : val) (s : state) :
  closed_store (store s) -> val_closed (length (store s)) x ->
  exists s' y, Py.deepcopy x s = (s', Ok y).
Proof.
  intros Hclosed Hx.
  destruct (deepcopy_rec_returns (store s) Hclosed (S (length (store s))) x ∅ s)
    as (s' & y & memo' & Hrun & _); try done.
  { rewrite unvisited_empty. lia. }
  exists s', y. unfold Py.deepcopy, Py.deepcopy_memo.
  rewrite !bind_run. cbn [get_state]. by rewrite Hrun.
Qed.

(** ** The rewriting of image parts *)

Lemma getitem_ok_inv (d : val) (key : string) (s s' : state) (v : val) :
  Py.getitem d key s = (s', Ok v) ->
  s' = s /\ exists l e,
    d = VRef l /\ store s !! l = Some (ODict e) /\ e !! key = Some v.
Proof.
  unfold Py.getitem, Py.deref. intros H.
  destruct d as [| | | |l]; try discriminate H.
  rewrite !bind_run in H. unfold Py.load in H.
  destruct (store s !! l) as [[items|e]|] eqn:Hl; cbn in H;
    try discriminate H.
  destruct (e !! key) as [v'|] eqn:Hk; [|discriminate H].
  injection H as <- <-. eauto 10.
Qed.

Lemma setitem_run (l : loc) (e : gmap string val) (key : string) (v : val)
    (s : state) :
  store s !! l = Some (ODict e) ->
  Py.setitem (VRef l) key v s
  = (State (<[l := ODict (<[key := v]> e)]> (store s)) (trace s), Ok tt).
Proof.
  intros Hl. unfold Py.setitem, Py.deref.
  rewrite !bind_run, (load_run _ _ _ Hl). reflexivity.
Qed.

Lemma delitem_ok_inv (l : loc) (e : gmap string val) (key : string)
    (s s' : state) :
  store s !! l = Some (ODict e) ->
  Py.delitem (VRef l) key s = (s', Ok tt) ->
  s' = State (<[l := ODict (delete key e)]> (store s)) (trace s).
Proof.
  intros Hl. unfold Py.delitem, Py.deref.
  rewrite !bind_run, (load_run _ _ _ Hl). cbn.
  destruct (e !! key); [|discriminate]. by intros [= <-].
Qed.

Lemma isinstance_list_ok_inv (v : val) (s s' : state) (r : option (list val)) :
  Py.isinstance_list v s = (s', Ok r) ->
  s' = s
  /\ match r with
     | Some items => exists l, v = VRef l /\ store s !! l = Some (OList items)
     | None => forall l items, v = VRef l -> store s !! l <> Some (OList items)
     end.
Proof.
  unfold Py.isinstance_list. intros H.
  destruct v as [| | | |l];
    try (injection H as <- <-; split; [done|]; intros l' items [=]).
  rewrite bind_run in H. unfold Py.load in H.
  destruct (store s !! l) as [[items|e]|] eqn:Hl; cbn in H;
    try discriminate H; injection H as <- <-; split; try done.
  - eauto.
  - intros l' items [= <-]. congruence.
Qed.

Lemma image_part_lookup (e : gmap string val) (source : loc) (key : string) :
  key <> "source" -> key <> "image_url" -> key <> "type" ->
  image_part e source !! key = e !! key.
Proof.
  intros H1 H2 H3. unfold image_part.
  rewrite lookup_insert_ne, lookup_delete_ne, lookup_insert_ne; done.
Qed.

Lemma image_part_not_image_url (e : gmap string val) (source : loc) :
  ~ is_image_url (image_part e source)
  /\ image_part e source !! "image_url" = None
  /\ image_part e source !! "type" = Some (VStr "image")
  /\ image_part e source !! "source" = Some (VRef source).
Proof.
  unfold is_image_url, image_part.
  rewrite !lookup_insert_eq.
  rewrite !(lookup_insert_ne _ "source") by done.
  rewrite lookup_delete_eq, lookup_delete_ne, lookup_insert_eq by done.
  done.
Qed.

Lemma source_dict_lookup (media_type base64_data : string) :
  ~ is_image_url (source_dict media_type base64_data)
  /\ source_dict media_type base64_data !! "url" = None
  /\ source_dict media_type base64_data !! "content" = None.
Proof. unfold is_image_url, source_dict. by vm_compute. Qed.

Section rewrite_loop.

Import Py Claude.

Variable process_image : val -> result (string * string).

#[local] Abbreviation rewrite_content := (Claude.rewrite_content process_image).
#[local] Abbreviation rewrite_message := (Claude.rewrite_message process_image).
#[local] Abbreviation Rewritten := (rewritten process_image).
#[local] Abbreviation Inv := (rewrite_inv process_image).

(** One content part, when the body returns: either the part is not in the
    image form and nothing changes, or it is and the part is rewritten in
    place, with a new source dict after the store. *)
Lemma rewrite_content_ok (c : val) (s s' : state) :
  rewrite_content c s = (s', Ok tt) ->
  exists lc e,
    c = VRef lc /\ store s !! lc = Some (ODict e)
    /\ ((~ is_image_url e /\ s' = s)
        \/ (is_image_url e
            /\ exists url media_type base64_data,
                 data_url (store s) e = Some url
                 /\ process_image url = Ok (media_type, base64_data)
                 /\ s' = State
                           (<[lc := ODict (image_part e (length (store s)))]>
                              (store s)
                            ++ [ODict (source_dict media_type base64_data)])
                           (trace s))).
Proof.
  unfold Claude.rewrite_content. intros H.
  apply bind_ok_inv in H as (ty & sa & Hty & H).
  apply getitem_ok_inv in Hty as (-> & lc & e & -> & Hlc & Hty).
  exists lc, e. split; [done|]. split; [done|].
  assert (Hlt : lc < length (store s)) by (by eapply lookup_lt_Some).
  case_bool_decide as Himg.
  2:{ left. injection H as <-. split; [|done].
      unfold is_image_url. congruence. }
  subst ty. right. split; [done|].
  rewrite bind_run, (setitem_run _ _ _ _ _ Hlc) in H.
  set (e1 := <["type" := VStr "image"]> e) in *.
  set (s1 := State _ _) in H.
  assert (Hlc1 : store s1 !! lc = Some (ODict e1))
    by (by apply list_lookup_insert_eq).
  apply bind_ok_inv in H as (iu & sb & Hiu & H).
  apply getitem_ok_inv in Hiu as (-> & lc' & e' & [= <-] & Hlc' & Hiu).
  assert (e' = e1) as -> by congruence.
  apply bind_ok_inv in H as (url & sb & Hurl & H).
  apply getitem_ok_inv in Hurl as (-> & li & eu & -> & Hli & Hurl).
  apply bind_ok_inv in H as ([media_type base64_data] & sb & Hpi & H).
  unfold call_process_image in Hpi.
  destruct (process_image url) as [[mt d]|e0] eqn:Hp; [|discriminate Hpi].
  injection Hpi as <- <- <-.
  apply bind_ok_inv in H as ([] & s2 & Hdel & H).
  apply (delitem_ok_inv _ _ _ _ _ Hlc1) in Hdel. subst s2.
  subst s1. cbn [store trace] in *.
  rewrite bind_run, new_dict_run in H. cbn [store trace] in H.
  erewrite setitem_run in H.
  2:{ cbn [store]. rewrite lookup_app_l by (by rewrite !length_insert).
      apply list_lookup_insert_eq. by rewrite length_insert. }
  cbn [store trace] in H. rewrite !length_insert in H.
  injection H as <-.
  exists url, mt, d. split; [|split; [done|]].
  - unfold data_url. subst e1.
    rewrite lookup_insert_ne in Hiu by done. rewrite Hiu.
    destruct (decide (li = lc)) as [->|Hne].
    + rewrite Hlc. assert (eu = <["type" := VStr "image"]> e) as -> by congruence.
      by rewrite lookup_insert_ne in Hurl.
    + rewrite list_lookup_insert_ne in Hli by done. by rewrite Hli.
  - f_equal.
    rewrite insert_app_l by (by rewrite !length_insert).
    by rewrite !list_insert_insert_eq.
Qed.

Lemma lookup_step_other (st : list obj) (lc : loc) (x y : obj) (l : loc) :
  l < length st -> l <> lc -> (<[lc := x]> st ++ [y]) !! l = st !! l.
Proof.
  intros Hl Hne. rewrite lookup_app_l by (by rewrite length_insert).
  by rewrite list_lookup_insert_ne.
Qed.

Lemma lookup_step_at (st : list obj) (lc : loc) (x y : obj) :
  lc < length st -> (<[lc := x]> st ++ [y]) !! lc = Some x.
Proof.
  intros Hl. rewrite lookup_app_l by (by rewrite length_insert).
  by apply list_lookup_insert_eq.
Qed.

Lemma lookup_step_new (st : list obj) (lc : loc) (x y : obj) :
  (<[lc := x]> st ++ [y]) !! length st = Some y.
Proof.
  rewrite lookup_app_r by (by rewrite length_insert).
  by rewrite length_insert, Nat.sub_diag.
Qed.

Lemma rewrite_inv_refl (st : list obj) : Inv st st.
Proof.
  split; [done|]. split; [by left|]. intros l H1 H2. lia.
Qed.

Lemma keeps_others_refl (st : list obj) : keeps_others st st.
Proof. by intros l o Hl _. Qed.

Lemma keeps_others_trans (st1 st2 st3 : list obj) :
  keeps_others st1 st2 -> keeps_others st2 st3 -> keeps_others st1 st3.
Proof. intros H12 H23 l o Hl Ho. apply H23; [|done]. by apply H12. Qed.

Lemma settled_keeps (st st' : list obj) (v : val) :
  keeps_others st st' -> settled st v -> settled st' v.
Proof.
  intros Hk (l & e & -> & Hl & He). exists l, e. split; [done|].
  split; [|done]. apply Hk; [done|]. by intros e' [= <-].
Qed.

(** The invariant is kept by the body of the inner loop, which leaves the
    part it worked on out of the image form. *)
Lemma rewrite_content_step (st1 : list obj) (c : val) (s s' : state) :
  Inv st1 (store s) ->
  rewrite_content c s = (s', Ok tt) ->
  Inv st1 (store s')
  /\ settled (store s') c
  /\ keeps_others (store s) (store s')
  /\ trace s' = trace s.
Proof.
  intros (Hlen & Hold & Hnew) H.
  apply rewrite_content_ok in H
    as (lc & e & -> & Hlc & [[Hne ->]|[Himg (url & mt & d & Hurl & Hp & ->)]]).
  { split; [done|]. split; [by exists lc, e|]. split; [|done].
    apply keeps_others_refl. }
  cbn [store trace].
  assert (Hlt : lc < length (store s)) by (by eapply lookup_lt_Some).
  assert (Hlc1 : lc < length st1).
  { destruct (decide (lc < length st1)) as [|Hge]; [done|]. exfalso.
    destruct (Hnew lc) as (mt' & d' & Hsrc); [lia|done|].
    rewrite Hlc in Hsrc. injection Hsrc as ->.
    by apply (source_dict_lookup mt' d'). }
  assert (Horig : st1 !! lc = Some (ODict e)).
  { destruct (Hold lc Hlc1) as [<-|Hre]; [done|]. exfalso.
    destruct Hre as (e0 & _ & _ & _ & src0 & _ & _ & _ & _ & Hst & _).
    rewrite Hlc in Hst. injection Hst as ->.
    by apply (image_part_not_image_url e0 src0). }
  assert (Hurl1 : data_url st1 e = Some url).
  { unfold data_url in *.
    destruct (e !! "image_url") as [[| | | |li]|]; try done.
    destruct (store s !! li) as [[|eu]|] eqn:Hli; try done.
    assert (Hli_lt : li < length (store s)) by (by eapply lookup_lt_Some).
    destruct (decide (li < length st1)) as [Hli1|Hge].
    - destruct (Hold li Hli1) as [Heq|Hre].
      + by rewrite <- Heq, Hli.
      + destruct Hre as (e0 & _ & _ & _ & src0 & Hst1 & _ & _ & _ & Hst & _).
        rewrite Hst1. rewrite Hli in Hst. injection Hst as ->.
        by rewrite image_part_lookup in Hurl.
    - exfalso. destruct (Hnew li) as (mt' & d' & Hsrc); [lia|done|].
      rewrite Hli in Hsrc. injection Hsrc as ->.
      destruct (source_dict_lookup mt' d') as (_ & Hno & _). congruence. }
  split; [|split; [|split; [|done]]].
  - split; [rewrite length_app, length_insert; lia|]. split.
    + intros l Hl. destruct (decide (l = lc)) as [->|Hne].
      * right. exists e, url, mt, d, (length (store s)).
        split; [done|]. split; [done|]. split; [done|]. split; [done|].
        split; [by apply lookup_step_at|]. split; [done|].
        apply lookup_step_new.
      * rewrite lookup_step_other by (done || lia).
        destruct (Hold l Hl) as [Heq|Hre]; [by left|]. right.
        destruct Hre as (e0 & url0 & mt0 & d0 & src0 & H1 & H2 & H3 & H4
                         & H5 & H6 & H7).
        exists e0, url0, mt0, d0, src0. repeat (split; [done|]).
        split; [by rewrite lookup_step_other by lia|]. split; [done|].
        rewrite lookup_step_other; [done| by eapply lookup_lt_Some | lia].
    + intros l Hl1 Hl2. rewrite length_app, length_insert in Hl2. cbn in Hl2.
      destruct (decide (l = length (store s))) as [->|Hne].
      * exists mt, d. apply lookup_step_new.
      * rewrite lookup_step_other by lia. apply Hnew; lia.
  - exists lc, (image_part e (length (store s))). split; [done|].
    split; [by apply lookup_step_at|].
    by apply image_part_not_image_url.
  - intros l o Hl Ho.
    assert (l <> lc).
    { intros ->. rewrite Hlc in Hl. injection Hl as <-. by eapply Ho. }
    rewrite lookup_step_other; [done| by eapply lookup_lt_Some |done].
Qed.

Lemma rewrite_contents_spec (st1 : list obj) (items : list val) (s s' : state) :
  Inv st1 (store s) ->
  for_each rewrite_content items s = (s', Ok tt) ->
  Inv st1 (store s')
  /\ Forall (settled (store s')) items
  /\ keeps_others (store s) (store s')
  /\ trace s' = trace s.
Proof.
  revert s. induction items as [|c items IH]; intros s Hinv H.
  - injection H as <-. split; [done|]. split; [done|].
    split; [apply keeps_others_refl|done].
  - cbn [for_each] in H. apply bind_ok_inv in H as ([] & s1 & Hc & H).
    destruct (rewrite_content_step st1 c s s1 Hinv Hc)
      as (Hinv1 & Hset & Hk1 & Ht1).
    destruct (IH s1 Hinv1 H) as (Hinv' & Hall & Hk2 & Ht2).
    split; [done|]. split; [|split; [by eapply keeps_others_trans|congruence]].
    constructor; [by eapply settled_keeps|done].
Qed.

(** Under the invariant, lists are as they were, and a dict keeps its
    [content]. *)
Lemma rewrite_inv_list (st1 st : list obj) (l : loc) (items : list val) :
  Inv st1 st ->
  st1 !! l = Some (OList items) <-> st !! l = Some (OList items).
Proof.
  intros (Hlen & Hold & Hnew). split; intros Hl.
  - assert (Hlt : l < length st1) by (by eapply lookup_lt_Some).
    destruct (Hold l Hlt) as [->|Hre]; [done|].
    destruct Hre as (e0 & _ & _ & _ & _ & Hst1 & _). congruence.
  - assert (Hlt : l < length st) by (by eapply lookup_lt_Some).
    destruct (decide (l < length st1)) as [Hl1|Hge].
    + destruct (Hold l Hl1) as [<-|Hre]; [done|].
      destruct Hre as (e0 & _ & _ & _ & src0 & _ & _ & _ & _ & Hst & _).
      congruence.
    + destruct (Hnew l) as (mt & d & Hsrc); [lia|done|]. congruence.
Qed.

Lemma rewrite_inv_content (st1 st : list obj) (l : loc) (c : val) :
  Inv st1 st ->
  (exists em, st1 !! l = Some (ODict em) /\ em !! "content" = Some c)
  <-> (exists em, st !! l = Some (ODict em) /\ em !! "content" = Some c).
Proof.
  intros (Hlen & Hold & Hnew). split; intros (em & Hl & Hc).
  - assert (Hlt : l < length st1) by (by eapply lookup_lt_Some).
    destruct (Hold l Hlt) as [Heq|Hre].
    + exists em. by rewrite Heq.
    + destruct Hre as (e0 & _ & _ & _ & src0 & Hst1 & _ & _ & _ & Hst & _).
      exists (image_part e0 src0). split; [done|].
      rewrite image_part_lookup by done. congruence.
  - assert (Hlt : l < length st) by (by eapply lookup_lt_Some).
    destruct (decide (l < length st1)) as [Hl1|Hge].
    + destruct (Hold l Hl1) as [Heq|Hre].
      * exists em. by rewrite <- Heq.
      * destruct Hre as (e0 & _ & _ & _ & src0 & Hst1 & _ & _ & _ & Hst & _).
        exists e0. split; [done|].
        rewrite Hl in Hst. injection Hst as ->.
        by rewrite image_part_lookup in Hc.
    + destruct (Hnew l) as (mt & d & Hsrc); [lia|done|].
      rewrite Hl in Hsrc. injection Hsrc as ->.
      destruct (source_dict_lookup mt d) as (_ & _ & Hno). congruence.
Qed.

Lemma rewrite_message_spec (st1 : list obj) (m : val) (s s' : state) :
  Inv st1 (store s) ->
  rewrite_message m s = (s', Ok tt) ->
  Inv st1 (store s')
  /\ keeps_others (store s) (store s')
  /\ trace s' = trace s
  /\ (forall lm em lcont items,
        m = VRef lm -> store s !! lm = Some (ODict em) ->
        em !! "content" = Some (VRef lcont) ->
        store s !! lcont = Some (OList items) ->
        Forall (settled (store s')) items).
Proof.
  intros Hinv H. unfold Claude.rewrite_message in H.
  apply bind_ok_inv in H as (c & sa & Hc & H).
  apply getitem_ok_inv in Hc as (-> & lm & em & -> & Hlm & Hc).
  apply bind_ok_inv in H as (r & sa & Hr & H).
  apply isinstance_list_ok_inv in Hr as (-> & Hr).
  destruct r as [items|].
  - destruct Hr as (lcont & -> & Hlcont).
    destruct (rewrite_contents_spec st1 items s s' Hinv H)
      as (Hinv' & Hall & Hk & Ht).
    repeat (split; [done|]).
    intros lm' em' lcont' items' [= <-] Hlm' Hc' Hl'.
    assert (em' = em) as -> by congruence.
    assert (lcont' = lcont) as -> by congruence.
    by assert (items' = items) as -> by congruence.
  - injection H as <-. split; [done|]. split; [apply keeps_others_refl|].
    split; [done|].
    intros lm' em' lcont' items' [= <-] Hlm' Hc' Hl'.
    assert (em' = em) as -> by congruence.
    exfalso. eapply Hr; [|exact Hl']. congruence.
Qed.

(** The outer loop: afterwards no content part of a message of the list is
    in the image form. *)
Lemma rewrite_messages_spec (st1 : list obj) (copies : list val) (s s' : state) :
  Inv st1 (store s) ->
  for_each rewrite_message copies s = (s', Ok tt) ->
  Inv st1 (store s')
  /\ keeps_others (store s) (store s')
  /\ trace s' = trace s
  /\ (forall lm em lcont items,
        VRef lm ∈ copies -> st1 !! lm = Some (ODict em) ->
        em !! "content" = Some (VRef lcont) ->
        st1 !! lcont = Some (OList items) ->
        Forall (settled (store s')) items).
Proof.
  revert s. induction copies as [|m copies IH]; intros s Hinv H.
  - injection H as <-. split; [done|]. split; [apply keeps_others_refl|].
    split; [done|]. intros lm em lcont items Hin. by apply elem_of_nil in Hin.
  - cbn [for_each] in H. apply bind_ok_inv in H as ([] & s1 & Hm & H).
    destruct (rewrite_message_spec st1 m s s1 Hinv Hm)
      as (Hinv1 & Hk1 & Ht1 & Hparts1).
    destruct (IH s1 Hinv1 H) as (Hinv' & Hk2 & Ht2 & Hparts2).
    split; [done|]. split; [by eapply keeps_others_trans|].
    split; [congruence|].
    intros lm em lcont items Hin Hlm Hc Hl.
    apply elem_of_cons in Hin as [<-|Hin]; [|by eapply Hparts2].
    destruct (proj1 (rewrite_inv_content st1 (store s) lm (VRef lcont) Hinv))
      as (em1 & Hlm1 & Hc1); [by exists em|].
    apply (rewrite_inv_list st1 (store s) lcont items Hinv) in Hl.
    eapply Forall_impl; [by eapply Hparts1|].
    intros v. by apply settled_keeps.
Qed.

(** What the invariant says of a part that is out of the image form at the
    end: it was rewritten if it was an image part, and is as it was if not. *)
Lemma settled_part (st1 st : list obj) (lp : loc) (e : gmap string val) :
  Inv st1 st ->
  settled st (VRef lp) ->
  st1 !! lp = Some (ODict e) ->
  (is_image_url e -> Rewritten st1 st lp)
  /\ (~ is_image_url e -> st !! lp = Some (ODict e)).
Proof.
  intros (Hlen & Hold & Hnew) (lp' & e' & [= <-] & Hst & Hne) Hst1.
  assert (Hlt : lp < length st1) by (by eapply lookup_lt_Some).
  destruct (Hold lp Hlt) as [Heq|Hre].
  - split; [|by rewrite Heq]. intros Himg. exfalso.
    rewrite Heq, Hst1 in Hst. injection Hst as <-. done.
  - split; [done|]. intros Hne'. exfalso.
    destruct Hre as (e0 & _ & _ & _ & _ & Hst1' & Himg & _).
    rewrite Hst1 in Hst1'. injection Hst1' as <-. done.
Qed.

End rewrite_loop.

(** ** From the caller's conversation to the Claude messages *)

Lemma as_list_ok_inv (v : val) (s s' : state) (l : loc) (items : list val) :
  Py.as_list v s = (s', Ok (l, items)) ->
  s' = s /\ v = VRef l /\ store s !! l = Some (OList items).
Proof.
  unfold Py.as_list, Py.deref. intros H.
  destruct v as [| | | |l0]; try discriminate H.
  rewrite !bind_run in H. unfold Py.load in H.
  destruct (store s !! l0) as [[items0|e]|] eqn:Hl; cbn in H;
    try discriminate H.
  by injection H as <- <- <-.
Qed.

Lemma dict_get_ok_inv (d : val) (key : string) (s s' : state) (v : val) :
  Py.dict_get d key s = (s', Ok v) ->
  s' = s /\ exists e, dict_at (store s) d = Some e
                      /\ v = default VNone (e !! key).
Proof.
  unfold Py.dict_get, Py.deref, dict_at. intros H.
  destruct d as [| | | |l]; try discriminate H.
  rewrite !bind_run in H. unfold Py.load in H.
  destruct (store s !! l) as [[items|e]|] eqn:Hl; cbn in H;
    try discriminate H.
  injection H as <- <-. eauto.
Qed.

Lemma dict_copy_ok_inv (d : val) (s s' : state) (v : val) :
  Py.dict_copy d s = (s', Ok v) ->
  exists e, dict_at (store s) d = Some e
            /\ s' = State (store s ++ [ODict e]) (trace s)
            /\ v = VRef (length (store s)).
Proof.
  unfold Py.dict_copy, Py.deref, dict_at. intros H.
  destruct d as [| | | |l]; try discriminate H.
  rewrite !bind_run in H. unfold Py.load in H.
  destruct (store s !! l) as [[items|e]|] eqn:Hl; cbn in H;
    try discriminate H.
  injection H as <- <-. eauto.
Qed.

Lemma dict_at_app (st ext : list obj) (v : val) (e : gmap string val) :
  dict_at st v = Some e -> dict_at (st ++ ext) v = Some e.
Proof.
  unfold dict_at. destruct v as [| | | |l]; try done.
  destruct (st !! l) as [o|] eqn:Hl; [|done].
  by rewrite (lookup_app_l_Some _ _ _ _ Hl).
Qed.

(** [[dict(message) for message in ...]]: one new dict per message, in
    order, after the store. *)
Lemma map_each_dict_copy_spec (xs : list val) (s s' : state) (copies : list val) :
  map_each Py.dict_copy xs s = (s', Ok copies) ->
  exists es,
    Forall2 (fun x e => dict_at (store s') x = Some e) xs es
    /\ s' = State (store s ++ (ODict <$> es)) (trace s)
    /\ copies = VRef <$> seq (length (store s)) (length xs).
Proof.
  revert s copies. induction xs as [|x xs IH]; intros s copies H.
  - injection H as <- <-. exists []. split; [constructor|].
    cbn. rewrite app_nil_r. by destruct s.
  - cbn [map_each] in H.
    apply bind_ok_inv in H as (y & s1 & Hx & H).
    apply bind_ok_inv in H as (ys & s2 & Hxs & H).
    injection H as <- <-.
    apply dict_copy_ok_inv in Hx as (e & He & -> & ->).
    apply IH in Hxs as (es & Hes & -> & ->).
    exists (e :: es). cbn [store trace] in *. split; [|split].
    + constructor; [|done]. rewrite <- app_assoc. by apply dict_at_app.
    + by rewrite <- app_assoc.
    + cbn. rewrite length_app. cbn. by rewrite Nat.add_1_r.
Qed.

Lemma rename_val_ref (memo : gmap loc loc) (l y : loc) :
  memo !! l = Some y -> rename_val memo (VRef l) = VRef y.
Proof. intros H. cbn. by rewrite H. Qed.

Lemma rename_val_ref_inv (memo : gmap loc loc) (v : val) (y : loc) :
  val_in memo v -> rename_val memo v = VRef y ->
  exists l, v = VRef l /\ memo !! l = Some y.
Proof.
  destruct v as [| | | |l]; try done. cbn. intros [z Hz]. rewrite Hz.
  intros [= <-]. eauto.
Qed.

Lemma is_image_url_rename (memo : gmap loc loc) (e : gmap string val) :
  is_image_url (rename_val memo <$> e) <-> is_image_url e.
Proof.
  unfold is_image_url. rewrite lookup_fmap.
  destruct (e !! "type") as [[| | | |l]|]; cbn; try done.
  destruct (memo !! l); split; intros [=].
Qed.

Section copied_facts.

Variable h0 : list obj.
Variable memo : gmap loc loc.
Variable st : list obj.
Hypothesis all_copied :
  forall l z, memo !! l = Some z -> copied h0 memo st l.

Lemma copied_at_list (l : loc) (items : list val) :
  val_in memo (VRef l) ->
  h0 !! l = Some (OList items) ->
  exists y, memo !! l = Some y /\ length h0 <= y
            /\ st !! y = Some (OList (rename_val memo <$> items))
            /\ Forall (val_in memo) items.
Proof.
  intros [y Hy] Hl.
  destruct (all_copied l y Hy) as (o & y' & Ho & Hy' & Hin & Hge & Hst).
  assert (y' = y) as -> by congruence.
  assert (o = OList items) as -> by congruence.
  exists y. by repeat split.
Qed.

Lemma copied_at_dict (l : loc) (e : gmap string val) :
  val_in memo (VRef l) ->
  h0 !! l = Some (ODict e) ->
  exists y, memo !! l = Some y /\ length h0 <= y
            /\ st !! y = Some (ODict (rename_val memo <$> e))
            /\ map_Forall (fun _ v => val_in memo v) e.
Proof.
  intros [y Hy] Hl.
  destruct (all_copied l y Hy) as (o & y' & Ho & Hy' & Hin & Hge & Hst).
  assert (y' = y) as -> by congruence.
  assert (o = ODict e) as -> by congruence.
  exists y. by repeat split.
Qed.

(** The data URL of the copy of an image part is the copy of the data URL
    of the part. *)
Lemma data_url_rename (e : gmap string val) (url' : val) :
  map_Forall (fun _ v => val_in memo v) e ->
  data_url st (rename_val memo <$> e) = Some url' ->
  exists url, data_url h0 e = Some url /\ url' = rename_val memo url.
Proof.
  intros Hin. unfold data_url. rewrite lookup_fmap.
  destruct (e !! "image_url") as [v|] eqn:Hv; [|done]. cbn.
  pose proof (Hin _ _ Hv) as Hvin.
  destruct v as [| | | |li]; try done. cbn in *.
  destruct Hvin as [y Hy]. rewrite Hy.
  destruct (all_copied li y Hy) as (o & y' & Ho & Hy' & _ & _ & Hst).
  assert (y' = y) as -> by congruence.
  rewrite Hst, Ho. destruct o as [items|eu]; [done|]. cbn.
  rewrite lookup_fmap. destruct (eu !! "url") as [url|]; [|done].
  cbn. intros [= <-]. eauto.
Qed.

End copied_facts.

Lemma dict_at_Some (st : list obj) (v : val) (e : gmap string val) :
  dict_at st v = Some e <-> exists l, v = VRef l /\ st !! l = Some (ODict e).
Proof.
  unfold dict_at. split.
  - destruct v as [| | | |l]; try done.
    destruct (st !! l) as [[|e0]|] eqn:Hl; try done. intros [= <-]. eauto.
  - intros (l & -> & ->). done.
Qed.

Lemma list_at_Some (st : list obj) (v : val) (items : list val) :
  list_at st v = Some items <-> exists l, v = VRef l /\ st !! l = Some (OList items).
Proof.
  unfold list_at. split.
  - destruct v as [| | | |l]; try done.
    destruct (st !! l) as [[items0|]|] eqn:Hl; try done. intros [= <-]. eauto.
  - intros (l & -> & ->). done.
Qed.

Lemma content_part_Some (st : list obj) (msgs : list val) (i j : nat)
    (e : gmap string val) :
  content_part st msgs i j = Some e <->
  exists lm em lcont parts lp,
    msgs !! i = Some (VRef lm) /\ st !! lm = Some (ODict em)
    /\ em !! "content" = Some (VRef lcont)
    /\ st !! lcont = Some (OList parts)
    /\ parts !! j = Some (VRef lp) /\ st !! lp = Some (ODict e).
Proof.
  unfold content_part. split.
  - destruct (msgs !! i) as [m|]; [|done].
    destruct (dict_at st m) as [em|] eqn:Hm; [|done].
    apply dict_at_Some in Hm as (lm & -> & Hlm).
    destruct (em !! "content") as [c|] eqn:Hc; [|done].
    destruct (list_at st c) as [parts|] eqn:Hparts; [|done].
    apply list_at_Some in Hparts as (lcont & -> & Hlcont).
    destruct (parts !! j) as [p|] eqn:Hp; [|done].
    intros He. apply dict_at_Some in He as (lp & -> & Hlp).
    by exists lm, em, lcont, parts, lp.
  - intros (lm & em & lcont & parts & lp & -> & Hlm & Hc & Hlcont & Hp & Hlp).
    cbn. rewrite Hlm, Hc. cbn. rewrite Hlcont, Hp. cbn. by rewrite Hlp.
Qed.

Section translate_spec.

Import Py Claude.

Variable process_image : val -> result (string * string).

Lemma deepcopy_spec (x : val) (s s' : state) (y : val) :
  closed_store (store s) ->
  deepcopy x s = (s', Ok y) ->
  exists memo,
    store s `prefix_of` store s'
    /\ trace s' = trace s
    /\ y = rename_val memo x
    /\ val_in memo x
    /\ (forall l z, memo !! l = Some z -> copied (store s) memo (store s') l).
Proof.
  intros Hclosed H. unfold deepcopy, deepcopy_memo in H.
  apply bind_ok_inv in H as ([y' memo] & s1 & H & Hret).
  injection Hret as <- <-.
  apply bind_ok_inv in H as (s0 & s0' & Hget & H).
  injection Hget as <- <-.
  assert (Hx : val_closed (length (store s)) x).
  { destruct x as [| | | |l]; try done. cbn.
    destruct (decide (l < length (store s))) as [|Hge]; [done|]. exfalso.
    cbn [deepcopy_rec] in H. rewrite lookup_empty, bind_run in H.
    unfold load in H. rewrite lookup_ge_None_2 in H by lia. discriminate H. }
  eapply (deepcopy_rec_spec (store s) Hclosed) in H
    as ((Hp & Ht & _ & _ & Hnew) & -> & Hin);
    [|done|apply map_Forall_empty|done].
  exists memo. repeat (split; [done|]).
  intros l z Hl. by apply (Hnew l z).
Qed.

(** A translation that returns, taken apart: the deep copy with its memo,
    the shallow copies [es] of the messages after the first, the list of
    them, and the run of the rewriting loop from there. *)
Lemma translate_ok_inv (messages : val) (l : loc) (conversation : list val)
    (s s' : state) (system_prompt claude_messages : val) :
  closed_store (store s) ->
  messages = VRef l ->
  store s !! l = Some (OList conversation) ->
  translate process_image messages s
  = (s', Ok (system_prompt, claude_messages)) ->
  exists memo first rest stA es,
    let copies := VRef <$> seq (length stA) (length rest) in
    let stC := stA ++ (ODict <$> es) ++ [OList copies] in
    conversation = first :: rest
    /\ store s `prefix_of` stA
    /\ val_in memo (VRef l)
    /\ (forall l z, memo !! l = Some z -> copied (store s) memo stA l)
    /\ Forall2 (fun x e => dict_at (stA ++ (ODict <$> es)) (rename_val memo x)
                           = Some e) rest es
    /\ (exists e1, dict_at stA (rename_val memo first) = Some e1
                   /\ system_prompt = default VNone (e1 !! "content"))
    /\ claude_messages = VRef (length stA + length rest)
    /\ for_each (rewrite_message process_image) copies (State stC (trace s))
       = (s', Ok tt).
Proof.
  intros Hclosed -> Hl H. unfold translate in H.
  apply bind_ok_inv in H as (cloned & sA & Hdeep & H).
  apply (deepcopy_spec _ _ _ _ Hclosed) in Hdeep
    as (memo & Hpre & Htr & -> & Hin & Hall).
  apply bind_ok_inv in H as ([lcl cl] & sA' & Has & H).
  apply as_list_ok_inv in Has as (-> & Hcl & Hlcl).
  destruct (copied_at_list _ _ _ Hall l conversation Hin Hl)
    as (y & Hy & Hge & Hsty & Hins).
  rewrite (rename_val_ref _ _ _ Hy) in Hcl. injection Hcl as <-.
  rewrite Hsty in Hlcl. injection Hlcl as <-.
  destruct conversation as [|first rest]; [discriminate H|].
  cbn [fmap list_fmap] in H.
  apply bind_ok_inv in H as (sp & sA' & Hsp & H).
  apply dict_get_ok_inv in Hsp as (-> & e1 & He1 & ->).
  apply bind_ok_inv in H as (copies & sB & Hcopies & H).
  apply map_each_dict_copy_spec in Hcopies as (es & Hes & -> & ->).
  rewrite bind_run, new_list_run in H. cbn [store trace] in H.
  apply bind_ok_inv in H as ([] & sD & Hloop & H).
  injection H as <- <- <-.
  assert (Hlen : length es = length rest).
  { apply Forall2_length in Hes. by rewrite length_fmap in Hes. }
  exists memo, first, rest, (store sA), es. cbn zeta.
  split; [done|]. split; [done|]. split; [done|]. split; [done|].
  split; [|split; [by eauto|split]].
  - cbn [store] in Hes. by apply Forall2_fmap_l in Hes.
  - rewrite length_app, !length_fmap, Hlen. done.
  - rewrite length_fmap, <- app_assoc, Htr in Hloop. exact Hloop.
Qed.

(** C7, as the code has it.  For every conversation that
    [stream_claude_response] translates, each content part of each message
    after the first appears, at the same place in the list of messages sent,
    as follows.  A part whose type is [image_url] is rewritten: its type is
    [image], it has no [image_url] entry, and its [source] entry refers to
    a dict holding the type [base64], the media type and the data that
    [process_image] makes of the part's data URL.  Any other part is the
    copy of the original, entry for entry, whatever it carries.  No content
    part of a message sent is left with the type [image_url].  Nothing is
    said of the content of the first message, which is the system prompt,
    nor of what lies inside a part. *)
Theorem translate_rewrites_images (messages : val) (l : loc)
    (conversation : list val) (s s' : state)
    (system_prompt claude_messages : val) :
  closed_store (store s) ->
  messages = VRef l ->
  store s !! l = Some (OList conversation) ->
  translate process_image messages s
  = (s', Ok (system_prompt, claude_messages)) ->
  exists memo out,
    list_at (store s') claude_messages = Some out
    /\ length out = length conversation - 1
    /\ (forall i j e,
          content_part (store s) conversation (S i) j = Some e ->
          exists e',
            content_part (store s') out i j = Some e'
            /\ (is_image_url e ->
                exists url media_type base64_data source,
                  data_url (store s) e = Some url
                  /\ process_image (rename_val memo url)
                     = Ok (media_type, base64_data)
                  /\ e' = image_part (rename_val memo <$> e) source
                  /\ e' !! "type" = Some (VStr "image")
                  /\ e' !! "image_url" = None
                  /\ e' !! "source" = Some (VRef source)
                  /\ dict_at (store s') (VRef source)
                     = Some (source_dict media_type base64_data))
            /\ (~ is_image_url e -> e' = rename_val memo <$> e))
    /\ (forall i j e',
          content_part (store s') out i j = Some e' -> ~ is_image_url e').
Proof.
  intros Hclosed Hm Hl H.
  destruct (translate_ok_inv messages l conversation s s' system_prompt
              claude_messages Hclosed Hm Hl H)
    as (memo & first & rest & stA & es & Hconv & Hpre & Hin & Hall & Hes
        & _ & -> & Hloop).
  cbn zeta in Hloop.
  set (copies := VRef <$> seq (length stA) (length rest)) in *.
  set (stC := stA ++ (ODict <$> es) ++ [OList copies]) in *.
  assert (Hlen : length es = length rest) by (by apply Forall2_length in Hes).
  destruct (rewrite_messages_spec process_image stC copies
              (State stC (trace s)) s'
              (rewrite_inv_refl process_image stC) Hloop)
    as (Hinv & _ & _ & Hparts).
  cbn [store] in Hinv.
  assert (HallC : forall l z, memo !! l = Some z ->
                    copied (store s) memo stC l).
  { intros l0 z Hz. eapply copied_mono; [done| |by eapply Hall].
    by apply prefix_app_r. }
  assert (HstC_old : forall k o, stA !! k = Some o -> stC !! k = Some o).
  { intros k o Hk. subst stC. by apply lookup_app_l_Some. }
  assert (Hcopy_i : forall i e1, es !! i = Some e1 ->
            copies !! i = Some (VRef (length stA + i))
            /\ stC !! (length stA + i) = Some (ODict e1)).
  { intros i e1 Hi. assert (i < length es) by (by eapply lookup_lt_Some).
    split.
    - subst copies. rewrite list_lookup_fmap, lookup_seq_lt by lia. done.
    - subst stC. rewrite lookup_app_r by lia.
      rewrite lookup_app_l by (rewrite length_fmap; lia).
      replace (length stA + i - length stA) with i by lia.
      by rewrite list_lookup_fmap, Hi. }
  exists memo, copies. split; [|split; [|split]].
  - apply list_at_Some. exists (length stA + length rest). split; [done|].
    apply (rewrite_inv_list process_image stC (store s') _ _ Hinv).
    subst stC. rewrite lookup_app_r by lia.
    rewrite lookup_app_r by (rewrite length_fmap; lia).
    rewrite length_fmap.
    replace (length stA + length rest - length stA - length es) with 0 by lia.
    done.
  - subst copies conversation. rewrite length_fmap, length_seq. cbn. lia.
  - intros i j e Hpart. subst conversation. cbn [lookup] in Hpart.
    apply content_part_Some in Hpart
      as (lm & em & lcont & parts & lp & Hi & Hlm & Hc & Hlcont & Hj & Hlp).
    change ((first :: rest) !! S i) with (rest !! i) in Hi.
    destruct (copied_at_list _ _ _ Hall l (first :: rest) Hin Hl)
      as (y & _ & _ & _ & Hins).
    apply Forall_cons in Hins as [_ Hins].
    pose proof (proj1 (Forall_lookup _ _) Hins i _ Hi) as Hlm_in.
    destruct (copied_at_dict _ _ _ Hall lm em Hlm_in Hlm)
      as (ym & Hym & _ & Hstm & Hem_in).
    pose proof (Hem_in _ _ Hc) as Hlcont_in.
    destruct (copied_at_list _ _ _ Hall lcont parts Hlcont_in Hlcont)
      as (ycont & Hycont & _ & Hstcont & Hparts_in).
    pose proof (proj1 (Forall_lookup _ _) Hparts_in j _ Hj) as Hlp_in.
    destruct (copied_at_dict _ _ _ Hall lp e Hlp_in Hlp)
      as (yp & Hyp & _ & Hstp & He_in).
    destruct (Forall2_lookup_l _ _ _ _ _ Hes Hi) as (ei & Hei & Hdict).
    rewrite (rename_val_ref _ _ _ Hym) in Hdict. cbn in Hdict.
    rewrite (lookup_app_l_Some _ _ _ _ Hstm) in Hdict. injection Hdict as <-.
    destruct (Hcopy_i i _ Hei) as [Hci HstCi].
    assert (Hcontent : (rename_val memo <$> em) !! "content"
                       = Some (VRef ycont)).
    { rewrite lookup_fmap, Hc. cbn. by rewrite Hycont. }
    assert (Hset : settled (store s') (VRef yp)).
    { eapply (proj1 (Forall_lookup _ _)
                (Hparts (length stA + i) _ ycont _
                   ltac:(by eapply list_elem_of_lookup_2) HstCi Hcontent
                   (HstC_old _ _ Hstcont))).
      rewrite list_lookup_fmap, Hj. cbn. by rewrite Hyp. }
    destruct (settled_part process_image stC (store s') yp _ Hinv Hset
                (HstC_old _ _ Hstp)) as [Himg Hother].
    assert (Hout : forall e',
              store s' !! yp = Some (ODict e') ->
              content_part (store s') copies i j = Some e').
    { intros e' He'. apply content_part_Some.
      destruct (proj1 (rewrite_inv_content process_image stC (store s')
                         (length stA + i) (VRef ycont) Hinv))
        as (em' & Hlm' & Hc'); [by eauto|].
      exists (length stA + i), em', ycont, (rename_val memo <$> parts), yp.
      split; [done|]. split; [done|]. split; [done|].
      split; [by apply (rewrite_inv_list process_image stC _ _ _ Hinv),
                HstC_old|].
      split; [|done]. rewrite list_lookup_fmap, Hj. cbn. by rewrite Hyp. }
    destruct (decide (is_image_url e)) as [He|He].
    + destruct Himg as (e0 & url' & mt & d & src & He0 & _ & Hurl & Hp
                        & Hst' & _ & Hsrc);
        [by apply is_image_url_rename|].
      rewrite (HstC_old _ _ Hstp) in He0. injection He0 as <-.
      destruct (data_url_rename _ _ _ HallC e url' He_in Hurl)
        as (url & Hurl0 & ->).
      exists (image_part (rename_val memo <$> e) src).
      split; [by apply Hout|]. split; [|done].
      intros _. exists url, mt, d, src.
      destruct (image_part_not_image_url (rename_val memo <$> e) src)
        as (_ & H1 & H2 & H3).
      repeat (split; [done|]). cbn. by rewrite Hsrc.
    + exists (rename_val memo <$> e).
      assert (Hst' : store s' !! yp = Some (ODict (rename_val memo <$> e))).
      { apply Hother. by rewrite is_image_url_rename. }
      split; [by apply Hout|]. split; [done|done].
  - intros i j e' Hpart.
    apply content_part_Some in Hpart
      as (lm & em' & lcont & parts & lp & Hi & Hlm & Hc & Hlcont & Hj & Hlp).
    destruct (proj2 (rewrite_inv_content process_image stC (store s')
                       lm (VRef lcont) Hinv))
      as (em & Hlm1 & Hc1); [by eauto|].
    apply (rewrite_inv_list process_image stC (store s') _ _ Hinv) in Hlcont.
    pose proof (Hparts lm em lcont parts
                  ltac:(by eapply list_elem_of_lookup_2) Hlm1 Hc1 Hlcont)
      as Hall_set.
    destruct (proj1 (Forall_lookup _ _) Hall_set j _ Hj)
      as (lp' & e'' & [= <-] & Hlp' & Hne).
    congruence.
Qed.

End translate_spec.

(** ** The exceptions of the translation *)

Lemma raises_only_weaken {A} (P Q : exn -> Prop) (m : M A) :
  raises_only P m -> (forall e, P e -> Q e) -> raises_only Q m.
Proof. intros Hm HPQ s s' e H. by eapply HPQ, Hm. Qed.

Lemma raises_only_for_each {A} (P : exn -> Prop) (f : A -> M unit)
    (xs : list A) :
  (forall x, raises_only P (f x)) -> raises_only P (for_each f xs).
Proof.
  intros Hf. induction xs as [|x xs IH]; cbn.
  - apply raises_only_ret.
  - apply raises_only_bind; [apply Hf | intros _; apply IH].
Qed.

Lemma raises_only_map_each {A B} (P : exn -> Prop) (f : A -> M B)
    (xs : list A) :
  (forall x, raises_only P (f x)) -> raises_only P (map_each f xs).
Proof.
  intros Hf. induction xs as [|x xs IH]; cbn.
  - apply raises_only_ret.
  - apply raises_only_bind; [apply Hf|]. intros y.
    apply raises_only_bind; [apply IH|]. intros ys. apply raises_only_ret.
Qed.

Section store_errors.

Import Py Claude.

Variable process_image : val -> result (string * string).

#[local] Abbreviation SE := (raises_only store_error).

Lemma store_error_load (l : loc) : SE (load l).
Proof.
  intros s s' e. unfold load. destruct (store s !! l); intros [= _ <-]. done.
Qed.

Lemma store_error_alloc (o : obj) : SE (alloc o).
Proof. intros s s' e [=]. Qed.

Lemma store_error_write (l : loc) (o : obj) : SE (write l o).
Proof. intros s s' e [=]. Qed.

Lemma store_error_deref (e0 : exn) (v : val) :
  store_error e0 -> SE (deref e0 v).
Proof.
  intros He0. unfold deref. destruct v; try by apply raises_only_raise.
  apply raises_only_bind; [apply store_error_load|].
  intros o. apply raises_only_ret.
Qed.

Lemma store_error_as_list (v : val) : SE (as_list v).
Proof. by apply raises_only_as_list. Qed.

Lemma store_error_isinstance_list (v : val) : SE (isinstance_list v).
Proof.
  unfold isinstance_list. destruct v; try apply raises_only_ret.
  apply raises_only_bind; [apply store_error_load|].
  intros [items|e]; apply raises_only_ret.
Qed.

Lemma store_error_getitem (d : val) (key : string) : SE (getitem d key).
Proof.
  unfold getitem. apply raises_only_bind; [by apply store_error_deref|].
  intros [l [items|e]]; [by apply raises_only_raise|].
  destruct (e !! key); [apply raises_only_ret | by apply raises_only_raise].
Qed.

Lemma store_error_setitem (d : val) (key : string) (v : val) :
  SE (setitem d key v).
Proof.
  unfold setitem. apply raises_only_bind; [by apply store_error_deref|].
  intros [l [items|e]]; [by apply raises_only_raise|].
  apply store_error_write.
Qed.

Lemma store_error_delitem (d : val) (key : string) : SE (delitem d key).
Proof.
  unfold delitem. apply raises_only_bind; [by apply store_error_deref|].
  intros [l [items|e]]; [by apply raises_only_raise|].
  destruct (e !! key); [apply store_error_write | by apply raises_only_raise].
Qed.

Lemma store_error_dict_get (d : val) (key : string) : SE (dict_get d key).
Proof.
  unfold dict_get. apply raises_only_bind; [by apply store_error_deref|].
  intros [l [items|e]]; [by apply raises_only_raise | apply raises_only_ret].
Qed.

Lemma store_error_dict_copy (d : val) : SE (dict_copy d).
Proof.
  unfold dict_copy. apply raises_only_bind; [by apply store_error_deref|].
  intros [l [items|e]]; [by apply raises_only_raise|].
  apply raises_only_bind; [apply store_error_alloc|].
  intros l'. apply raises_only_ret.
Qed.

Lemma store_error_copy_all (cp : val -> gmap loc loc -> M (val * gmap loc loc))
    (xs : list val) (memo : gmap loc loc) :
  (forall x memo, SE (cp x memo)) -> SE (copy_all cp xs memo).
Proof.
  intros Hcp. revert memo. induction xs as [|x xs IH]; intros memo; cbn.
  - apply raises_only_ret.
  - apply raises_only_bind; [apply Hcp|]. intros [y memo1].
    apply raises_only_bind; [apply IH|]. intros [ys memo2].
    apply raises_only_ret.
Qed.

Lemma store_error_deepcopy_rec (fuel : nat) (x : val) (memo : gmap loc loc) :
  SE (deepcopy_rec fuel x memo).
Proof.
  revert x memo. induction fuel as [|fuel IH]; intros x memo;
    destruct x as [| | | |l]; cbn [deepcopy_rec]; try apply raises_only_ret;
    destruct (memo !! l); try apply raises_only_ret;
    [by apply raises_only_raise|].
  apply raises_only_bind; [apply store_error_load|].
  intros [items|entries].
  - apply raises_only_bind; [apply store_error_alloc|]. intros y.
    apply raises_only_bind; [by apply store_error_copy_all|].
    intros [items' memo'].
    apply raises_only_bind; [apply store_error_write|]. intros _.
    apply raises_only_ret.
  - apply raises_only_bind; [apply store_error_alloc|]. intros y.
    apply raises_only_bind; [by apply store_error_copy_all|].
    intros [vals' memo'].
    apply raises_only_bind; [apply store_error_write|]. intros _.
    apply raises_only_ret.
Qed.

Lemma store_error_deepcopy (x : val) : SE (deepcopy x).
Proof.
  unfold deepcopy, deepcopy_memo.
  apply raises_only_bind.
  - apply raises_only_bind; [apply raises_only_get_state|].
    intros s. apply store_error_deepcopy_rec.
  - intros [y memo]. apply raises_only_ret.
Qed.

#[local] Abbreviation TE := (raises_only (translation_error process_image)).

Lemma store_error_translation {A} (m : M A) : SE m -> TE m.
Proof.
  intros H. eapply raises_only_weaken; [exact H|]. intros e He. by left.
Qed.

(** The rewriting raises what the store operations raise and what
    [process_image] raises, nothing else. *)
Lemma translation_error_rewrite_content (c : val) :
  TE (rewrite_content process_image c).
Proof.
  unfold rewrite_content.
  apply raises_only_bind; [apply store_error_translation, store_error_getitem|].
  intros ty. case_bool_decide; [|apply raises_only_ret].
  apply raises_only_bind; [apply store_error_translation, store_error_setitem|].
  intros _.
  apply raises_only_bind; [apply store_error_translation, store_error_getitem|].
  intros iu.
  apply raises_only_bind; [apply store_error_translation, store_error_getitem|].
  intros url.
  apply raises_only_bind.
  { unfold call_process_image.
    destruct (process_image url) as [r|e] eqn:Hp;
      [apply raises_only_ret | apply raises_only_raise; right; by eauto]. }
  intros [media_type base64_data].
  apply raises_only_bind; [apply store_error_translation, store_error_delitem|].
  intros _.
  apply raises_only_bind; [apply raises_only_new_dict|]. intros source.
  apply store_error_translation, store_error_setitem.
Qed.

Lemma translation_error_rewrite_message (m : val) :
  TE (rewrite_message process_image m).
Proof.
  unfold rewrite_message.
  apply raises_only_bind; [apply store_error_translation, store_error_getitem|].
  intros c.
  apply raises_only_bind;
    [apply store_error_translation, store_error_isinstance_list|].
  intros [items|]; [|apply raises_only_ret].
  apply raises_only_for_each. apply translation_error_rewrite_content.
Qed.

End store_errors.

(** ** The first message of the conversation *)

Section first_message.

Import Registry Py Claude.

Variable process_image : val -> result (string * string).
Variable messages_stream : state -> request -> outcome.

(** The translation makes no call and no callback. *)
Lemma translate_trace (messages : val) (s : state) :
  trace (translate process_image messages s).1 = trace s.
Proof.
  destruct (extends_translate process_image (fun t => t = trace s) (store s)
              messages s) as [[Ht _] _]; [|done].
  split; [done|]. exists []. by rewrite app_nil_r.
Qed.

Lemma deepcopy_empty_list (l : loc) (s : state) :
  store s !! l = Some (OList []) ->
  deepcopy (VRef l) s
  = (State (<[length (store s) := OList []]> (store s ++ [OList []]))
       (trace s),
     Ok (VRef (length (store s)))).
Proof.
  intros Hl. unfold deepcopy, deepcopy_memo.
  rewrite !bind_run. cbn [get_state deepcopy_rec].
  rewrite lookup_empty, bind_run, (load_run _ _ _ Hl).
  reflexivity.
Qed.

Lemma translate_empty (l : loc) (s : state) :
  store s !! l = Some (OList []) ->
  (translate process_image (VRef l) s).2 = Raise IndexError.
Proof.
  intros Hl. unfold translate.
  rewrite bind_run, (deepcopy_empty_list _ _ Hl), bind_run.
  rewrite (as_list_run (length (store s)) []); [reflexivity|].
  cbn [store]. apply list_lookup_insert_eq. rewrite length_app. cbn. lia.
Qed.

(** With a first message, the translation raises what the store operations
    raise and what [process_image] raises: an [IndexError] is then one of
    [process_image]. *)
Lemma translate_nonempty (l : loc) (first : val) (rest : list val) (s : state) :
  closed_store (store s) ->
  store s !! l = Some (OList (first :: rest)) ->
  (translate process_image (VRef l) s).2 = Raise IndexError ->
  exists url, process_image url = Raise IndexError.
Proof.
  intros Hclosed Hl. unfold translate. rewrite bind_run.
  destruct (deepcopy (VRef l) s) as [sA [cloned|e]] eqn:Hd; cbn [snd].
  2:{ intros [= ->]. by destruct (store_error_deepcopy _ _ _ _ Hd). }
  apply (deepcopy_spec _ _ _ _ Hclosed) in Hd
    as (memo & Hpre & Htr & -> & Hin & Hall).
  destruct (copied_at_list _ _ _ Hall l _ Hin Hl)
    as (y & Hy & _ & Hsty & _).
  rewrite (rename_val_ref _ _ _ Hy), bind_run, (as_list_run _ _ _ Hsty).
  cbn [fmap list_fmap].
  set (rest_of := bind _ _).
  assert (Hrest : raises_only (translation_error process_image) rest_of).
  { subst rest_of.
    apply raises_only_bind;
      [apply store_error_translation, store_error_dict_get|].
    intros sp.
    apply raises_only_bind.
    { apply raises_only_map_each.
      intros x. apply store_error_translation, store_error_dict_copy. }
    intros copies.
    apply raises_only_bind.
    { intros s0 s1 e H. discriminate H. }
    intros cm.
    apply raises_only_bind.
    { apply raises_only_for_each. apply translation_error_rewrite_message. }
    intros _. apply raises_only_ret. }
  destruct (rest_of sA) as [sB [r|e]] eqn:Hr; [done|].
  intros [= ->]. by destruct (Hrest _ _ _ Hr) as [[]|Hp].
Qed.


End first_message.

(** ** The translation on the example conversation *)

Lemma image_store_closed : closed_store image_store.
Proof.
  unfold closed_store, image_store.
  repeat (apply Forall_cons; split); try apply Forall_nil;
    cbn [obj_closed length];
    try (apply map_Forall_to_list; vm_compute);
    repeat (apply Forall_cons; split); try apply Forall_nil;
    cbn [val_closed]; try exact I; lia.
Qed.



Lemma translate_rewrites_images_witness :
  let r := Claude.translate example_process_image (VRef 0) image_state in
  closed_store image_store
  /\ exists out e',
       list_at (store r.1) (VRef 15) = Some out
       /\ content_part (store r.1) out 0 1 = Some e'
       /\ e' !! "type" = Some (VStr "image")
       /\ e' !! "image_url" = None
       /\ exists source,
            e' !! "source" = Some (VRef source)
            /\ dict_at (store r.1) (VRef source)
               = Some (source_dict "image/png" "data:image/png;base64,AAAA").
Proof.
  intros r. split; [exact image_store_closed|].
  assert (Hr : r = (r.1, Ok (VStr "You write HTML.", VRef 15)))
    by (vm_compute; reflexivity).
  destruct (translate_rewrites_images example_process_image (VRef 0) 0
              [VRef 1; VRef 2] image_state r.1 _ _
              image_store_closed eq_refl eq_refl Hr)
    as (memo & out & Hout & _ & Hfwd & _).
  destruct (Hfwd 0 1 {[ "type" := VStr "image_url"; "image_url" := VRef 6 ]})
    as (e' & He' & Himg & _); [vm_compute; reflexivity|].
  destruct Himg as (url & mt & d & source & Hurl & Hp & _ & Hty & Hno & Hsrc
                    & Hdict); [vm_compute; reflexivity|].
  exists out, e'. repeat (split; [done|]).
  exists source. split; [done|].
  vm_compute in Hurl. injection Hurl as <-.
  cbn in Hp. injection Hp as <- <-. exact Hdict.
Defined.

(** C7 as the spec states it fails.  The first message of this conversation
    has an image part for its content, and the user message a text part
    that carries an [image_url] entry.  The call returns.  The system
    prompt it sent is the copy of the first message's content, with the
    part still of the type [image_url] and with its [image_url] entry; the
    text part of the message sent still carries its [image_url] entry.  So
    [image_url]-shaped fields remain in the payload. *)
Lemma stream_claude_response_sends_image_url :
  let run :=
    Claude.stream_claude_response example_process_image drafting_provider
      (VRef 0) "key" Registry.CLAUDE_3_OPUS system_image_state in
  run.2 = Ok "draft"
  /\ (fun rq => (rq_system rq, rq_messages rq)) <$> requests (trace run.1)
     = [(VRef 10, VRef 17)]
  /\ rq_store <$> requests (trace run.1) = [store run.1]
  /\ list_at (store run.1) (VRef 10) = Some [VRef 11]
  /\ dict_at (store run.1) (VRef 11)
     = Some {[ "type" := VStr "image_url"; "image_url" := VRef 12 ]}
  /\ list_at (store run.1) (VRef 17) = Some [VRef 16]
  /\ content_part (store run.1) [VRef 16] 0 0
     = Some {[ "type" := VStr "text"; "text" := VStr "Make a button";
               "image_url" := VRef 12 ]}
  /\ ~ (has_image_url 4 (store run.1) (VRef 10) = false
        /\ has_image_url 4 (store run.1) (VRef 17) = false).
Proof.
  intros run.
  repeat (split; [vm_compute; reflexivity|]).
  intros [H _]. vm_compute in H. discriminate H.
Qed.

(** * Further properties *)

(** ** Resolving a model twice *)

Section registry_round_trip.
Import Registry.

(** X1.  Every model is found again from its own identifier:
    [convert_frontend_str_to_llm (m.value)] is [m].  So resolving is
    idempotent: when a string, canonical or legacy, resolves to a model, the
    identifier of that model resolves to the same model, and the identifier
    is itself never a legacy short name. *)
Theorem convert_frontend_str_to_llm_round_trip (m : Llm) :
  convert_frontend_str_to_llm (value m) = Ok m
  /\ (forall s, convert_frontend_str_to_llm s = Ok m ->
        convert_frontend_str_to_llm (value m) = convert_frontend_str_to_llm s)
  /\ value m ∉ aliases.*1.
Proof.
  assert (H : convert_frontend_str_to_llm (value m) = Ok m)
    by (destruct m; reflexivity).
  split; [exact H|]. split.
  - intros s Hs. by rewrite H, Hs.
  - unfold aliases. cbn. rewrite !elem_of_cons, elem_of_nil.
    intros [Hm|[Hm|[]]]; destruct m; discriminate Hm.
Qed.

End registry_round_trip.

(** ** More on the OpenAI-compatible strategy *)

Lemma creates_app (t1 t2 : list event) :
  creates (t1 ++ t2) = creates t1 ++ creates t2.
Proof. apply omap_app. Qed.

Lemma creates_of_callbacks (texts : list string) :
  creates (ECallback <$> texts) = [].
Proof. induction texts as [|t ts IH]; simpl; [reflexivity | exact IH]. Qed.

Lemma closes_app (t1 t2 : list event) : closes (t1 ++ t2) = closes t1 + closes t2.
Proof. unfold closes. by rewrite omap_app, length_app. Qed.

Lemma closes_of_callbacks (texts : list string) :
  closes (ECallback <$> texts) = 0.
Proof. induction texts as [|t ts IH]; simpl; [reflexivity | exact IH]. Qed.

Lemma debug_writes_app (t1 t2 : list event) :
  debug_writes (t1 ++ t2) = debug_writes t1 ++ debug_writes t2.
Proof. apply omap_app. Qed.

Lemma debug_writes_of_callbacks (texts : list string) :
  debug_writes (ECallback <$> texts) = [].
Proof. induction texts as [|t ts IH]; simpl; [reflexivity | exact IH]. Qed.

(** Texts that are not empty concatenate to the empty string only when there
    are none. *)
Lemma concat_texts_empty (texts : list string) :
  Forall (fun text => text <> "") texts ->
  concat_texts texts = "" <-> texts = [].
Proof.
  intros Hne. split; [|by intros ->].
  destruct texts as [|t ts]; [done|].
  apply Forall_cons in Hne as [Ht _].
  destruct t as [|ch t]; [done|]. cbn. rewrite string_app_cons. discriminate.
Qed.

Lemma spec_delta_text_nonempty (cs : list ChatCompletionChunk) :
  Forall (fun text => text <> "") (omap spec_delta_text cs).
Proof.
  apply Forall_forall. intros text Hin.
  apply list_elem_of_omap in Hin as (chunk & _ & Hc).
  unfold spec_delta_text in Hc.
  destruct (choices chunk) as [|c0 ?]; [done|].
  destruct (delta c0) as [d|]; [|done].
  destruct (delta_content d) as [t|]; [|done].
  case_bool_decide; [done|]. by injection Hc as <-.
Qed.

Lemma spec_delta_text_first_choice (chunk : ChatCompletionChunk) :
  spec_delta_text (first_choice_only chunk) = spec_delta_text chunk.
Proof.
  unfold spec_delta_text, first_choice_only. cbn.
  by destruct (choices chunk).
Qed.

Section openai_more.
Import Registry OpenAI.

Variable create :
  state -> string -> option string -> gmap string param -> chunk_stream.

(** X2.  One call of [stream_openai_response] makes exactly one request to
    the provider, before the first callback, and never touches the store.
    The client is closed when, and only when, the stream ends normally, and
    then after the last callback: a stream that breaks leaves the call by
    the transport's error with the client still open, after the texts
    received so far have been handed to the callback. *)
Theorem stream_openai_response_closes_client (messages : val)
    (api_key : string) (base_url : option string) (model : Llm) (s : state) :
  let params := build_params messages model in
  let stream := create s api_key base_url params in
  let fragments := omap spec_delta_text (chunks stream) in
  let run := stream_openai_response create messages api_key base_url model s in
  store run.1 = store s
  /\ trace run.1
     = trace s ++ [EOpenAICreate api_key base_url params]
         ++ (ECallback <$> fragments)
         ++ (if ends_ok stream then [EClose] else [])
  /\ creates (trace run.1) = creates (trace s) ++ [(api_key, base_url, params)]
  /\ closes (trace run.1)
     = closes (trace s) + (if ends_ok stream then 1 else 0)
  /\ is_ok run.2 = ends_ok stream.
Proof.
  intros params stream fragments run. subst run.
  rewrite stream_openai_response_run. fold params stream fragments.
  cbn [fst snd store trace].
  split; [done|]. split; [done|]. split; [|split].
  - rewrite !creates_app, creates_of_callbacks. cbn.
    by destruct (ends_ok stream).
  - rewrite !closes_app, closes_of_callbacks. cbn.
    destruct (ends_ok stream); cbn; lia.
  - by destruct (ends_ok stream).
Qed.

(** X3.  Only the first choice of a chunk is read: the loop over the chunks
    does the same, callbacks and accumulated text alike, on the chunks cut
    down to their first choice.  A text carried by a second or later choice
    reaches neither the callback nor the result. *)
Theorem chunk_body_reads_first_choice (cs : list ChatCompletionChunk)
    (full_response : string) (s : state) :
  fold_each chunk_body cs full_response s
  = fold_each chunk_body (first_choice_only <$> cs) full_response s.
Proof.
  rewrite !fold_chunk_body.
  assert (H : omap spec_delta_text (first_choice_only <$> cs)
              = omap spec_delta_text cs).
  { induction cs as [|c cs IH]; [done|].
    cbn [fmap list_fmap omap list_omap].
    by rewrite spec_delta_text_first_choice, IH. }
  by rewrite H.
Qed.

(** X4.  [stream_openai_response] returns the empty string exactly when the
    stream ends normally without any chunk that carries a text, which is
    exactly when it returns without having called the callback. *)
Theorem stream_openai_response_empty_result (messages : val)
    (api_key : string) (base_url : option string) (model : Llm) (s : state) :
  let stream := create s api_key base_url (build_params messages model) in
  let run := stream_openai_response create messages api_key base_url model s in
  (run.2 = Ok ""
   <-> ends_ok stream = true /\ omap spec_delta_text (chunks stream) = [])
  /\ (run.2 = Ok ""
      <-> is_ok run.2 = true /\ callbacks (trace run.1) = callbacks (trace s)).
Proof.
  intros stream run. subst run.
  rewrite stream_openai_response_run. fold stream.
  cbn [fst snd trace].
  pose proof (concat_texts_empty _ (spec_delta_text_nonempty (chunks stream)))
    as Hempty.
  rewrite !callbacks_app, callbacks_of_callbacks.
  assert (Hcb : callbacks (if ends_ok stream then [EClose] else []) = [])
    by (by destruct (ends_ok stream)).
  rewrite Hcb, app_nil_r. cbn [callbacks omap list_omap app].
  destruct (ends_ok stream); cbn.
  - split.
    + split.
      * intros [= H]. by apply Hempty in H.
      * intros [_ H]. f_equal. by apply Hempty.
    + split.
      * intros [= H]. apply Hempty in H. rewrite H. by rewrite app_nil_r.
      * intros [_ H]. f_equal. apply Hempty.
        rewrite <- (app_nil_r (callbacks (trace s))) in H at 2.
        by apply app_inv_head in H.
  - split; split; try done; by intros [? _].
Qed.

(** X21.  The keyword dictionary of [stream_openai_response] holds the
    model's identifier, the caller's messages (the object itself, not a
    copy), [stream] on, [timeout] 600 and [temperature] 0.0, then
    [max_tokens] for the four models that get one, and no other entry. *)
Theorem build_params_entries (messages : val) (model : Llm) :
  map_to_list (build_params messages model)
  ≡ₚ [ ("model", PStr (value model)); ("messages", PMessages messages);
       ("stream", PBool true); ("timeout", PInt 600);
       ("temperature", PFloat 0) ]
     ++ match model with
        | GPT_4_VISION | GPT_4_TURBO_2024_04_09 | GPT_4O_2024_05_13 =>
            [("max_tokens", PInt 4096)]
        | GPT_4O_2024_11_20 => [("max_tokens", PInt 16384)]
        | _ => []
        end.
Proof.
  unfold build_params. cbn zeta.
  set (base := ({[ "model" := PStr (value model);
                   "messages" := PMessages messages;
                   "stream" := PBool true;
                   "timeout" := PInt 600;
                   "temperature" := PFloat 0 ]} : gmap string param)).
  assert (Hb : map_to_list base
               ≡ₚ [ ("model", PStr (value model));
                    ("messages", PMessages messages);
                    ("stream", PBool true); ("timeout", PInt 600);
                    ("temperature", PFloat 0) ]).
  { subst base.
    repeat (rewrite map_to_list_insert by (by vm_compute)).
    by rewrite map_to_list_singleton. }
  assert (Hn : base !! "max_tokens" = None) by (by vm_compute).
  destruct model; repeat case_bool_decide;
    try (exfalso; intuition congruence);
    rewrite ?map_to_list_insert by done; rewrite ?app_nil_r;
    try exact Hb;
    (etrans; [apply Permutation_cons_append|]);
    by apply Permutation_app_tail.
Qed.

End openai_more.

(** ** The Gemini strategy *)

Section gemini_facts.
Import Registry Gemini.

Variable create :
  state -> string -> option string -> gmap string param -> chunk_stream.

Lemma stream_gemini_response_run (messages : val) (api_key : string)
    (model : Llm) (s : state) :
  let params := build_params messages model in
  let stream := create s api_key (Some base_url) params in
  let fragments := omap spec_delta_text (chunks stream) in
  stream_gemini_response create messages api_key model s =
    (State (store s)
       (trace s ++ [EOpenAICreate api_key (Some base_url) params]
          ++ (ECallback <$> fragments)
          ++ (if ends_ok stream then [EClose] else [])),
     if ends_ok stream then Ok (concat_texts fragments)
     else Raise TransportError).
Proof.
  intros params stream fragments.
  unfold stream_gemini_response.
  assert (E : String.eqb API_TYPE "openai_compatible" = true) by reflexivity.
  rewrite E. unfold generate_gemini_response_openai_compatible. fold params.
  cbn [bind get_state emit store trace]. fold stream.
  rewrite bind_run, fold_chunk_body. cbn [store trace]. fold fragments.
  destruct (ends_ok stream); cbn.
  - by rewrite <- !app_assoc.
  - by rewrite <- !app_assoc, app_nil_r.
Qed.

(** X5.  Whatever the model, [stream_gemini_response] makes exactly one
    request, to the OpenAI-compatible endpoint of Gemini, with a keyword
    dictionary of exactly seven entries: the model's identifier, the
    caller's messages, [stream] on, [timeout] 600, [temperature] 0.0,
    [top_p] 0.95 and [max_tokens] 8192.  Unlike the OpenAI strategy, the
    token ceiling does not depend on the model. *)
Theorem stream_gemini_response_request (messages : val) (api_key : string)
    (model : Llm) (s : state) :
  let params := build_params messages model in
  let run := stream_gemini_response create messages api_key model s in
  creates (trace run.1)
  = creates (trace s)
      ++ [(api_key,
           Some "https://generativelanguage.googleapis.com/v1beta/openai/",
           params)]
  /\ map_to_list params
     ≡ₚ [ ("model", PStr (value model)); ("messages", PMessages messages);
          ("stream", PBool true); ("timeout", PInt 600);
          ("temperature", PFloat 0); ("top_p", PFloat (95 # 100));
          ("max_tokens", PInt 8192) ].
Proof.
  intros params run. subst run. split.
  - rewrite stream_gemini_response_run. cbn [fst trace].
    rewrite !creates_app, creates_of_callbacks. cbn.
    by destruct (ends_ok _).
  - subst params. unfold build_params.
    repeat (rewrite map_to_list_insert by (by vm_compute)).
    rewrite map_to_list_singleton. done.
Qed.

(** X6.  [stream_gemini_response] always takes the OpenAI-compatible
    implementation: it hands the callback the non-empty delta texts of the
    chunks, in order, and returns their concatenation, closing the client
    once at the end; a stream that breaks gives the transport's error.  It
    never answers with the empty string of the disabled implementation
    without having made its request, never raises the invalid-API-type
    exception, and never touches the store. *)
Theorem stream_gemini_response_delivers (messages : val) (api_key : string)
    (model : Llm) (s : state) :
  let stream :=
    create s api_key (Some base_url) (build_params messages model) in
  let fragments := omap spec_delta_text (chunks stream) in
  let run := stream_gemini_response create messages api_key model s in
  callbacks (trace run.1) = callbacks (trace s) ++ fragments
  /\ run.2 = (if ends_ok stream then Ok (concat_texts fragments)
              else Raise TransportError)
  /\ closes (trace run.1)
     = closes (trace s) + (if ends_ok stream then 1 else 0)
  /\ length (creates (trace run.1)) = S (length (creates (trace s)))
  /\ store run.1 = store s
  /\ (forall msg, run.2 <> Raise (Exception msg)).
Proof.
  intros stream fragments run. subst run.
  rewrite stream_gemini_response_run. fold stream fragments.
  cbn [fst snd store trace].
  split; [|split; [done|split; [|split; [|split; [done|]]]]].
  - rewrite !callbacks_app, callbacks_of_callbacks. cbn.
    destruct (ends_ok stream); cbn; by rewrite ?app_nil_r.
  - rewrite !closes_app, closes_of_callbacks. cbn.
    destruct (ends_ok stream); cbn; lia.
  - rewrite !creates_app, creates_of_callbacks, !length_app. cbn.
    destruct (ends_ok stream); cbn; lia.
  - intros msg. by destruct (ends_ok stream).
Qed.

End gemini_facts.

(** ** The request and the stream of the Claude strategy *)

Lemma for_each_callback_run (texts : list string) (s : state) :
  for_each Claude.callback texts s
  = (State (store s) (trace s ++ (ECallback <$> texts)), Ok tt).
Proof.
  revert s. induction texts as [|t ts IH]; intros s.
  - cbn. rewrite app_nil_r. by destruct s.
  - cbn [for_each]. rewrite bind_run. cbn [Claude.callback emit].
    rewrite IH. cbn [store trace fmap list_fmap].
    by rewrite <- app_assoc.
Qed.

Section claude_stream.
Import Registry Claude.

Variable process_image : val -> result (string * string).
Variable messages_stream : state -> request -> outcome.

(** The call in closed form, from the result of the translation. *)
Lemma stream_claude_response_run (messages : val) (api_key : string)
    (model : Llm) (s : state) :
  stream_claude_response process_image messages_stream messages api_key model s
  = match translate process_image messages s with
    | (s1, Raise e) => (s1, Raise e)
    | (s1, Ok (system_prompt, claude_messages)) =>
        let rq :=
          claude_request api_key model system_prompt claude_messages (store s1) in
        match messages_stream s1 rq with
        | Completed texts final =>
            (State (store s1)
               (trace s1 ++ [EClaudeStream rq] ++ (ECallback <$> texts)
                  ++ [EFinalMessage final; EClose]),
             match content final with
             | [] => Raise IndexError
             | text :: _ => Ok text
             end)
        | Failed texts =>
            (State (store s1)
               (trace s1 ++ [EClaudeStream rq] ++ (ECallback <$> texts)),
             Raise TransportError)
        end
    end.
Proof.
  unfold stream_claude_response. rewrite bind_run.
  destruct (translate process_image messages s) as [s1 [[sp cm]|e]]; [|done].
  cbn [bind get_state emit store trace].
  fold (claude_request api_key model sp cm (store s1)).
  destruct (messages_stream s1 _) as [texts final|texts].
  - rewrite bind_run, for_each_callback_run. cbn [bind emit store trace].
    unfold first_text. rewrite <- !app_assoc. cbn [app].
    by destruct (content final).
  - rewrite bind_run, for_each_callback_run. cbn [raise store trace].
    by rewrite <- !app_assoc.
Qed.

(** X7.  [stream_claude_response] makes one request when the translation
    returns and none when it raises, whatever the input.  The request
    carries the caller's key, the model's identifier, [max_tokens] 8192,
    [temperature] 0.0, the beta header, and the system prompt and messages
    the translation gave, as the store is right after the translation;
    streaming changes nothing in the store. *)
Theorem stream_claude_response_request (messages : val) (api_key : string)
    (model : Llm) (s : state) :
  let norm := translate process_image messages s in
  let run :=
    stream_claude_response process_image messages_stream messages api_key
      model s in
  store run.1 = store norm.1
  /\ match norm.2 with
     | Ok (system_prompt, claude_messages) =>
         requests (trace run.1)
         = requests (trace s)
             ++ [ {| rq_api_key := api_key;
                     rq_model := value model;
                     rq_max_tokens := 8192;
                     rq_temperature := 0;
                     rq_system := system_prompt;
                     rq_messages := claude_messages;
                     rq_extra_headers :=
                       [("anthropic-beta", "max-tokens-3-5-sonnet-2024-07-15")];
                     rq_store := store norm.1 |} ]
     | Raise e => requests (trace run.1) = requests (trace s)
     end.
Proof.
  intros norm run. subst norm run. rewrite stream_claude_response_run.
  pose proof (translate_trace process_image messages s) as Ht.
  destruct (translate process_image messages s) as [s1 [[sp cm]|e]];
    cbn [fst snd] in *; [|by rewrite Ht].
  destruct (messages_stream s1 _) as [texts final|texts]; cbn [fst store trace].
  - split; [done|].
    rewrite !requests_app, requests_of_callbacks, Ht. cbn.
    by rewrite ?app_nil_r.
  - split; [done|].
    rewrite !requests_app, requests_of_callbacks, Ht. cbn.
    by rewrite ?app_nil_r.
Qed.

(** X8.  Once the translation has returned, the callback receives every
    text of the stream, in order.  When the stream completes, the client is
    closed and the text of the first content block of the final message is
    returned; a final message without content blocks makes the call fail
    with [IndexError], after the client was closed.  When the stream breaks,
    the call fails with the transport's error after the texts received so
    far went to the callback, and the client is not closed. *)
Theorem stream_claude_response_delivers (messages : val) (api_key : string)
    (model : Llm) (s s1 : state) (system_prompt claude_messages : val) :
  translate process_image messages s
  = (s1, Ok (system_prompt, claude_messages)) ->
  let rq :=
    claude_request api_key model system_prompt claude_messages (store s1) in
  let run :=
    stream_claude_response process_image messages_stream messages api_key
      model s in
  match messages_stream s1 rq with
  | Completed texts final =>
      callbacks (trace run.1) = callbacks (trace s) ++ texts
      /\ final_messages (trace run.1) = final_messages (trace s) ++ [final]
      /\ closes (trace run.1) = closes (trace s) + 1
      /\ last (trace run.1) = Some EClose
      /\ run.2 = match content final with
                 | [] => Raise IndexError
                 | text :: _ => Ok text
                 end
  | Failed texts =>
      callbacks (trace run.1) = callbacks (trace s) ++ texts
      /\ final_messages (trace run.1) = final_messages (trace s)
      /\ closes (trace run.1) = closes (trace s)
      /\ run.2 = Raise TransportError
  end.
Proof.
  intros Hnorm rq run. subst run.
  rewrite stream_claude_response_run, Hnorm. cbn zeta. fold rq.
  pose proof (translate_trace process_image messages s) as Ht.
  rewrite Hnorm in Ht. cbn [fst] in Ht.
  destruct (messages_stream s1 rq) as [texts final|texts];
    cbn [fst snd store trace]; rewrite Ht.
  - split; [|split; [|split; [|split; [|done]]]].
    + rewrite !callbacks_app, callbacks_of_callbacks. cbn.
      by rewrite app_nil_r.
    + rewrite !final_messages_app, final_messages_of_callbacks. done.
    + rewrite !closes_app, closes_of_callbacks. cbn. lia.
    + rewrite !app_assoc.
      change [EFinalMessage final; EClose]
        with ([EFinalMessage final] ++ [EClose]).
      rewrite app_assoc. apply last_snoc.
  - split; [|split; [|split; [|done]]].
    + rewrite !callbacks_app, callbacks_of_callbacks. cbn. done.
    + rewrite !final_messages_app, final_messages_of_callbacks. cbn.
      by rewrite app_nil_r.
    + rewrite !closes_app, closes_of_callbacks. cbn. lia.
Qed.

End claude_stream.

(** ** The payload shares nothing with the caller's conversation *)

Section claude_payload.
Import Registry Py Claude.

Variable process_image : val -> result (string * string).
Variable h0 : list obj.

#[local] Abbreviation n0 := (length h0).
#[local] Abbreviation Ext := (extends_store (fun _ => True) h0).

Lemma translate_result_fresh (messages : val) :
  preserves Ext (translate process_image messages)
    (fun r => fresh_val n0 r.1 /\ fresh_val n0 r.2).
Proof.
  unfold translate.
  eapply preserves_bind; [apply extends_deepcopy|]. intros cloned Hcloned.
  eapply preserves_bind; [by apply extends_as_list|].
  intros [l [|first rest]] [Hl Hitems]; [apply preserves_raise|].
  apply Forall_cons in Hitems as [Hfirst Hrest].
  eapply preserves_bind; [by apply extends_dict_get|]. intros sp Hsp.
  eapply preserves_bind.
  { eapply preserves_map_each; [|exact Hrest].
    intros x Hx. by apply extends_dict_copy. }
  intros copies Hcopies.
  eapply preserves_bind; [by apply extends_new_list|]. intros cm Hcm.
  eapply preserves_bind.
  { eapply preserves_for_each; [|exact Hcopies].
    intros x Hx. by apply extends_rewrite_message. }
  intros _ _. by apply preserves_ret.
Qed.

End claude_payload.

Section claude_payload_new.
Import Registry Py Claude.

Variable process_image : val -> result (string * string).

(** X9.  What the translation hands to the provider shares no object with
    the caller's conversation: the list of Claude messages is a new object,
    the system prompt is a value or a new object, and every object the
    translation made refers to objects it made only.  The caller's store is
    kept as a prefix of the new one. *)
Theorem translate_output_is_new (messages : val) (s s' : state)
    (system_prompt claude_messages : val) :
  translate process_image messages s
  = (s', Ok (system_prompt, claude_messages)) ->
  fresh_val (length (store s)) system_prompt
  /\ fresh_val (length (store s)) claude_messages
  /\ claude_messages <> messages
  /\ exists made,
       store s' = store s ++ made
       /\ Forall (fresh_obj (length (store s))) made.
Proof.
  intros H.
  destruct (translate_result_fresh process_image (store s) messages s)
    as [[_ Hext] Hres].
  { split; [done|]. exists []. by rewrite app_nil_r. }
  rewrite H in Hext, Hres. cbn [fst snd] in *.
  destruct (Hres _ eq_refl) as [Hsp Hcm]. cbn [fst snd] in *.
  split; [done|]. split; [done|]. split; [|done].
  intros ->.
  (* the caller's value is either no reference or one into its own store *)
  unfold translate in H.
  apply bind_ok_inv in H as (cloned & sA & Hcopy & H).
  unfold deepcopy, deepcopy_memo in Hcopy.
  apply bind_ok_inv in Hcopy as ([y memo] & sB & Hcopy & Hret).
  apply bind_ok_inv in Hcopy as (s0 & s0' & Hget & Hrec).
  injection Hget as <- <-. injection Hret as <- <-.
  apply bind_ok_inv in H as ([l items] & sC & Hlist & _).
  destruct messages as [| | | |lm]; cbn [deepcopy_rec] in Hrec;
    try (injection Hrec as <- <- <-; discriminate Hlist).
  rewrite lookup_empty in Hrec. cbn in Hcm.
  apply bind_ok_inv in Hrec as (o & s2 & Hload & _).
  unfold load in Hload.
  destruct (store s !! lm) as [o'|] eqn:Hlm; [|discriminate Hload].
  apply lookup_lt_Some in Hlm. lia.
Qed.

End claude_payload_new.

(** ** What a pass of the refinement loop leaves in the trace *)

Lemma concat_texts_app (xs ys : list string) :
  concat_texts (xs ++ ys) = concat_texts xs +:+ concat_texts ys.
Proof.
  induction xs as [|x xs IH]; [done|].
  cbn [app concat_texts foldr] in *. unfold concat_texts in IH.
  by rewrite IH, string_app_assoc.
Qed.

Lemma debug_writes_pass_debug_events (dbg : bool) (extract : string -> string)
    (k : nat) (text : string) :
  debug_writes (pass_debug_events dbg extract k text)
  = if dbg then
      [ ("pass_" +:+ pretty k +:+ ".html", extract text);
        ("thinking_pass_" +:+ pretty k +:+ ".txt",
         Native.split_head "</thinking>" text) ]
    else [].
Proof. by destruct dbg. Qed.

Section post_state_trace.

Variable dbg : bool.
Variable extract : string -> string.
Variable l : loc.
Variable items : list val.
Variable k : nat.
Variable s1 : state.
Variable rq : request.
Variable texts : list string.
Variable final : Message.
Variable text : string.

#[local] Abbreviation post :=
  (pass_post_state dbg extract l items k s1 rq texts final text).

Lemma callbacks_post_state :
  callbacks (trace post) = callbacks (trace s1) ++ texts.
Proof.
  unfold pass_post_state, pass_debug_events. cbn [trace].
  rewrite !callbacks_app, callbacks_of_callbacks. cbn.
  destruct dbg; cbn; by rewrite ?app_nil_r.
Qed.

Lemma closes_post_state : closes (trace post) = closes (trace s1).
Proof.
  unfold pass_post_state, pass_debug_events. cbn [trace].
  rewrite !closes_app, closes_of_callbacks. cbn.
  destruct dbg; cbn; lia.
Qed.

Lemma debug_writes_post_state :
  debug_writes (trace post)
  = debug_writes (trace s1)
      ++ debug_writes (pass_debug_events dbg extract k text).
Proof.
  unfold pass_post_state. cbn [trace].
  rewrite !debug_writes_app, debug_writes_of_callbacks. cbn. done.
Qed.

End post_state_trace.
(** ** How a run of the refinement loop ends *)

Section native_more.
Import Registry Py Native.

Variable IS_DEBUG_ENABLED : bool.
Variable extract_html_content : string -> string.
Variable messages_stream : state -> request -> outcome.
Variable system_prompt : string.
Variable messages : val.
Variable api_key : string.
Variable include_thinking : bool.
Variable model : Llm.

#[local] Abbreviation native :=
  (stream_claude_response_native IS_DEBUG_ENABLED extract_html_content
     messages_stream system_prompt messages api_key include_thinking model).
#[local] Abbreviation st1 := (call1_state include_thinking).
#[local] Abbreviation rq1 :=
  (call1_request system_prompt messages api_key include_thinking model).
#[local] Abbreviation turns1 := (pass1_turns include_thinking).
#[local] Abbreviation after1 :=
  (pass1_state IS_DEBUG_ENABLED extract_html_content system_prompt messages
     api_key include_thinking model).
#[local] Abbreviation st2 :=
  (call2_state IS_DEBUG_ENABLED extract_html_content system_prompt messages
     api_key include_thinking model).
#[local] Abbreviation rq2 :=
  (call2_request IS_DEBUG_ENABLED extract_html_content system_prompt messages
     api_key include_thinking model).
#[local] Abbreviation final_st :=
  (final_state IS_DEBUG_ENABLED extract_html_content system_prompt messages
     api_key include_thinking model).

Lemma lookup_call1_state (items : list val) (s : state) (i : loc) (o : obj) :
  store s !! i = Some o -> store (st1 items s) !! i = Some o.
Proof.
  intros Hi. unfold call1_state.
  rewrite lookup_pre_state_old; [done|]. by eapply lookup_lt_Some.
Qed.

(** X10.  When the stream of pass 1 breaks, the call fails with the
    transport's error after one request, and the caller's conversation, like
    every object of the caller's store, is as it was: nothing was appended.
    The texts received before the failure went to the callback; the client
    is not closed and no debug file is written. *)
Theorem native_first_pass_failure (l : loc) (items : list val) (s : state)
    (texts1 : list string) :
  messages = VRef l ->
  store s !! l = Some (OList items) ->
  messages_stream (st1 items s) (rq1 items s) = Failed texts1 ->
  let run := native s in
  run.2 = Raise TransportError
  /\ (forall i o, store s !! i = Some o -> store run.1 !! i = Some o)
  /\ callbacks (trace run.1) = callbacks (trace s) ++ texts1
  /\ requests (trace run.1) = requests (trace s) ++ [rq1 items s]
  /\ closes (trace run.1) = closes (trace s)
  /\ debug_writes (trace run.1) = debug_writes (trace s).
Proof.
  intros Hm Hl H1 run. subst run.
  pose proof (native_outcomes IS_DEBUG_ENABLED extract_html_content
                messages_stream system_prompt messages api_key
                include_thinking model l items s Hm Hl) as Hrun.
  rewrite H1 in Hrun. rewrite Hrun. cbn [fst snd store trace].
  unfold call1_state at 2 3 4 5. rewrite !trace_pre_state.
  split; [done|]. split; [apply lookup_call1_state|].
  split; [|split; [|split]].
  - rewrite !callbacks_app, callbacks_of_callbacks. done.
  - rewrite !requests_app, requests_of_callbacks. cbn. by rewrite ?app_nil_r.
  - rewrite !closes_app, closes_of_callbacks. cbn. lia.
  - rewrite !debug_writes_app, debug_writes_of_callbacks. cbn.
    by rewrite ?app_nil_r.
Qed.

(** X11.  When pass 1 completes and the stream of pass 2 breaks, the call
    fails with the transport's error, but the caller's list has already been
    extended: it holds its original items followed by the assistant turn
    with the draft of pass 1 and the fixed instruction.  The texts of both
    streams went to the callback, the client is not closed, and of the debug
    files only those of pass 1 are written. *)
Theorem native_second_pass_failure (l : loc) (items : list val) (s : state)
    (texts1 : list string) (final1 : Message) (text1 : string)
    (rest1 : list string) (texts2 : list string) :
  messages = VRef l ->
  store s !! l = Some (OList items) ->
  messages_stream (st1 items s) (rq1 items s) = Completed texts1 final1 ->
  content final1 = text1 :: rest1 ->
  messages_stream (st2 l items s texts1 final1 text1)
    (rq2 l items s texts1 final1 text1) = Failed texts2 ->
  let run := native s in
  run.2 = Raise TransportError
  /\ store run.1 !! l = Some (OList (items ++ turns1 items s))
  /\ dict_at (store run.1) <$> turns1 items s
     = [Some (assistant_turn text1); Some user_turn]
  /\ callbacks (trace run.1) = callbacks (trace s) ++ texts1 ++ texts2
  /\ requests (trace run.1)
     = requests (trace s) ++ [rq1 items s; rq2 l items s texts1 final1 text1]
  /\ closes (trace run.1) = closes (trace s)
  /\ debug_writes (trace run.1)
     = debug_writes (trace s)
         ++ (if IS_DEBUG_ENABLED then
               [ ("pass_1.html", extract_html_content text1);
                 ("thinking_pass_1.txt", split_head "</thinking>" text1) ]
             else []).
Proof.
  intros Hm Hl H1 Hc1 H2 run. subst run.
  assert (Hlt : l < length (store s)) by (by eapply lookup_lt_Some).
  assert (Hn1 : length (store (st1 items s))
                = length (store s) + (if include_thinking then 2 else 0))
    by apply length_pre_state.
  assert (Hm1 : length (store (after1 l items s texts1 final1 text1))
                = length (store (st1 items s)) + 2)
    by apply length_post_state.
  pose proof (native_outcomes IS_DEBUG_ENABLED extract_html_content
                messages_stream system_prompt messages api_key
                include_thinking model l items s Hm Hl) as Hrun.
  rewrite H1, Hc1 in Hrun. cbn zeta in Hrun. rewrite H2 in Hrun.
  rewrite Hrun. cbn [fst snd store trace].
  split; [done|].
  assert (Htr : trace (st2 l items s texts1 final1 text1)
                = trace (after1 l items s texts1 final1 text1))
    by apply trace_pre_state.
  rewrite Htr.
  split; [|split; [|split; [|split; [|split]]]].
  - unfold call2_state. rewrite lookup_pre_state_old by lia.
    unfold pass1_state. rewrite lookup_post_state_list by lia.
    reflexivity.
  - unfold pass1_turns, dict_at. cbn [fmap list_fmap].
    unfold call2_state. rewrite !lookup_pre_state_old by lia.
    unfold pass1_state.
    by rewrite lookup_post_state_assistant, lookup_post_state_user by lia.
  - rewrite !callbacks_app, callbacks_of_callbacks. unfold pass1_state.
    rewrite callbacks_post_state. unfold call1_state.
    rewrite trace_pre_state. cbn. by rewrite <- !app_assoc.
  - rewrite !requests_app, requests_of_callbacks. unfold pass1_state.
    rewrite requests_post_state. unfold call1_state at 1.
    rewrite trace_pre_state. cbn. by rewrite ?app_nil_r, <- ?app_assoc.
  - rewrite !closes_app, closes_of_callbacks. unfold pass1_state.
    rewrite closes_post_state. unfold call1_state.
    rewrite trace_pre_state. cbn. lia.
  - rewrite !debug_writes_app, debug_writes_of_callbacks. unfold pass1_state.
    rewrite debug_writes_post_state, debug_writes_pass_debug_events.
    unfold call1_state. rewrite trace_pre_state. cbn [debug_writes omap list_omap].
    rewrite !app_nil_r. reflexivity.
Qed.

(** X12.  A final message of pass 1 without content blocks makes the call
    fail with [IndexError] at [response.content[0]], inside the loop: the
    whole stream has gone to the callback by then, but nothing is appended
    to the caller's conversation and, unlike [stream_claude_response], the
    client is not closed. *)
Theorem native_empty_final_content (l : loc) (items : list val) (s : state)
    (texts1 : list string) (final1 : Message) :
  messages = VRef l ->
  store s !! l = Some (OList items) ->
  messages_stream (st1 items s) (rq1 items s) = Completed texts1 final1 ->
  content final1 = [] ->
  let run := native s in
  run.2 = Raise IndexError
  /\ (forall i o, store s !! i = Some o -> store run.1 !! i = Some o)
  /\ callbacks (trace run.1) = callbacks (trace s) ++ texts1
  /\ final_messages (trace run.1) = final_messages (trace s) ++ [final1]
  /\ requests (trace run.1) = requests (trace s) ++ [rq1 items s]
  /\ closes (trace run.1) = closes (trace s)
  /\ debug_writes (trace run.1) = debug_writes (trace s).
Proof.
  intros Hm Hl H1 Hc1 run. subst run.
  pose proof (native_outcomes IS_DEBUG_ENABLED extract_html_content
                messages_stream system_prompt messages api_key
                include_thinking model l items s Hm Hl) as Hrun.
  rewrite H1, Hc1 in Hrun. rewrite Hrun. cbn [fst snd store trace].
  unfold call1_state at 2 3 4 5 6. rewrite !trace_pre_state.
  split; [done|]. split; [apply lookup_call1_state|].
  split; [|split; [|split; [|split]]].
  - rewrite !callbacks_app, callbacks_of_callbacks. cbn.
    by rewrite ?app_nil_r.
  - rewrite !final_messages_app, final_messages_of_callbacks. done.
  - rewrite !requests_app, requests_of_callbacks. cbn. by rewrite ?app_nil_r.
  - rewrite !closes_app, closes_of_callbacks. cbn. lia.
  - rewrite !debug_writes_app, debug_writes_of_callbacks. cbn.
    by rewrite ?app_nil_r.
Qed.

Lemma trace_final_state (l : loc) (items : list val) (s : state)
    (texts1 : list string) (final1 : Message) (text1 : string)
    (texts2 : list string) (final2 : Message) (text2 : string) :
  trace (final_st l items s texts1 final1 text1 texts2 final2 text2)
  = trace s
      ++ ([EClaudeStream (rq1 items s)] ++ (ECallback <$> texts1)
            ++ [EFinalMessage final1]
            ++ pass_debug_events IS_DEBUG_ENABLED extract_html_content 1 text1)
      ++ ([EClaudeStream (rq2 l items s texts1 final1 text1)]
            ++ (ECallback <$> texts2) ++ [EFinalMessage final2]
            ++ pass_debug_events IS_DEBUG_ENABLED extract_html_content 2 text2)
      ++ closing_events IS_DEBUG_ENABLED
           (concat_texts texts1 +:+ concat_texts texts2).
Proof.
  unfold final_state, pass2_state. cbn [trace].
  unfold pass_post_state at 1. cbn [trace].
  unfold call2_state. rewrite trace_pre_state.
  unfold pass1_state. unfold pass_post_state at 1. cbn [trace].
  unfold call1_state at 1. rewrite trace_pre_state.
  rewrite <- !app_assoc. reflexivity.
Qed.

(** X13.  In a run in which both passes complete, the callback receives
    the texts of the stream of pass 1 and then those of pass 2: the draft is
    streamed to the caller although only the text of pass 2 is returned.
    The client is closed once, after the final message of pass 2. *)
Theorem native_streams_both_passes (l : loc) (items : list val) (s : state)
    (texts1 : list string) (final1 : Message) (text1 : string)
    (rest1 : list string) (texts2 : list string) (final2 : Message)
    (text2 : string) (rest2 : list string) :
  messages = VRef l ->
  store s !! l = Some (OList items) ->
  messages_stream (st1 items s) (rq1 items s) = Completed texts1 final1 ->
  content final1 = text1 :: rest1 ->
  messages_stream (st2 l items s texts1 final1 text1)
    (rq2 l items s texts1 final1 text1) = Completed texts2 final2 ->
  content final2 = text2 :: rest2 ->
  let run := native s in
  callbacks (trace run.1) = callbacks (trace s) ++ texts1 ++ texts2
  /\ closes (trace run.1) = closes (trace s) + 1
  /\ exists before after,
       trace run.1 = before ++ [EFinalMessage final2] ++ after
       /\ closes before = closes (trace s)
       /\ callbacks after = [].
Proof.
  intros Hm Hl H1 Hc1 H2 Hc2 run. subst run.
  rewrite (native_completed IS_DEBUG_ENABLED extract_html_content
             messages_stream system_prompt messages api_key include_thinking
             model l items s texts1 final1 text1 rest1 texts2 final2 text2
             rest2 Hm Hl H1 Hc1 H2 Hc2).
  cbn [fst snd]. rewrite trace_final_state.
  split; [|split].
  - rewrite !callbacks_app, !callbacks_of_callbacks.
    unfold pass_debug_events, closing_events.
    destruct IS_DEBUG_ENABLED; cbn; by rewrite ?app_nil_r.
  - rewrite !closes_app, !closes_of_callbacks.
    unfold pass_debug_events, closing_events.
    destruct IS_DEBUG_ENABLED; cbn; lia.
  - eexists (trace s
              ++ ([EClaudeStream (rq1 items s)] ++ (ECallback <$> texts1)
                    ++ [EFinalMessage final1]
                    ++ pass_debug_events IS_DEBUG_ENABLED
                         extract_html_content 1 text1)
              ++ [EClaudeStream (rq2 l items s texts1 final1 text1)]
              ++ (ECallback <$> texts2)),
            (pass_debug_events IS_DEBUG_ENABLED extract_html_content 2 text2
             ++ closing_events IS_DEBUG_ENABLED
                  (concat_texts texts1 +:+ concat_texts texts2)).
    split; [by rewrite <- !app_assoc|]. split.
    + rewrite !closes_app, !closes_of_callbacks.
      unfold pass_debug_events. destruct IS_DEBUG_ENABLED; cbn; lia.
    + rewrite callbacks_app. unfold pass_debug_events, closing_events.
      by destruct IS_DEBUG_ENABLED.
Qed.

(** X14.  The debug files of a run in which both passes complete.  With
    [IS_DEBUG_ENABLED] off, nothing is written.  With it on, five files are
    written, in this order: [pass_1.html] and [thinking_pass_1.txt] from the
    final message of pass 1, [pass_2.html] and [thinking_pass_2.txt] from
    that of pass 2 (the HTML extracted from the text, and the text before
    the first closing [thinking] tag), then [full_stream.txt] with every
    streamed text of both passes, in order. *)
Theorem native_debug_files (l : loc) (items : list val) (s : state)
    (texts1 : list string) (final1 : Message) (text1 : string)
    (rest1 : list string) (texts2 : list string) (final2 : Message)
    (text2 : string) (rest2 : list string) :
  messages = VRef l ->
  store s !! l = Some (OList items) ->
  messages_stream (st1 items s) (rq1 items s) = Completed texts1 final1 ->
  content final1 = text1 :: rest1 ->
  messages_stream (st2 l items s texts1 final1 text1)
    (rq2 l items s texts1 final1 text1) = Completed texts2 final2 ->
  content final2 = text2 :: rest2 ->
  let run := native s in
  debug_writes (trace run.1)
  = debug_writes (trace s)
      ++ (if IS_DEBUG_ENABLED then
            [ ("pass_1.html", extract_html_content text1);
              ("thinking_pass_1.txt", split_head "</thinking>" text1);
              ("pass_2.html", extract_html_content text2);
              ("thinking_pass_2.txt", split_head "</thinking>" text2);
              ("full_stream.txt", concat_texts (texts1 ++ texts2)) ]
          else []).
Proof.
  intros Hm Hl H1 Hc1 H2 Hc2 run. subst run.
  rewrite (native_completed IS_DEBUG_ENABLED extract_html_content
             messages_stream system_prompt messages api_key include_thinking
             model l items s texts1 final1 text1 rest1 texts2 final2 text2
             rest2 Hm Hl H1 Hc1 H2 Hc2).
  cbn [fst snd]. rewrite trace_final_state.
  rewrite !debug_writes_app, !debug_writes_of_callbacks,
    !debug_writes_pass_debug_events, concat_texts_app.
  unfold closing_events.
  destruct IS_DEBUG_ENABLED; cbn [debug_writes omap list_omap app];
    by rewrite ?app_nil_r.
Qed.

End native_more.

(** ** The requests of the refinement loop, whatever the input *)

Section adds_requests_rules.

Variable P : request -> Prop.

Lemma adds_keeps_trace {A} (m : M A) :
  (forall s, trace (m s).1 = trace s) -> adds_requests P 0 m.
Proof.
  intros H s. exists []. rewrite app_nil_r. split; [apply H|].
  split; [done|apply Forall_nil_2].
Qed.

Lemma adds_ret {A} (a : A) : adds_requests P 0 (ret a).
Proof. by apply adds_keeps_trace. Qed.

Lemma adds_raise {A} (e : exn) : adds_requests P 0 (@raise A e).
Proof. by apply adds_keeps_trace. Qed.

Lemma adds_weaken {A} (j k : nat) (m : M A) :
  j <= k -> adds_requests P j m -> adds_requests P k m.
Proof.
  intros Hjk H s. destruct (H s) as (new & Ht & Hlen & HP).
  exists new. split; [done|]. split; [lia|done].
Qed.

Lemma adds_bind {A B} (j k : nat) (m : M A) (f : A -> M B) :
  adds_requests P j m -> (forall a, adds_requests P k (f a)) ->
  adds_requests P (j + k) (bind m f).
Proof.
  intros Hm Hf s. rewrite bind_run.
  destruct (Hm s) as (new1 & Ht1 & Hlen1 & HP1).
  destruct (m s) as [s1 [a|e]]; cbn [fst] in *.
  - destruct (Hf a s1) as (new2 & Ht2 & Hlen2 & HP2).
    exists (new1 ++ new2). rewrite Ht2, Ht1, app_assoc. split; [done|].
    rewrite requests_app, length_app. split; [lia|].
    by apply Forall_app.
  - exists new1. split; [done|]. split; [lia|done].
Qed.

Lemma adds_emit_request (rq : request) :
  P rq -> adds_requests P 1 (emit (EClaudeStream rq)).
Proof.
  intros HP s. exists [EClaudeStream rq]. split; [done|].
  split; [done|]. by apply Forall_singleton.
Qed.

Lemma adds_emit (e : event) :
  requests [e] = [] -> adds_requests P 0 (emit e).
Proof.
  intros He s. exists [e]. split; [done|]. rewrite He.
  split; [done|apply Forall_nil_2].
Qed.

Lemma adds_fold_each {A S} (f : S -> A -> M S) (xs : list A) (acc : S) :
  (forall b a, adds_requests P 0 (f b a)) ->
  adds_requests P 0 (fold_each f xs acc).
Proof.
  intros Hf. revert acc. induction xs as [|x xs IH]; intros acc; cbn.
  - apply adds_ret.
  - apply (adds_bind 0 0); [apply Hf | intros b; apply IH].
Qed.

Lemma adds_as_list (v : val) : adds_requests P 0 (Py.as_list v).
Proof.
  apply adds_keeps_trace. intros s. unfold Py.as_list, Py.deref.
  destruct v as [| | | |l]; try done.
  rewrite !bind_run. unfold Py.load.
  by destruct (store s !! l) as [[items|entries]|].
Qed.

Lemma adds_new_dict (entries : gmap string val) :
  adds_requests P 0 (Py.new_dict entries).
Proof. by apply adds_keeps_trace. Qed.

Lemma adds_list_add (v : val) (ys : list val) :
  adds_requests P 0 (Py.list_add v ys).
Proof.
  unfold Py.list_add. apply (adds_bind 0 0); [apply adds_as_list|].
  intros [l items]. by apply adds_keeps_trace.
Qed.

Lemma adds_list_iadd (v : val) (ys : list val) :
  adds_requests P 0 (Py.list_iadd v ys).
Proof.
  unfold Py.list_iadd. apply (adds_bind 0 0); [apply adds_as_list|].
  intros [l items]. by apply adds_keeps_trace.
Qed.

End adds_requests_rules.

Section native_requests.
Import Registry Py Native.

Variable IS_DEBUG_ENABLED : bool.
Variable extract_html_content : string -> string.
Variable messages_stream : state -> request -> outcome.
Variable system_prompt : string.
Variable messages : val.
Variable api_key : string.
Variable include_thinking : bool.
Variable model : Llm.

#[local] Abbreviation pass_body :=
  (pass_body IS_DEBUG_ENABLED extract_html_content messages_stream
     system_prompt messages api_key include_thinking model).
#[local] Abbreviation while_passes :=
  (while_passes IS_DEBUG_ENABLED extract_html_content messages_stream
     system_prompt messages api_key include_thinking model).
#[local] Abbreviation native :=
  (stream_claude_response_native IS_DEBUG_ENABLED extract_html_content
     messages_stream system_prompt messages api_key include_thinking model).
#[local] Abbreviation Fixed := (native_parameters system_prompt api_key model).

Lemma adds_text_body (acc text : string) :
  adds_requests Fixed 0 (text_body acc text).
Proof.
  unfold text_body. apply (adds_bind _ 0 0); [by apply adds_emit|].
  intros _. apply adds_ret.
Qed.

(** A pass makes at most one request, with the fixed parameters. *)
Lemma pass_body_adds (vars : loop_vars) : adds_requests Fixed 1 (pass_body vars).
Proof.
  unfold Native.pass_body.
  apply (adds_bind _ 0 1).
  { destruct include_thinking; [|apply adds_ret].
    apply (adds_bind _ 0 0); [apply adds_new_dict|].
    intros turn. apply adds_list_add. }
  intros messages_to_send.
  apply (adds_bind _ 0 1); [by apply adds_keeps_trace|]. intros s0.
  apply (adds_bind _ 1 0); [by apply adds_emit_request|]. intros _.
  destruct (messages_stream s0 _) as [texts final|texts].
  - apply (adds_bind _ 0 0).
    { apply adds_fold_each. intros; apply adds_text_body. }
    intros fs.
    apply (adds_bind _ 0 0); [by apply adds_emit|]. intros _.
    apply (adds_bind _ 0 0).
    { unfold Claude.first_text. destruct (content final);
        [apply adds_raise | apply adds_ret]. }
    intros response_text.
    apply (adds_bind _ 0 0).
    { destruct IS_DEBUG_ENABLED; [|apply adds_ret].
      apply (adds_bind _ 0 0); [by apply adds_emit|].
      intros _. by apply adds_emit. }
    intros _.
    apply (adds_bind _ 0 0); [apply adds_new_dict|]. intros a.
    apply (adds_bind _ 0 0); [apply adds_new_dict|]. intros u.
    apply (adds_bind _ 0 0); [apply adds_list_iadd|]. intros _.
    apply adds_ret.
  - apply (adds_bind _ 0 0).
    { apply adds_fold_each. intros; apply adds_text_body. }
    intros _. apply adds_raise.
Qed.

Lemma while_passes_adds (fuel : nat) (vars : loop_vars) :
  adds_requests Fixed fuel (while_passes fuel vars).
Proof.
  revert vars. induction fuel as [|fuel IH]; intros vars; cbn [Native.while_passes];
    destruct (_ <=? _).
  - apply adds_raise.
  - apply adds_ret.
  - apply (adds_bind _ 1 fuel); [apply pass_body_adds | intros v; apply IH].
  - eapply adds_weaken; [|apply adds_ret]. lia.
Qed.

(** X15.  Whatever the input and however the provider answers,
    [stream_claude_response_native] makes at most two requests, and each of
    them carries the caller's key, the model's identifier, [max_tokens]
    4096, [temperature] 0.0, the caller's system prompt and no extra
    header. *)
Theorem native_at_most_two_requests (s : state) :
  exists new,
    trace (native s).1 = trace s ++ new
    /\ length (requests new) <= 2
    /\ Forall (fun rq =>
                 rq_api_key rq = api_key
                 /\ rq_model rq = value model
                 /\ rq_max_tokens rq = 4096%Z
                 /\ rq_temperature rq = 0%Q
                 /\ rq_system rq = VStr system_prompt
                 /\ rq_extra_headers rq = [])
         (requests new).
Proof.
  assert (H : adds_requests Fixed 2 native).
  { unfold Native.stream_claude_response_native.
    apply (adds_bind _ 2 0); [apply (while_passes_adds max_passes)|].
    intros vars.
    apply (adds_bind _ 0 0); [by apply adds_emit|]. intros _.
    apply (adds_bind _ 0 0).
    { destruct IS_DEBUG_ENABLED; [by apply adds_emit | apply adds_ret]. }
    intros _. destruct (response vars) as [r|]; [|apply adds_raise].
    unfold Claude.first_text. destruct (content r);
      [apply adds_raise | apply adds_ret]. }
  exact (H s).
Qed.

End native_requests.
(** ** The exceptions of the refinement loop *)

Section guarded_rules.

Variable I : state -> Prop.
Variable P : exn -> Prop.

Lemma guarded_ret {A} (a : A) : guarded I P (ret a).
Proof. intros s Hs. split; [done|]. intros e H. discriminate H. Qed.

Lemma guarded_raise {A} (e : exn) : P e -> guarded I P (@raise A e).
Proof. intros He s Hs. split; [done|]. by intros e' [= <-]. Qed.

Lemma guarded_bind {A B} (m : M A) (f : A -> M B) :
  guarded I P m -> (forall a, guarded I P (f a)) -> guarded I P (bind m f).
Proof.
  intros Hm Hf s Hs. rewrite bind_run.
  destruct (Hm s Hs) as [HI HP].
  destruct (m s) as [s1 [a|e]]; cbn [fst snd] in *.
  - by apply Hf.
  - split; [done|]. intros e' [= <-]. by apply HP.
Qed.

Lemma guarded_fold_each {A S} (f : S -> A -> M S) (xs : list A) (acc : S) :
  (forall b a, guarded I P (f b a)) -> guarded I P (fold_each f xs acc).
Proof.
  intros Hf. revert acc. induction xs as [|x xs IH]; intros acc; cbn.
  - apply guarded_ret.
  - apply guarded_bind; [apply Hf | intros b; apply IH].
Qed.

Lemma guarded_emit (e : event) :
  (forall s, I s -> I (State (store s) (trace s ++ [e]))) ->
  guarded I P (emit e).
Proof. intros H s Hs. split; [by apply H|]. intros e' H'. discriminate H'. Qed.

Lemma guarded_get_state : guarded I P get_state.
Proof. intros s Hs. split; [done|]. intros e H. discriminate H. Qed.

End guarded_rules.

Lemma bind_ext {A B} (m m' : M A) (k k' : A -> M B) (s : state) :
  m s = m' s -> (forall a s1, k a s1 = k' a s1) -> bind m k s = bind m' k' s.
Proof.
  intros Hm Hk. rewrite !bind_run, Hm.
  destruct (m' s) as [s1 [a|e]]; [apply Hk|done].
Qed.

Lemma fold_each_ext {A S} (f g : S -> A -> M S) (xs : list A) (acc : S)
    (s : state) :
  (forall b a s1, f b a s1 = g b a s1) ->
  fold_each f xs acc s = fold_each g xs acc s.
Proof.
  intros Hfg. revert acc s. induction xs as [|x xs IH]; intros acc s; [done|].
  cbn [fold_each]. apply bind_ext; [apply Hfg|]. intros b s1. apply IH.
Qed.

Section sink_errors.
Import Registry Py.

Variable IS_DEBUG_ENABLED : bool.
Variable extract_html_content : string -> string.
Variable messages_stream : state -> request -> outcome.
Variable callback : state -> string -> result unit.
Variable system_prompt : string.
Variable messages : val.
Variable api_key : string.
Variable include_thinking : bool.
Variable model : Llm.

#[local] Abbreviation pass_body :=
  (Sink.pass_body IS_DEBUG_ENABLED extract_html_content messages_stream
     callback system_prompt messages api_key include_thinking model).
#[local] Abbreviation while_passes :=
  (Sink.while_passes IS_DEBUG_ENABLED extract_html_content messages_stream
     callback system_prompt messages api_key include_thinking model).
#[local] Abbreviation native :=
  (Sink.stream_claude_response_native IS_DEBUG_ENABLED extract_html_content
     messages_stream callback system_prompt messages api_key include_thinking
     model).

(** With a callback that always returns, the loop is the loop of
    [Native]. *)
Lemma sink_text_body_returns (acc text : string) (s : state) :
  (forall s0 t, callback s0 t = Ok tt) ->
  Sink.text_body callback acc text s = Native.text_body acc text s.
Proof.
  intros Hcb. unfold Sink.text_body, Native.text_body.
  cbn [bind get_state emit]. by rewrite Hcb.
Qed.

Lemma sink_pass_body_returns (vars : Native.loop_vars) (s : state) :
  (forall s0 t, callback s0 t = Ok tt) ->
  pass_body vars s
  = Native.pass_body IS_DEBUG_ENABLED extract_html_content messages_stream
      system_prompt messages api_key include_thinking model vars s.
Proof.
  intros Hcb. unfold Sink.pass_body, Native.pass_body.
  apply bind_ext; [done|]. intros mts s1.
  apply bind_ext; [done|]. intros s0 s2.
  apply bind_ext; [done|]. intros _ s3.
  destruct (messages_stream s0 _) as [texts final|texts].
  - apply bind_ext; [|done].
    apply fold_each_ext. intros b a s4. by apply sink_text_body_returns.
  - apply bind_ext; [|done].
    apply fold_each_ext. intros b a s4. by apply sink_text_body_returns.
Qed.

Lemma sink_returns (s : state) :
  (forall s0 t, callback s0 t = Ok tt) ->
  native s
  = Native.stream_claude_response_native IS_DEBUG_ENABLED
      extract_html_content messages_stream system_prompt messages api_key
      include_thinking model s.
Proof.
  intros Hcb.
  unfold Sink.stream_claude_response_native,
    Native.stream_claude_response_native.
  apply bind_ext; [|done].
  generalize {| Native.current_pass_num := 1; Native.response := None;
                Native.full_stream := "" |}.
  generalize Native.max_passes. intros fuel. revert s.
  induction fuel as [|fuel IH]; intros s vars;
    cbn [Sink.while_passes Native.while_passes];
    destruct (_ <=? _); try done.
  apply bind_ext; [by apply sink_pass_body_returns|].
  intros vars1 s1. apply IH.
Qed.

(** A pass that returns has counted itself and has a response. *)
Lemma sink_pass_body_ok (vars vars' : Native.loop_vars) (s s' : state) :
  pass_body vars s = (s', Ok vars') ->
  Native.current_pass_num vars' = Native.current_pass_num vars + 1
  /\ exists final, Native.response vars' = Some final.
Proof.
  unfold Sink.pass_body. intros H.
  apply bind_ok_inv in H as (mts & sa & _ & H).
  apply bind_ok_inv in H as (s0 & sb & _ & H).
  apply bind_ok_inv in H as (? & sc & _ & H).
  destruct (messages_stream s0 _) as [texts final|texts].
  - do 7 (apply bind_ok_inv in H as (? & ? & _ & H)).
    injection H as _ <-. cbn. eauto.
  - apply bind_ok_inv in H as (? & ? & _ & H). discriminate H.
Qed.

(** The loop runs the body twice, and ends by its own test. *)
Lemma sink_while_passes_run (vars : Native.loop_vars) (s : state) :
  Native.current_pass_num vars = 1 ->
  while_passes Native.max_passes vars s =
    match pass_body vars s with
    | (s1, Ok vars1) => pass_body vars1 s1
    | (s1, Raise e) => (s1, Raise e)
    end.
Proof.
  intros H1. unfold Native.max_passes at 1. cbn [Sink.while_passes]. rewrite H1.
  unfold Native.max_passes. cbn [Nat.leb]. rewrite bind_run.
  destruct (pass_body vars s) as [s1 [vars1|e]] eqn:E1; [|done].
  apply sink_pass_body_ok in E1 as [Hn1 _]. rewrite Hn1, H1.
  cbn [Nat.add Nat.leb]. rewrite bind_run.
  destruct (pass_body vars1 s1) as [s2 [vars2|e]] eqn:E2; [|done].
  apply sink_pass_body_ok in E2 as [Hn2 _]. rewrite Hn2, Hn1, H1. reflexivity.
Qed.

(** [messages] is a value, or a reference to an object of the store. *)
#[local] Abbreviation Held :=
  (fun s : state => val_closed (length (store s)) messages).
#[local] Abbreviation G := (guarded Held (sink_error callback)).

Lemma held_emit (e : event) : G (emit e).
Proof. by apply guarded_emit. Qed.

Lemma held_new_dict (entries : gmap string val) : G (new_dict entries).
Proof.
  intros s Hs. split; [|intros e H; discriminate H].
  cbn. rewrite length_app. destruct messages; cbn in *; try done. lia.
Qed.

Lemma held_as_list : G (as_list messages).
Proof.
  intros s Hs. unfold as_list, deref.
  destruct messages as [| | | |l]; cbn in *;
    try (split; [done|]; intros e [= <-]; left; by left).
  rewrite !bind_run. unfold load.
  destruct (lookup_lt_is_Some_2 _ _ Hs) as [o Ho]. rewrite Ho.
  destruct o as [items|entries]; cbn.
  - split; [done|]. intros e H. discriminate H.
  - split; [done|]. intros e [= <-]. left. by left.
Qed.

Lemma held_list_add (ys : list val) : G (list_add messages ys).
Proof.
  unfold list_add. apply guarded_bind; [apply held_as_list|].
  intros [l items] s Hs. split; [|intros e H; discriminate H].
  cbn. rewrite length_app. destruct messages; cbn in *; try done. lia.
Qed.

Lemma held_list_iadd (ys : list val) : G (list_iadd messages ys).
Proof.
  unfold list_iadd. apply guarded_bind; [apply held_as_list|].
  intros [l items] s Hs. split; [|intros e H; discriminate H].
  cbn. by rewrite length_insert.
Qed.

(** What the callback raises is an error of the callback. *)
Lemma held_text_body (acc text : string) : G (Sink.text_body callback acc text).
Proof.
  unfold Sink.text_body.
  apply guarded_bind; [apply guarded_get_state|]. intros s0.
  apply guarded_bind; [apply held_emit|]. intros _.
  destruct (callback s0 text) as [u|e] eqn:Hcb; [apply guarded_ret|].
  apply guarded_raise. right. by eauto.
Qed.

Lemma held_first_text (m : Message) : G (Claude.first_text m).
Proof.
  unfold Claude.first_text. destruct (content m).
  - apply guarded_raise. left. right. by left.
  - apply guarded_ret.
Qed.

Lemma held_pass_body (vars : Native.loop_vars) : G (pass_body vars).
Proof.
  unfold Sink.pass_body.
  apply guarded_bind.
  { destruct include_thinking; [|apply guarded_ret].
    apply guarded_bind; [apply held_new_dict|].
    intros turn. apply held_list_add. }
  intros mts. apply guarded_bind; [apply guarded_get_state|].
  intros s0. apply guarded_bind; [apply held_emit|]. intros _.
  destruct (messages_stream s0 _) as [texts final|texts].
  - apply guarded_bind.
    { apply guarded_fold_each. intros; apply held_text_body. }
    intros fs. apply guarded_bind; [apply held_emit|]. intros _.
    apply guarded_bind; [apply held_first_text|].
    intros text. apply guarded_bind.
    { destruct IS_DEBUG_ENABLED; [|apply guarded_ret].
      apply guarded_bind; [apply held_emit|].
      intros _. apply held_emit. }
    intros _. apply guarded_bind; [apply held_new_dict|].
    intros a. apply guarded_bind; [apply held_new_dict|].
    intros u. apply guarded_bind; [apply held_list_iadd|].
    intros _. apply guarded_ret.
  - apply guarded_bind.
    { apply guarded_fold_each. intros; apply held_text_body. }
    intros _. apply guarded_raise. left. right. by right.
Qed.

(** X16.  With a callback that may raise, and [messages] a value or a
    reference to an object of the store, [stream_claude_response_native]
    returns or raises one of these: [TypeError] ([messages] is not a list),
    [IndexError] (a final message has no content block), the transport's
    error, or an exception that the callback raised, which the loop lets
    through.  The console output and the debug writer are taken to return.
    The loop ends by its own test after two passes: the bound of the
    embedding is never met. *)
Theorem native_raises_only (s : state) (e : exn) :
  val_closed (length (store s)) messages ->
  (native s).2 = Raise e ->
  e = TypeError \/ e = IndexError \/ e = TransportError
  \/ exists s0 text, callback s0 text = Raise e.
Proof.
  intros Hs H.
  assert (He : sink_error callback e).
  { revert H. unfold Sink.stream_claude_response_native.
    rewrite bind_run, sink_while_passes_run by reflexivity.
    destruct (held_pass_body
                {| Native.current_pass_num := 1; Native.response := None;
                   Native.full_stream := "" |} s Hs) as [Hs1 He1].
    destruct (pass_body _ s) as [s1 [vars1|e1]] eqn:E1; cbn [fst snd] in *.
    2:{ intros [= <-]. by apply He1. }
    destruct (held_pass_body vars1 s1 Hs1) as [Hs2 He2].
    destruct (pass_body vars1 s1) as [s2 [vars2|e2]] eqn:E2; cbn [fst snd] in *.
    2:{ intros [= <-]. by apply He2. }
    apply sink_pass_body_ok in E2 as [_ [final Hfinal]].
    cbn [bind emit]. rewrite Hfinal.
    destruct IS_DEBUG_ENABLED;
      unfold Native.write_to_file, emit, ret, Claude.first_text;
      cbn [bind]; destruct (content final); cbn [snd]; intros [= <-];
      left; right; by left. }
  destruct He as [[ -> | [ -> | -> ]] | Hcb]; auto.
Qed.

End sink_errors.

(** ** The conversations the refinement loop sends *)

Section native_conversations.
Import Registry Py Native.

Variable IS_DEBUG_ENABLED : bool.
Variable extract_html_content : string -> string.
Variable messages_stream : state -> request -> outcome.
Variable system_prompt : string.
Variable messages : val.
Variable api_key : string.
Variable include_thinking : bool.
Variable model : Llm.

#[local] Abbreviation native :=
  (stream_claude_response_native IS_DEBUG_ENABLED extract_html_content
     messages_stream system_prompt messages api_key include_thinking model).
#[local] Abbreviation st1 := (call1_state include_thinking).
#[local] Abbreviation rq1 :=
  (call1_request system_prompt messages api_key include_thinking model).
#[local] Abbreviation turns1 := (pass1_turns include_thinking).
#[local] Abbreviation after1 :=
  (pass1_state IS_DEBUG_ENABLED extract_html_content system_prompt messages
     api_key include_thinking model).
#[local] Abbreviation st2 :=
  (call2_state IS_DEBUG_ENABLED extract_html_content system_prompt messages
     api_key include_thinking model).
#[local] Abbreviation rq2 :=
  (call2_request IS_DEBUG_ENABLED extract_html_content system_prompt messages
     api_key include_thinking model).

(** The conversation a pass sends from a state in which the caller's list
    holds [items]. *)
Lemma pass_request_conversation (l : loc) (items : list val) (s : state) :
  messages = VRef l ->
  store s !! l = Some (OList items) ->
  let rq :=
    pass_request system_prompt messages api_key include_thinking model
      items s in
  if include_thinking then
    sent_conversation rq = Some (items ++ [VRef (length (store s))])
    /\ dict_at (rq_store rq) (VRef (length (store s))) = Some prefix_turn
    /\ dict_at (store s) (VRef (length (store s))) = None
    /\ rq_messages rq <> messages
    /\ rq_store rq !! l = Some (OList items)
  else
    sent_conversation rq = Some items /\ rq_messages rq = messages.
Proof.
  intros Hm Hl rq. subst rq.
  assert (Hlt : l < length (store s)) by (by eapply lookup_lt_Some).
  unfold sent_conversation, pass_request, dict_at.
  cbn [rq_messages rq_store]. unfold pass_messages_to_send, pass_pre_state.
  destruct include_thinking; cbn [store].
  - rewrite !lookup_app_r by lia.
    rewrite Nat.sub_succ_l, Nat.sub_diag by lia. cbn.
    split; [done|]. split; [done|].
    split; [by rewrite lookup_ge_None_2|].
    split; [|by rewrite lookup_app_l].
    rewrite Hm. intros [= H]. lia.
  - subst messages. by rewrite Hl.
Qed.

(** X17.  In a run in which both passes complete, what each request carries
    as its conversation.  With [include_thinking] off, both requests carry
    the caller's own list object: its items for pass 1, and those followed
    by the two turns of pass 1 for pass 2.  With it on, each request
    carries a new list, made for that pass, that holds the items of the
    caller's list at that time followed by a new assistant turn whose
    content is the prefix; the caller's list itself is not given that
    turn. *)
Theorem native_sent_conversations (l : loc) (items : list val) (s : state)
    (texts1 : list string) (final1 : Message) (text1 : string)
    (rest1 : list string) (texts2 : list string) (final2 : Message)
    (text2 : string) (rest2 : list string) :
  messages = VRef l ->
  store s !! l = Some (OList items) ->
  messages_stream (st1 items s) (rq1 items s) = Completed texts1 final1 ->
  content final1 = text1 :: rest1 ->
  messages_stream (st2 l items s texts1 final1 text1)
    (rq2 l items s texts1 final1 text1) = Completed texts2 final2 ->
  content final2 = text2 :: rest2 ->
  let run := native s in
  exists r1 r2,
    requests (trace run.1) = requests (trace s) ++ [r1; r2]
    /\ if include_thinking then
         exists p1 p2,
           sent_conversation r1 = Some (items ++ [p1])
           /\ dict_at (rq_store r1) p1 = Some prefix_turn
           /\ sent_conversation r2 = Some (items ++ turns1 items s ++ [p2])
           /\ dict_at (rq_store r2) p2 = Some prefix_turn
           /\ rq_messages r1 <> messages
           /\ rq_messages r2 <> messages
           /\ rq_messages r1 <> rq_messages r2
           /\ rq_store r1 !! l = Some (OList items)
           /\ rq_store r2 !! l = Some (OList (items ++ turns1 items s))
       else
         rq_messages r1 = messages
         /\ rq_messages r2 = messages
         /\ sent_conversation r1 = Some items
         /\ sent_conversation r2 = Some (items ++ turns1 items s).
Proof.
  intros Hm Hl H1 Hc1 H2 Hc2 run. subst run.
  rewrite (native_completed IS_DEBUG_ENABLED extract_html_content
             messages_stream system_prompt messages api_key include_thinking
             model l items s texts1 final1 text1 rest1 texts2 final2 text2
             rest2 Hm Hl H1 Hc1 H2 Hc2).
  cbn [fst]. rewrite requests_final_state.
  exists (rq1 items s), (rq2 l items s texts1 final1 text1).
  split; [done|].
  assert (Hlt : l < length (store s)) by (by eapply lookup_lt_Some).
  assert (Hn1 : length (store (st1 items s))
                = length (store s) + (if include_thinking then 2 else 0))
    by apply length_pre_state.
  assert (Hl2 : store (after1 l items s texts1 final1 text1) !! l
                = Some (OList (items ++ turns1 items s))).
  { unfold pass1_state. apply lookup_post_state_list. lia. }
  pose proof (pass_request_conversation l items s Hm Hl) as Hr1.
  pose proof (pass_request_conversation l (items ++ turns1 items s)
                (after1 l items s texts1 final1 text1) Hm Hl2) as Hr2.
  cbn zeta in Hr1, Hr2.
  fold (call1_request system_prompt messages api_key include_thinking model
          items s) in Hr1.
  change (pass_request system_prompt messages api_key include_thinking model
            (items ++ turns1 items s) (after1 l items s texts1 final1 text1))
    with (rq2 l items s texts1 final1 text1) in Hr2.
  destruct include_thinking.
  - destruct Hr1 as (Hs1 & Hp1 & _ & Hne1 & Hk1).
    destruct Hr2 as (Hs2 & Hp2 & _ & Hne2 & Hk2).
    eexists _, _. rewrite <- app_assoc in Hs2.
    split; [exact Hs1|]. split; [exact Hp1|].
    split; [exact Hs2|]. split; [exact Hp2|].
    split; [done|]. split; [done|]. split; [|done].
    unfold call1_request, call2_request, pass_request.
    cbn [rq_messages pass_messages_to_send].
    intros [= H]. rewrite length_insert, !length_app in H. cbn in H. lia.
  - destruct Hr1 as [Hs1 Hk1]. destruct Hr2 as [Hs2 Hk2]. done.
Qed.

End native_conversations.

(** ** The text before the first closing tag *)

Lemma prefix_app (sep x rest : string) :
  String.prefix sep x = true -> String.prefix sep (x +:+ rest) = true.
Proof.
  revert x. induction sep as [|a sep IH]; intros x H;
    [by destruct (x +:+ rest)|].
  destruct x as [|b x]; [discriminate H|]. rewrite string_app_cons.
  cbn in *. destruct (Ascii.ascii_dec a b); [by apply IH|done].
Qed.

Lemma split_head_is_prefix (sep s : string) :
  exists rest, s = Native.split_head sep s +:+ rest
               /\ (rest = "" \/ String.prefix sep rest = true).
Proof.
  induction s as [|c s IH].
  - exists "". split; [done|by left].
  - cbn [Native.split_head].
    destruct (String.prefix sep (String c s)) eqn:Hp.
    + exists (String c s). split; [done|by right].
    + destruct IH as (rest & Hs & Hrest). exists rest.
      split; [|done]. rewrite string_app_cons. by f_equal.
Qed.

(** X18.  The text written to a [thinking_pass] file,
    [response_text.split(sep)[0]] with the closing tag for [sep], is the
    response text up to the first place where the tag occurs: it is a
    prefix of the text, what follows it is empty or begins with the tag, and
    the tag occurs at no earlier place.  So the text written holds no
    closing tag, and it is the whole response when the response has none. *)
Theorem split_head_first_occurrence (sep s : string) :
  (exists rest,
     s = Native.split_head sep s +:+ rest
     /\ (rest = "" \/ String.prefix sep rest = true))
  /\ (forall i, i < String.length (Native.split_head sep s) ->
        String.prefix sep (string_drop i s) = false)
  /\ Native.split_head sep (Native.split_head sep s) = Native.split_head sep s
  /\ ((forall i, String.prefix sep (string_drop i s) = false) ->
      Native.split_head sep s = s).
Proof.
  split; [apply split_head_is_prefix|]. split; [|split].
  - induction s as [|c s IH]; intros i Hi; [cbn in Hi; lia|].
    cbn [Native.split_head] in Hi.
    destruct (String.prefix sep (String c s)) eqn:Hp; [cbn in Hi; lia|].
    destruct i as [|i]; [exact Hp|].
    cbn [String.length] in Hi. cbn [string_drop]. apply IH. lia.
  - induction s as [|c s IH]; [done|].
    cbn [Native.split_head].
    destruct (String.prefix sep (String c s)) eqn:Hp; [done|].
    cbn [Native.split_head].
    destruct (String.prefix sep (String c (Native.split_head sep s))) eqn:Hq.
    + destruct (split_head_is_prefix sep s) as (rest & Hs & _).
      apply (prefix_app _ _ rest) in Hq.
      rewrite string_app_cons, <- Hs in Hq. congruence.
    + by rewrite IH.
  - induction s as [|c s IH]; intros Hno; [done|].
    pose proof (Hno 0) as H0. cbn [string_drop] in H0.
    cbn [Native.split_head]. rewrite H0. f_equal.
    apply IH. intros i. exact (Hno (S i)).
Qed.

(** ** The messages of the payload *)

(** The copy of a value lies in the store that holds the copies. *)
Lemma renamed_closed (h0 : list obj) (memo : gmap loc loc) (st : list obj)
    (v : val) :
  (forall l z, memo !! l = Some z -> copied h0 memo st l) ->
  val_in memo v -> val_closed (length st) (rename_val memo v).
Proof.
  intros Hall Hv. destruct v as [| | | |l]; try done. cbn in *.
  destruct Hv as [y Hy]. rewrite Hy. cbn.
  destruct (Hall l y Hy) as (o & y' & _ & Hy' & _ & _ & Hst).
  assert (y' = y) as -> by congruence. by eapply lookup_lt_Some.
Qed.

Section translate_messages.
Import Registry Py Claude.

Variable process_image : val -> result (string * string).

#[local] Abbreviation rewrite_content := (Claude.rewrite_content process_image).
#[local] Abbreviation rewrite_message := (Claude.rewrite_message process_image).
#[local] Abbreviation Inv := (rewrite_inv process_image).

(** Rewriting a content part that lies before [n] leaves every object from
    [n] on as it is. *)
Lemma rewrite_content_above (n : nat) (p : val) (s s' : state) :
  val_closed n p -> n <= length (store s) ->
  rewrite_content p s = (s', Ok tt) ->
  length (store s) <= length (store s')
  /\ forall l, n <= l -> l < length (store s) ->
       store s' !! l = store s !! l.
Proof.
  intros Hp Hn H.
  apply rewrite_content_ok in H as (lc & e & -> & Hlc & [[_ ->]|[_ H]]);
    [done|].
  destruct H as (url & mt & d & _ & _ & ->). cbn [store] in *.
  split; [rewrite length_app, length_insert; cbn; lia|].
  cbn in Hp. intros l Hl Hlt. apply lookup_step_other; [done|lia].
Qed.

Lemma rewrite_contents_above (n : nat) (items : list val) (s s' : state) :
  Forall (val_closed n) items -> n <= length (store s) ->
  for_each rewrite_content items s = (s', Ok tt) ->
  length (store s) <= length (store s')
  /\ forall l, n <= l -> l < length (store s) ->
       store s' !! l = store s !! l.
Proof.
  revert s. induction items as [|p items IH]; intros s Hitems Hn H.
  - cbn in H. by injection H as <-.
  - apply Forall_cons in Hitems as [Hp Hitems]. cbn [for_each] in H.
    apply bind_ok_inv in H as ([] & s1 & H1 & H).
    destruct (rewrite_content_above n p s s1 Hp Hn H1) as [Hlen1 Hkeep1].
    destruct (IH s1 Hitems ltac:(lia) H) as [Hlen2 Hkeep2].
    split; [lia|]. intros l Hl Hlt.
    rewrite Hkeep2 by lia. by apply Hkeep1.
Qed.

(** The body of the outer loop on a message dict [em] whose content, when
    it is a list, holds parts that lie before [n]: the message has a
    content, and every object from [n] on is left as it is. *)
Lemma rewrite_message_above (st1 : list obj) (n : nat) (lm : loc)
    (em : gmap string val) (s s' : state) :
  Inv st1 (store s) ->
  n <= length (store s) ->
  store s !! lm = Some (ODict em) ->
  (forall lc items, em !! "content" = Some (VRef lc) ->
     st1 !! lc = Some (OList items) -> Forall (val_closed n) items) ->
  rewrite_message (VRef lm) s = (s', Ok tt) ->
  is_Some (em !! "content")
  /\ Inv st1 (store s')
  /\ length (store s) <= length (store s')
  /\ forall l, n <= l -> l < length (store s) ->
       store s' !! l = store s !! l.
Proof.
  intros Hinv Hn Hlm Hparts H.
  destruct (rewrite_message_spec process_image st1 (VRef lm) s s' Hinv H)
    as (Hinv' & _).
  unfold Claude.rewrite_message in H.
  apply bind_ok_inv in H as (c & s1 & Hget & H).
  apply getitem_ok_inv in Hget as (-> & l & e & [= <-] & Hl & Hc).
  assert (e = em) as -> by congruence.
  apply bind_ok_inv in H as (r & s2 & Hlist & H).
  apply isinstance_list_ok_inv in Hlist as (-> & Hr).
  split; [by eauto|]. split; [done|].
  destruct r as [items|]; [|by injection H as <-].
  destruct Hr as (lc & -> & Hitems).
  apply (rewrite_contents_above n items s s'); [|done|done].
  apply (Hparts lc); [done|]. by apply (rewrite_inv_list process_image st1 (store s)).
Qed.

Lemma rewrite_messages_above (st1 : list obj) (n k : nat) (lms : list loc)
    (s s' : state) :
  Inv st1 (store s) ->
  n <= k -> k <= length (store s) ->
  (forall l, n <= l -> l < k -> store s !! l = st1 !! l) ->
  Forall (fun lm =>
            n <= lm /\ lm < k
            /\ exists em,
                 st1 !! lm = Some (ODict em)
                 /\ forall lc items, em !! "content" = Some (VRef lc) ->
                      st1 !! lc = Some (OList items) ->
                      Forall (val_closed n) items) lms ->
  for_each rewrite_message (VRef <$> lms) s = (s', Ok tt) ->
  Inv st1 (store s')
  /\ (forall l, n <= l -> l < k -> store s' !! l = st1 !! l)
  /\ Forall (fun lm => exists em, st1 !! lm = Some (ODict em)
                                  /\ is_Some (em !! "content")) lms.
Proof.
  revert s. induction lms as [|lm lms IH]; intros s Hinv Hnk Hk Hsame Hlms H.
  - cbn in H. injection H as <-. done.
  - apply Forall_cons in Hlms as [(Hlo & Hhi & em & Hem & Hparts) Hlms].
    cbn [fmap list_fmap for_each] in H.
    apply bind_ok_inv in H as ([] & s1 & H1 & H).
    assert (Hlm : store s !! lm = Some (ODict em))
      by (by rewrite Hsame).
    destruct (rewrite_message_above st1 n lm em s s1 Hinv ltac:(lia) Hlm
                Hparts H1) as (Hc & Hinv1 & Hlen1 & Hkeep1).
    destruct (IH s1 Hinv1 Hnk ltac:(lia)) as (Hinv2 & Hsame2 & Hall); [|done|done|].
    { intros l Hl Hlt. rewrite Hkeep1 by lia. by apply Hsame. }
    split; [done|]. split; [done|].
    apply Forall_cons. split; [by eauto|done].
Qed.


End translate_messages.

(** ** Conversations without images *)

Lemma for_each_same {A} (f : A -> M unit) (xs : list A) (s : state) :
  Forall (fun x => f x s = (s, Ok tt)) xs -> for_each f xs s = (s, Ok tt).
Proof.
  induction xs as [|x xs IH]; intros H; [done|].
  apply Forall_cons in H as [Hx Hxs]. cbn [for_each].
  rewrite bind_run, Hx. by apply IH.
Qed.

Lemma getitem_run (l : loc) (e : gmap string val) (key : string) (v : val)
    (s : state) :
  store s !! l = Some (ODict e) -> e !! key = Some v ->
  Py.getitem (VRef l) key s = (s, Ok v).
Proof.
  intros Hl Hk. unfold Py.getitem, Py.deref.
  rewrite !bind_run, (load_run _ _ _ Hl). cbn. by rewrite Hk.
Qed.

Lemma dict_get_run (l : loc) (e : gmap string val) (key : string) (s : state) :
  store s !! l = Some (ODict e) ->
  Py.dict_get (VRef l) key s = (s, Ok (default VNone (e !! key))).
Proof.
  intros Hl. unfold Py.dict_get, Py.deref.
  by rewrite !bind_run, (load_run _ _ _ Hl).
Qed.

Lemma map_each_dict_copy_run (xs : list val) (es : list (gmap string val))
    (st : list obj) (t : list event) :
  Forall2 (fun x e => dict_at st x = Some e) xs es ->
  map_each Py.dict_copy xs (State st t)
  = (State (st ++ (ODict <$> es)) t, Ok (VRef <$> seq (length st) (length xs))).
Proof.
  intros H. revert es st H. induction xs as [|x xs IH]; intros es st H.
  - apply Forall2_nil_inv_l in H as ->. cbn. by rewrite app_nil_r.
  - apply Forall2_cons_inv_l in H as (e & es' & He & Hes & ->).
    cbn [map_each]. rewrite bind_run.
    apply dict_at_Some in He as (l & -> & Hl).
    unfold Py.dict_copy at 1, Py.deref.
    rewrite !bind_run, (load_run l (ODict e)) by done.
    cbn [bind ret Py.alloc store trace].
    rewrite bind_run, (IH es' (st ++ [ODict e])).
    + cbn [fmap list_fmap length seq]. rewrite <- app_assoc.
      rewrite length_app. cbn [length app].
      by rewrite Nat.add_1_r.
    + eapply Forall2_impl; [exact Hes|]. intros y e' Hy. by apply dict_at_app.
Qed.

Section without_images.
Import Registry Py Claude.

Variable process_image : val -> result (string * string).

(** A part that is not in the image form is passed over. *)
Lemma rewrite_content_plain (lp : loc) (ep : gmap string val) (t : val)
    (s : state) :
  store s !! lp = Some (ODict ep) -> ep !! "type" = Some t ->
  t <> VStr "image_url" ->
  rewrite_content process_image (VRef lp) s = (s, Ok tt).
Proof.
  intros Hlp Ht Hne. unfold rewrite_content.
  rewrite bind_run, (getitem_run _ _ _ _ _ Hlp Ht).
  by rewrite bool_decide_eq_false_2.
Qed.

(** A message without images is passed over. *)
Lemma rewrite_message_plain (lm : loc) (em : gmap string val) (c : val)
    (s : state) :
  store s !! lm = Some (ODict em) -> em !! "content" = Some c ->
  match c with
  | VRef lc =>
      exists o, store s !! lc = Some o
                /\ match o with
                   | OList parts =>
                       Forall (fun p =>
                                 exists lp ep t,
                                   p = VRef lp
                                   /\ store s !! lp = Some (ODict ep)
                                   /\ ep !! "type" = Some t
                                   /\ t <> VStr "image_url") parts
                   | ODict _ => True
                   end
  | _ => True
  end ->
  rewrite_message process_image (VRef lm) s = (s, Ok tt).
Proof.
  intros Hlm Hc Hparts. unfold rewrite_message.
  rewrite bind_run, (getitem_run _ _ _ _ _ Hlm Hc).
  destruct c as [| | | |lc]; try done.
  destruct Hparts as (o & Ho & Hparts).
  unfold isinstance_list. rewrite !bind_run, (load_run _ _ _ Ho).
  destruct o as [parts|e]; [|done]. cbn [bind ret].
  apply for_each_same. eapply Forall_impl; [exact Hparts|].
  intros p (lp & ep & t & -> & Hlp & Ht & Hne).
  by eapply rewrite_content_plain.
Qed.

End without_images.

(** X20.  A conversation without images is always translated: when the
    first message is a dict and every later message is a dict with a
    [content] that is not a list, or is a list of dicts with a [type] other
    than [image_url], the translation returns, and it returns the same
    payload and the same store whatever [process_image] does. *)
Theorem translate_without_images (l : loc) (first : val) (rest : list val)
    (s : state) :
  closed_store (store s) ->
  store s !! l = Some (OList (first :: rest)) ->
  is_Some (dict_at (store s) first) ->
  Forall (plain_message (store s)) rest ->
  exists s' system_prompt claude_messages,
    forall process_image,
      Claude.translate process_image (VRef l) s
      = (s', Ok (system_prompt, claude_messages)).
Proof.
  intros Hclosed Hl [e0 He0] Hplain.
  assert (Hlt : l < length (store s)) by (by eapply lookup_lt_Some).
  destruct (deepcopy_returns (VRef l) s Hclosed Hlt) as (sA & y & Hcopy).
  destruct (deepcopy_spec (VRef l) s sA y Hclosed Hcopy)
    as (memo & Hpre & Htr & -> & Hin & Hall).
  destruct (copied_at_list _ _ _ Hall l (first :: rest) Hin Hl)
    as (yl & Hyl & _ & HstA & Hins).
  apply Forall_cons in Hins as [Hfirst Hins].
  rewrite (rename_val_ref _ _ _ Hyl) in Hcopy.
  set (stA := store sA) in *. set (nA := length stA).
  (* the copy of a dict of the caller's store *)
  assert (Hdict : forall m e, val_in memo m -> dict_at (store s) m = Some e ->
            exists ym, rename_val memo m = VRef ym
                       /\ stA !! ym = Some (ODict (rename_val memo <$> e))
                       /\ ym < nA
                       /\ map_Forall (fun _ v => val_in memo v) e).
  { intros m e Hm He. apply dict_at_Some in He as (lm & -> & Hlm).
    destruct (copied_at_dict _ _ _ Hall lm e Hm Hlm) as (ym & Hym & _ & Hst & Hv).
    exists ym. rewrite (rename_val_ref _ _ _ Hym).
    split; [done|]. split; [done|]. split; [by eapply lookup_lt_Some|done]. }
  destruct (Hdict first e0 Hfirst He0) as (yf & Hyf & Hstf & _ & _).
  set (es := (fun m => rename_val memo <$> default ∅ (dict_at (store s) m))
               <$> rest).
  set (copies := VRef <$> seq nA (length rest)).
  set (stC := stA ++ (ODict <$> es) ++ [OList copies]).
  exists (State stC (trace s)),
    (default VNone ((rename_val memo <$> e0) !! "content")),
    (VRef (nA + length rest)).
  intros process_image.
  unfold Claude.translate. rewrite bind_run, Hcopy, bind_run.
  rewrite (as_list_run _ _ _ HstA). cbn [fmap list_fmap].
  rewrite Hyf, bind_run, (dict_get_run _ _ _ _ Hstf), bind_run.
  destruct sA as [stA' tA]. cbn [store trace] in *. subst tA.
  rewrite (map_each_dict_copy_run (rename_val memo <$> rest) es stA (trace s)).
  2:{ subst es. apply Forall2_fmap. apply Forall_Forall2_diag.
      apply Forall_forall. intros m Hmin.
      eapply Forall_forall in Hplain as (e & c & He & _); [|exact Hmin].
      eapply Forall_forall in Hins; [|exact Hmin].
      destruct (Hdict m e Hins He) as (ym & -> & Hym & _ & _).
      rewrite He. cbn. unfold dict_at. by rewrite Hym. }
  rewrite length_fmap, bind_run, new_list_run. cbn [store trace].
  fold nA copies. rewrite <- app_assoc. fold stC.
  assert (Hles : length es = length rest) by (subst es; by rewrite length_fmap).
  rewrite length_app, length_fmap, Hles. fold nA.
  rewrite bind_run.
  rewrite for_each_same; [done|].
  subst copies. apply Forall_fmap, Forall_forall. intros lm Hlm.
  apply elem_of_seq in Hlm. cbn.
  assert (Hi : lm - nA < length rest) by lia.
  destruct (lookup_lt_is_Some_2 rest (lm - nA) Hi) as [m Hmi].
  assert (Hmin : m ∈ rest) by (by eapply list_elem_of_lookup_2).
  eapply Forall_forall in Hplain as (e & c & He & Hc & Hparts); [|exact Hmin].
  eapply Forall_forall in Hins; [|exact Hmin].
  destruct (Hdict m e Hins He) as (ym & Hym & HstAm & _ & Hvals).
  assert (Hcopy_m : stC !! lm = Some (ODict (rename_val memo <$> e))).
  { subst stC. rewrite lookup_app_r by (fold nA; lia).
    rewrite lookup_app_l by (rewrite length_fmap; fold nA; lia).
    rewrite list_lookup_fmap. subst es. rewrite list_lookup_fmap. fold nA.
    rewrite Hmi. cbn. by rewrite He. }
  apply (rewrite_message_plain process_image lm (rename_val memo <$> e)
           (rename_val memo c)); [done|by rewrite lookup_fmap, Hc|].
  assert (Hcin : val_in memo c) by (by apply (Hvals "content")).
  destruct c as [| | | |lc]; try done.
  destruct Hcin as [yc Hyc]. cbn [rename_val]. rewrite Hyc.
  destruct (Hall lc yc Hyc) as (o & y' & Ho & Hy' & Hoin & _ & Hst).
  assert (y' = yc) as -> by congruence.
  assert (Hyclt : yc < nA) by (by eapply lookup_lt_Some).
  exists (rename_obj memo o). split.
  { cbn [store]. unfold stC. by rewrite lookup_app_l. }
  destruct o as [parts|eo]; [|done]. cbn [rename_obj store].
  unfold list_at in Hparts. rewrite Ho in Hparts.
  apply Forall_fmap, Forall_forall. intros p Hp. cbn.
  eapply Forall_forall in Hparts as (ep & t & Hep & Ht & Hne); [|exact Hp].
  eapply Forall_forall in Hoin; [|exact Hp].
  destruct (Hdict p ep Hoin Hep) as (yp & Hyp & Hstp & Hyplt & Hvp).
  exists yp, (rename_val memo <$> ep), (rename_val memo t).
  split; [done|]. split; [unfold stC; by rewrite lookup_app_l|].
  split; [by rewrite lookup_fmap, Ht|].
  destruct t as [| | |x|lt]; try done.
  cbn. by destruct (memo !! lt).
Qed.

(** ** The further properties on the example inputs *)

Lemma stream_claude_response_delivers_witness :
  let run :=
    Claude.stream_claude_response example_process_image drafting_provider
      (VRef 0) "key" Registry.CLAUDE_3_OPUS image_state in
  callbacks (trace run.1) = ["dr"; "aft"]
  /\ final_messages (trace run.1) = [text_message "draft"]
  /\ closes (trace run.1) = 1
  /\ last (trace run.1) = Some EClose
  /\ run.2 = Ok "draft".
Proof.
  set (r := Claude.translate example_process_image (VRef 0) image_state).
  assert (Hr : r = (r.1, Ok (VStr "You write HTML.", VRef 15)))
    by (vm_compute; reflexivity).
  pose proof (stream_claude_response_delivers example_process_image
                drafting_provider (VRef 0) "key" Registry.CLAUDE_3_OPUS
                image_state r.1 _ _ Hr) as H.
  cbn zeta in H.
  assert (E : drafting_provider r.1
                (claude_request "key" Registry.CLAUDE_3_OPUS
                   (VStr "You write HTML.") (VRef 15) (store r.1))
              = Completed ["dr"; "aft"] (text_message "draft"))
    by (vm_compute; reflexivity).
  rewrite E in H. exact H.
Defined.

Lemma translate_output_is_new_witness :
  let r := Claude.translate example_process_image (VRef 0) image_state in
  r.2 = Ok (VStr "You write HTML.", VRef 15)
  /\ VRef 15 <> VRef 0
  /\ exists made,
       store r.1 = image_store ++ made
       /\ Forall (fresh_obj (length image_store)) made.
Proof.
  intros r.
  assert (Hr : r = (r.1, Ok (VStr "You write HTML.", VRef 15)))
    by (vm_compute; reflexivity).
  destruct (translate_output_is_new example_process_image (VRef 0)
              image_state r.1 _ _ Hr) as (_ & _ & Hne & Hmade).
  split; [by rewrite Hr|]. split; [exact Hne|exact Hmade].
Defined.

Lemma native_first_pass_failure_witness :
  let run :=
    Native.stream_claude_response_native true (fun html => html)
      breaking_provider "You write HTML." (VRef 0) "key" true
      Registry.CLAUDE_3_OPUS example_state in
  run.2 = Raise TransportError
  /\ store run.1 !! 0 = Some (OList [VRef 1])
  /\ callbacks (trace run.1) = ["<p>Hel"]
  /\ closes (trace run.1) = 0
  /\ debug_writes (trace run.1) = [].
Proof.
  pose proof (native_first_pass_failure true (fun html => html)
                breaking_provider "You write HTML." (VRef 0) "key" true
                Registry.CLAUDE_3_OPUS 0 [VRef 1] example_state
                ["<p>Hel"]) as H.
  cbn zeta in H.
  destruct H as (Hr & Hs & Hc & _ & Hcl & Hd); try (vm_compute; reflexivity).
  intros run. subst run.
  split; [exact Hr|]. split; [by apply Hs|].
  split; [exact Hc|]. split; [exact Hcl|exact Hd].
Defined.

Lemma native_second_pass_failure_witness :
  let run :=
    Native.stream_claude_response_native true (fun html => html)
      failing_second_provider "You write HTML." (VRef 0) "key" false
      Registry.CLAUDE_3_OPUS example_state in
  run.2 = Raise TransportError
  /\ store run.1 !! 0 = Some (OList [VRef 1; VRef 2; VRef 3])
  /\ dict_at (store run.1) <$> [VRef 2; VRef 3]
     = [Some (assistant_turn "draft"); Some user_turn]
  /\ callbacks (trace run.1) = ["draft"]
  /\ closes (trace run.1) = 0
  /\ debug_writes (trace run.1)
     = [("pass_1.html", "draft"); ("thinking_pass_1.txt", "draft")].
Proof.
  pose proof (native_second_pass_failure true (fun html => html)
                failing_second_provider "You write HTML." (VRef 0) "key"
                false Registry.CLAUDE_3_OPUS 0 [VRef 1] example_state
                ["draft"] (text_message "draft") "draft" [] []) as H.
  cbn zeta in H.
  destruct H as (Hr & Hl & Hd & Hc & _ & Hcl & Hw);
    try (vm_compute; reflexivity).
  intros run. subst run.
  split; [exact Hr|].
  split; [etrans; [exact Hl | vm_compute; reflexivity]|].
  split; [etrans; [exact Hd | vm_compute; reflexivity]|].
  split; [exact Hc|]. split; [exact Hcl|].
  etrans; [exact Hw | vm_compute; reflexivity].
Defined.

Lemma native_empty_final_content_witness :
  let run :=
    Native.stream_claude_response_native false (fun html => html)
      empty_content_provider "You write HTML." (VRef 0) "key" false
      Registry.CLAUDE_3_OPUS example_state in
  run.2 = Raise IndexError
  /\ store run.1 !! 0 = Some (OList [VRef 1])
  /\ callbacks (trace run.1) = ["text"]
  /\ closes (trace run.1) = 0.
Proof.
  pose proof (native_empty_final_content false (fun html => html)
                empty_content_provider "You write HTML." (VRef 0) "key"
                false Registry.CLAUDE_3_OPUS 0 [VRef 1] example_state
                ["text"]
                {| content := []; input_tokens := 10; output_tokens := 0 |})
    as H.
  cbn zeta in H.
  destruct H as (Hr & Hs & Hc & _ & _ & Hcl & _);
    try (vm_compute; reflexivity).
  intros run. subst run.
  split; [exact Hr|]. split; [by apply Hs|]. split; [exact Hc|exact Hcl].
Defined.

Lemma native_streams_both_passes_witness :
  let run :=
    Native.stream_claude_response_native false (fun html => html)
      drafting_provider "You write HTML." (VRef 0) "key" true
      Registry.CLAUDE_3_OPUS example_state in
  callbacks (trace run.1) = ["dr"; "aft"; "final"]
  /\ closes (trace run.1) = 1.
Proof.
  pose proof (native_streams_both_passes false (fun html => html)
                drafting_provider "You write HTML." (VRef 0) "key" true
                Registry.CLAUDE_3_OPUS 0 [VRef 1] example_state
                ["dr"; "aft"] (text_message "draft") "draft" []
                ["final"] (text_message "final") "final" []) as H.
  cbn zeta in H.
  destruct H as (Hc & Hcl & _); try (vm_compute; reflexivity).
  intros run. subst run. split; [exact Hc|exact Hcl].
Defined.

Lemma native_debug_files_witness :
  let run :=
    Native.stream_claude_response_native true (fun html => html)
      drafting_provider "You write HTML." (VRef 0) "key" false
      Registry.CLAUDE_3_OPUS example_state in
  debug_writes (trace run.1)
  = [ ("pass_1.html", "draft"); ("thinking_pass_1.txt", "draft");
      ("pass_2.html", "final"); ("thinking_pass_2.txt", "final");
      ("full_stream.txt", "draftfinal") ].
Proof.
  pose proof (native_debug_files true (fun html => html)
                drafting_provider "You write HTML." (VRef 0) "key" false
                Registry.CLAUDE_3_OPUS 0 [VRef 1] example_state
                ["dr"; "aft"] (text_message "draft") "draft" []
                ["final"] (text_message "final") "final" []) as H.
  cbn zeta in H.
  intros run. subst run.
  etrans; [apply H; vm_compute; reflexivity | vm_compute; reflexivity].
Defined.

Lemma native_raises_only_witness :
  let run :=
    Sink.stream_claude_response_native false (fun html => html)
      drafting_provider closed_sink "You write HTML." (VRef 0) "key" false
      Registry.CLAUDE_3_OPUS example_state in
  val_closed (length (store example_state)) (VRef 0)
  /\ run.2 = Raise (Exception "sink closed")
  /\ callbacks (trace run.1) = ["dr"]
  /\ exists s0 text, closed_sink s0 text = Raise (Exception "sink closed").
Proof.
  intros run.
  assert (Hc : val_closed (length (store example_state)) (VRef 0))
    by (vm_compute; lia).
  assert (Hr : run.2 = Raise (Exception "sink closed"))
    by (vm_compute; reflexivity).
  split; [exact Hc|]. split; [exact Hr|].
  split; [vm_compute; reflexivity|].
  destruct (native_raises_only false (fun html => html) drafting_provider
              closed_sink "You write HTML." (VRef 0) "key" false
              Registry.CLAUDE_3_OPUS example_state _ Hc Hr)
    as [H|[H|[H|H]]]; try discriminate H.
  exact H.
Defined.

Lemma native_sent_conversations_witness :
  let run :=
    Native.stream_claude_response_native false (fun html => html)
      drafting_provider "You write HTML." (VRef 0) "key" true
      Registry.CLAUDE_3_OPUS example_state in
  exists r1 r2,
    requests (trace run.1) = [r1; r2]
    /\ sent_conversation r1 = Some [VRef 1; VRef 2]
    /\ dict_at (rq_store r1) (VRef 2) = Some prefix_turn
    /\ sent_conversation r2 = Some [VRef 1; VRef 4; VRef 5; VRef 6]
    /\ dict_at (rq_store r2) (VRef 6) = Some prefix_turn
    /\ rq_store r2 !! 0 = Some (OList [VRef 1; VRef 4; VRef 5]).
Proof.
  pose proof (native_sent_conversations false (fun html => html)
                drafting_provider "You write HTML." (VRef 0) "key" true
                Registry.CLAUDE_3_OPUS 0 [VRef 1] example_state
                ["dr"; "aft"] (text_message "draft") "draft" []
                ["final"] (text_message "final") "final" []) as H.
  cbn zeta in H.
  destruct H as (r1 & r2 & Hq & p1 & p2 & Hs1 & Hp1 & Hs2 & Hp2 & _ & _ & _
                 & _ & Hk2); try (vm_compute; reflexivity).
  intros run. subst run. exists r1, r2.
  assert (Hq' : [r1; r2]
                = requests
                    (trace
                       (Native.stream_claude_response_native false
                          (fun html => html) drafting_provider
                          "You write HTML." (VRef 0) "key" true
                          Registry.CLAUDE_3_OPUS example_state).1))
    by (by rewrite Hq).
  vm_compute in Hq'. injection Hq' as -> ->.
  split; [exact Hq|].
  vm_compute in Hs1. injection Hs1 as <-.
  vm_compute in Hs2. injection Hs2 as <-.
  repeat split; try (vm_compute; reflexivity); assumption.
Defined.

Lemma text_store_closed : closed_store text_store.
Proof.
  unfold closed_store, text_store.
  repeat (apply Forall_cons; split); try apply Forall_nil;
    cbn [obj_closed length];
    try (apply map_Forall_to_list; vm_compute);
    repeat (apply Forall_cons; split); try apply Forall_nil;
    cbn [val_closed]; try exact I; lia.
Qed.


Lemma translate_without_images_witness :
  closed_store text_store
  /\ exists s' system_prompt claude_messages,
       Claude.translate example_process_image (VRef 0) text_state
       = (s', Ok (system_prompt, claude_messages))
       /\ Claude.translate (fun _ => Raise ImageError) (VRef 0) text_state
          = (s', Ok (system_prompt, claude_messages)).
Proof.
  split; [exact text_store_closed|].
  destruct (translate_without_images 0 (VRef 1) [VRef 2] text_state
              text_store_closed eq_refl)
    as (s' & sp & cm & H).
  - eexists. vm_compute; reflexivity.
  - apply Forall_cons. split; [|done].
    exists {[ "role" := VStr "user"; "content" := VRef 3 ]}, (VRef 3).
    split; [vm_compute; reflexivity|].
    split; [vm_compute; reflexivity|].
    change (Forall (plain_part text_store) [VRef 4]).
    apply Forall_cons. split; [|done].
    exists {[ "type" := VStr "text"; "text" := VStr "Make a button" ]},
      (VStr "text").
    split; [vm_compute; reflexivity|].
    split; [vm_compute; reflexivity|]. discriminate.
  - exists s', sp, cm. split; apply H.
Defined.
